(** * BespokeDocs: the declaration parser and snippet pipeline of
    [bespoke_docs.py], embedded in Rocq.

    Python [str] values are lists of characters; a character is a code
    point below 256, so the character classes of [re] and [str.strip] are
    the ones Python has on that range.  Functions keep the names they have
    in the source.  Part I holds the embedding, Part II the properties. *)

From Stdlib Require Import List Ascii ZArith Lia Bool Arith DecimalNat.
From Equations Require Import Equations.
Import ListNotations.

(* ===================================================================== *)
(** * Part I: the embedding                                               *)
(* ===================================================================== *)

(** ** Python strings *)

Definition str := list ascii.

Inductive strlit := LitNil | LitCons (c : ascii) (s : strlit).

Fixpoint strlit_parse (l : list Byte.byte) : strlit :=
  match l with
  | [] => LitNil
  | b :: t => LitCons (ascii_of_byte b) (strlit_parse t)
  end.

Fixpoint strlit_print (s : strlit) : list Byte.byte :=
  match s with
  | LitNil => []
  | LitCons c t => byte_of_ascii c :: strlit_print t
  end.

Declare Scope str_scope.
Delimit Scope str_scope with str.
#[warnings="-via-type-remapping,-via-type-mismatch"]
String Notation str strlit_parse strlit_print
  (via strlit mapping [[nil] => LitNil, [cons] => LitCons]) : str_scope.
Bind Scope str_scope with str.
Open Scope list_scope.
Open Scope str_scope.

(** The double quote and the backslash, which a literal cannot hold. *)
Definition dquote : ascii := "034"%char.
Definition squote : ascii := "'"%char.
Definition backslash : ascii := "\"%char.
Definition newline : ascii := "010"%char.

Definition str_eqb (a b : str) : bool :=
  if list_eq_dec ascii_dec a b then true else false.

Definition code (c : ascii) : nat := nat_of_ascii c.

Definition in_range (lo hi c : ascii) : bool :=
  (code lo <=? code c) && (code c <=? code hi).

Definition is_digit (c : ascii) : bool := in_range "0" "9" c.
Definition is_lower (c : ascii) : bool := in_range "a" "z" c.
Definition is_upper (c : ascii) : bool := in_range "A" "Z" c.

(** [str.isspace] on code points below 256; also the class [\s] of [re]. *)
Definition is_space (c : ascii) : bool :=
  let n := code c in
  ((9 <=? n) && (n <=? 13)) || ((28 <=? n) && (n <=? 32))
  || (n =? 133) || (n =? 160).

Fixpoint dropWhile (p : ascii -> bool) (s : str) : str :=
  match s with
  | [] => []
  | c :: t => if p c then dropWhile p t else s
  end.

Definition lstrip (s : str) : str := dropWhile is_space s.
Definition rstrip (s : str) : str := rev (dropWhile is_space (rev s)).

(** [s.strip()] *)
Definition strip (s : str) : str := rstrip (lstrip s).

(** [s.startswith(p)] *)
Fixpoint startswith (p s : str) : bool :=
  match p, s with
  | [], _ => true
  | a :: p', b :: s' => Ascii.eqb a b && startswith p' s'
  | _ :: _, [] => false
  end.

(** [s.find(sub)], [None] standing for -1. *)
Fixpoint find (sub s : str) : option nat :=
  if startswith sub s then Some 0
  else match s with
       | [] => None
       | _ :: t => option_map S (find sub t)
       end.

(** [sep.join(l)] *)
Fixpoint join (sep : str) (l : list str) : str :=
  match l with
  | [] => []
  | [x] => x
  | x :: t => x ++ sep ++ join sep t
  end.

(** [s.split(sep)] for a one-character separator. *)
Fixpoint split_on (sep : ascii) (s : str) : list str :=
  match s with
  | [] => [[]]
  | c :: t =>
      if Ascii.eqb c sep then [] :: split_on sep t
      else match split_on sep t with
           | [] => [[c]]
           | w :: ws => (c :: w) :: ws
           end
  end.

(** [" " * n] *)
Definition spaces (n : Z) : str := repeat " "%char (Z.to_nat n).

(** [escape(str)]: the three replacements touch disjoint characters. *)
Definition escape (s : str) : str :=
  flat_map (fun c =>
    if Ascii.eqb c "$" || Ascii.eqb c "{" || Ascii.eqb c "}"
    then [backslash; c] else [c]) s.

(** ** splitByCommas *)

Definition openQuotes : str := dquote :: "'<({".
Definition closeQuotes : str := dquote :: "'>)}".

Fixpoint find_char (c : ascii) (s : str) : option nat :=
  match s with
  | [] => None
  | a :: t => if Ascii.eqb a c then Some 0 else option_map S (find_char c t)
  end.

(** The local variables of the loop; [matchingQuote] is [None] while it
    holds the empty string. *)
Record splitState := mkSplit {
  out : list str;
  current : str;
  matchingQuote : option ascii;
  insideQuotes : bool;
  nextIsLiteral : bool
}.

Definition splitInit : splitState := mkSplit [] [] None false false.

Definition is_matching (c : ascii) (m : option ascii) : bool :=
  match m with
  | Some q => Ascii.eqb c q
  | None => false
  end.

(** One iteration of [for char in str]. *)
Definition splitStep (st : splitState) (char : ascii) : splitState :=
  if nextIsLiteral st then
    mkSplit (out st) (current st ++ [char]) (matchingQuote st)
            (insideQuotes st) false
  else if insideQuotes st then
    if Ascii.eqb char backslash then
      mkSplit (out st) (current st) (matchingQuote st) true true
    else
      mkSplit (out st) (current st ++ [char]) (matchingQuote st)
              (negb (is_matching char (matchingQuote st))) false
  else
    if Ascii.eqb char "," then
      mkSplit (out st ++ [strip (current st)]) [] (matchingQuote st)
              false false
    else
      match find_char char openQuotes with
      | Some quoteIndex =>
          mkSplit (out st) (current st ++ [char])
                  (nth_error closeQuotes quoteIndex) true false
      | None =>
          mkSplit (out st) (current st ++ [char]) (matchingQuote st)
                  false false
      end.

Definition splitRun (st : splitState) (s : str) : splitState :=
  fold_left splitStep s st.

Definition splitByCommas (s : str) : list str :=
  match s with
  | [] => []
  | _ =>
      let st := splitRun splitInit s in
      out st ++ [strip (current st)]
  end.

(** The backslashes the loop drops while scanning [s] from state [st]:
    the branch [insideQuotes] with [char == '\\'] appends nothing. *)
Fixpoint dropped (st : splitState) (s : str) : nat :=
  match s with
  | [] => 0
  | c :: t =>
      (if negb (nextIsLiteral st) && insideQuotes st && Ascii.eqb c backslash
       then 1 else 0) + dropped (splitStep st c) t
  end.

(** The closing character paired with an opening one. *)
Definition closerOf (c : ascii) : option ascii :=
  match find_char c openQuotes with
  | Some i => nth_error closeQuotes i
  | None => None
  end.

(** What the specification asks of the backslash: whatever the state, the
    character after it neither opens nor closes a section. *)
Definition escapes_unconditionally : Prop :=
  forall st c, nextIsLiteral st = false ->
    insideQuotes (splitStep (splitStep st backslash) c) = insideQuotes st.

(** [t] is [s] with the pieces between commas trimmed and the commas
    written [", "]. *)
Definition trimmed_copy (s t : str) : Prop :=
  exists raw, join "," raw = s /\ t = join ", " (map strip raw).

(** The untrimmed tokens pushed at the boundaries met while scanning [s]
    from [st]. *)
Definition at_boundary (st : splitState) (c : ascii) : bool :=
  negb (nextIsLiteral st) && negb (insideQuotes st) && Ascii.eqb c ",".

Fixpoint rawOut (st : splitState) (s : str) : list str :=
  match s with
  | [] => []
  | c :: t =>
      (if at_boundary st c then [current st] else [])
      ++ rawOut (splitStep st c) t
  end.

(** The commas of [s] at which the loop cuts: the [i]-th character is a top
    level comma when it is a comma and the scan of the text before it ends
    outside every section, with no escape pending. *)
Definition top_level_comma (s : str) (i : nat) : bool :=
  match nth_error s i with
  | Some c => at_boundary (splitRun splitInit (firstn i s)) c
  | None => false
  end.

(** The pieces of [s] between the marked characters, which are left out. *)
Fixpoint cut_at (marks : list bool) (s : str) : list str :=
  match s, marks with
  | c :: t, m :: ms =>
      if m then [] :: cut_at ms t
      else match cut_at ms t with
           | p :: ps => (c :: p) :: ps
           | [] => [[c]]
           end
  | _, _ => [[]]
  end.

(** The pieces of [s] between its top level commas. *)
Definition top_level_pieces (s : str) : list str :=
  cut_at (map (top_level_comma s) (seq 0 (length s))) s.

(** Whether each character read from [st] on is a boundary. *)
Fixpoint boundaries (st : splitState) (s : str) : list bool :=
  match s with
  | [] => []
  | c :: t => at_boundary st c :: boundaries (splitStep st c) t
  end.

(** [x] written before the first piece. *)
Definition before_first (x : str) (pieces : list str) : list str :=
  match pieces with
  | p :: ps => (x ++ p) :: ps
  | [] => [x]
  end.

(** ** Regular expressions

    The fragment of Python's [re] the source uses, with its backtracking
    order: alternatives left to right, greedy repetition longest first, lazy
    repetition shortest first, the leftmost start position wins. *)

Module Re.

Inductive regex :=
| Eps
| Chr (p : ascii -> bool)
| Seq (r1 r2 : regex)
| Alt (r1 r2 : regex)
| Star (greedy : bool) (r : regex)
| Grp (name : str) (r : regex)
| Bol
| Eol
| Wordb.

(** Where the matcher stands: the characters read so far (latest first),
    the characters left, and the groups captured. *)
Record mstate := mkM {
  before : str;
  rest : str;
  caps : list (str * str)
}.

Definition pos (m : mstate) : nat := length (before m).

(** The class [\w] on code points below 256. *)
Definition is_word (c : ascii) : bool :=
  let n := code c in
  is_digit c || is_lower c || is_upper c || Ascii.eqb c "_"
  || (n =? 170) || (n =? 178) || (n =? 179) || (n =? 181) || (n =? 185)
  || (n =? 186) || ((188 <=? n) && (n <=? 190))
  || ((192 <=? n) && (n <=? 214)) || ((216 <=? n) && (n <=? 246))
  || (248 <=? n).

Definition word_at (s : str) : bool :=
  match s with
  | c :: _ => is_word c
  | [] => false
  end.

Definition orelse {A} (a b : option A) : option A :=
  match a with
  | Some x => Some x
  | None => b
  end.

(** The rounds of a repetition whose body is matched by [body]; a round
    that reads nothing ends the repetition.  [n] bounds the rounds and is the
    number of characters left, plus one. *)
Fixpoint star_loop
  (body : mstate -> (mstate -> option mstate) -> option mstate)
  (greedy : bool) (k : mstate -> option mstate) (n : nat) (m : mstate)
  {struct n} : option mstate :=
  match n with
  | 0 => k m
  | S n' =>
      let again :=
        body m (fun m' =>
          if pos m <? pos m' then star_loop body greedy k n' m' else None) in
      if greedy then orelse again (k m) else orelse (k m) again
  end.

Fixpoint rmatch (r : regex) (m : mstate) (k : mstate -> option mstate)
  {struct r} : option mstate :=
  match r with
  | Eps => k m
  | Chr p =>
      match rest m with
      | c :: t => if p c then k (mkM (c :: before m) t (caps m)) else None
      | [] => None
      end
  | Seq r1 r2 => rmatch r1 m (fun m' => rmatch r2 m' k)
  | Alt r1 r2 => orelse (rmatch r1 m k) (rmatch r2 m k)
  | Star greedy r1 =>
      star_loop (rmatch r1) greedy k (S (length (rest m))) m
  | Grp name r1 =>
      rmatch r1 m (fun m' =>
        k (mkM (before m') (rest m')
               ((name, firstn (pos m' - pos m) (rest m)) :: caps m')))
  | Bol => match before m with [] => k m | _ => None end
  | Eol =>
      match rest m with
      | [] => k m
      | [c] => if Ascii.eqb c newline then k m else None
      | _ => None
      end
  | Wordb => if xorb (word_at (before m)) (word_at (rest m)) then k m else None
  end.

(** A match: where it starts, where it ends, what it captured. *)
Record found := mkFound {
  m_start : nat;
  m_end : nat;
  m_text : str;
  m_after : mstate
}.

Definition match_here (r : regex) (m : mstate) : option found :=
  match rmatch r (mkM (before m) (rest m) []) Some with
  | Some m' =>
      Some (mkFound (pos m) (pos m') (firstn (pos m' - pos m) (rest m)) m')
  | None => None
  end.

Definition step_over (m : mstate) : option mstate :=
  match rest m with
  | c :: t => Some (mkM (c :: before m) t (caps m))
  | [] => None
  end.

(** The leftmost match at or after [m]; [n] bounds the start positions
    tried and is the number of characters left, plus one. *)
Fixpoint search_from (n : nat) (r : regex) (m : mstate) : option found :=
  match match_here r m with
  | Some f => Some f
  | None =>
      match n, step_over m with
      | S n', Some m' => search_from n' r m'
      | _, _ => None
      end
  end.

Definition start (s : str) : mstate := mkM [] s [].

(** [re.match(r, s)] *)
Definition rematch (r : regex) (s : str) : option found :=
  match_here r (start s).

(** [re.search(r, s)] *)
Definition search (r : regex) (s : str) : option found :=
  search_from (length s) r (start s).

(** [m.group(name)], [None] when the group took no part in the match. *)
Fixpoint lookup (name : str) (l : list (str * str)) : option str :=
  match l with
  | [] => None
  | (n, v) :: t => if str_eqb n name then Some v else lookup name t
  end.

Definition group (f : found) (name : str) : option str :=
  lookup name (caps (m_after f)).

(** [re.sub(r, repl, s)] for a pattern with no empty match: the matches are
    taken left to right and do not overlap. *)
Fixpoint sub_from (n : nat) (r : regex) (repl : found -> str) (m : mstate)
  : str :=
  match n with
  | 0 => rest m
  | S n' =>
      match search_from (length (rest m)) r m with
      | Some f =>
          firstn (m_start f - pos m) (rest m) ++
          (if m_start f <? m_end f
           then repl f ++ sub_from n' r repl (m_after f)
           else skipn (m_start f - pos m) (rest m))
      | None => rest m
      end
  end.

Definition sub (r : regex) (repl : found -> str) (s : str) : str :=
  sub_from (S (length s)) r repl (start s).

(** [re.split(r, s, 1)] for a pattern with no empty match. *)
Definition split1 (r : regex) (s : str) : list str :=
  match search r s with
  | Some f => [firstn (m_start f) s; skipn (m_end f) s]
  | None => [s]
  end.

(** Building blocks. *)
Fixpoint lit (s : str) : regex :=
  match s with
  | [] => Eps
  | [c] => Chr (Ascii.eqb c)
  | c :: t => Seq (Chr (Ascii.eqb c)) (lit t)
  end.

Fixpoint seq (l : list regex) : regex :=
  match l with
  | [] => Eps
  | [r] => r
  | r :: t => Seq r (seq t)
  end.

Definition star (r : regex) : regex := Star true r.
Definition lazy (r : regex) : regex := Star false r.
Definition plus (r : regex) : regex := Seq r (Star true r).
Definition opt (r : regex) : regex := Alt r Eps.
Definition oneof (s : str) : regex :=
  Chr (fun c => existsb (Ascii.eqb c) s).
Definition noneof (s : str) : regex :=
  Chr (fun c => negb (existsb (Ascii.eqb c) s)).
(** [.] *)
Definition dot : regex := Chr (fun c => negb (Ascii.eqb c newline)).
(** [\s] and [\d] *)
Definition ws : regex := Chr is_space.
Definition digit : regex := Chr is_digit.

End Re.

(** ** Python values, exceptions, settings *)

(** The values a type guess can be: [None], [True]/[False], a string. *)
Inductive pyval :=
| PNone
| PBool (b : bool)
| PStr (s : str).

Definition truthy (v : pyval) : bool :=
  match v with
  | PNone => false
  | PBool b => b
  | PStr s => negb (str_eqb s [])
  end.

(** ["%s" % v] *)
Definition fmt (v : pyval) : str :=
  match v with
  | PNone => "None"
  | PBool true => "True"
  | PBool false => "False"
  | PStr s => s
  end.

Inductive exn := IndexError | AttributeError.

Inductive result (A : Type) :=
| Ok (a : A)
| Raise (e : exn).
Arguments Ok {A} a.
Arguments Raise {A} e.

Definition bind {A B} (r : result A) (f : A -> result B) : result B :=
  match r with
  | Ok a => f a
  | Raise e => Raise e
  end.

Notation "x <- r ;; k" := (bind r (fun x => k))
  (at level 61, r at next level, right associativity).

Fixpoint mapM {A B} (f : A -> result B) (l : list A) : result (list B) :=
  match l with
  | [] => Ok []
  | a :: t => b <- f a ;; bs <- mapM f t ;; Ok (b :: bs)
  end.

(** [a or b], where [b] is evaluated only when [a] is falsy. *)
Definition por (a : pyval) (b : result pyval) : result pyval :=
  if truthy a then Ok a else b.

Inductive align_mode := AlignDeep | AlignShallow | AlignNone.
Inductive spacer_mode := SpacerOff | SpacerAll | SpacerAfterDescription.

(** An entry of [notation_map]: the key it matches by, and what it gives. *)
Inductive notation_key :=
| Prefix (p : str)
| Regex (r : Re.regex)
| NoKey.

Record notation := mkNotation {
  n_key : notation_key;
  n_type : option str;
  n_tags : option (list str)
}.

(** The plugin settings, one field per key the pipeline reads; an [option]
    field is [None] when the key is not set. *)
Record pluginSettings := mkSettings {
  indentation_spaces : Z;
  align_tags : option align_mode;
  per_section_indent : bool;
  return_tag : option str;
  min_spaces_between_columns : Z;
  spacer_between_sections : spacer_mode;
  function_description : option bool;
  newline_after_block : bool;
  simple_mode : bool;
  extra_tags_go_after : bool;
  extra_tags : list str;
  autoadd_method_tag : bool;
  prefer_param : bool;
  param_description : bool;
  param_name : bool;
  return_description : option bool;
  notation_map : list notation;
  lower_case_primitives : bool;
  short_primitives : bool;
  override_js_var : option str
}.

Definition is_true (o : option bool) : bool :=
  match o with
  | Some b => b
  | None => false
  end.

(** [s or default] for an optional string setting. *)
Definition str_or (o : option str) (default : str) : str :=
  match o with
  | Some (c :: t) => c :: t
  | _ => default
  end.

(** The two parsers, [BespokeDocsJavascript] and [BespokeDocsCoffee]. *)
Inductive dialect := Javascript | Coffee.

(** ** The dialect settings and their patterns *)

Definition id_start (c : ascii) : bool :=
  is_lower c || is_upper c || Ascii.eqb c "_" || Ascii.eqb c "$".
Definition id_char (c : ascii) : bool := id_start c || is_digit c.
Definition upper_or_underscore (c : ascii) : bool :=
  is_upper c || Ascii.eqb c "_".

Definition identifier_pattern : str := "[a-zA-Z_$][a-zA-Z_$0-9]*".
(** [[a-zA-Z_$][a-zA-Z_$0-9]*] *)
Definition identifier : Re.regex := Re.Seq (Re.Chr id_start) (Re.star (Re.Chr id_char)).

Definition fnOpener_pattern : str :=
  "(?:function[\s*]*(?:" ++ identifier_pattern ++ ")?\s*\(|(?:"
  ++ identifier_pattern ++ "|\(.*\)\s*=>)|(?:" ++ identifier_pattern
  ++ "\s*\(.*\)\s*\{))".

(** [(?:function[\s*]*(?:ID)?\s*\(|(?:ID|\(.*\)\s*=>)|(?:ID\s*\(.*\)\s*\{))] *)
Definition fnOpener_re : Re.regex :=
  Re.Alt
    (Re.seq [Re.lit "function";
             Re.star (Re.Chr (fun c => is_space c || Ascii.eqb c "*"));
             Re.opt identifier; Re.star Re.ws; Re.lit "("])
    (Re.Alt
       (Re.Alt identifier
          (Re.seq [Re.lit "("; Re.star Re.dot; Re.lit ")"; Re.star Re.ws;
                   Re.lit "=>"]))
       (Re.seq [identifier; Re.star Re.ws; Re.lit "("; Re.star Re.dot;
                Re.lit ")"; Re.star Re.ws; Re.lit "{"])).

Definition fnOpener (d : dialect) : option Re.regex :=
  match d with
  | Javascript => Some fnOpener_re
  | Coffee => None
  end.

Definition commentCloser (d : dialect) : str :=
  match d with
  | Javascript => " */"
  | Coffee => "###"
  end.

Definition curlyTypes (d : dialect) : bool := true.
Definition typeInfo (d : dialect) : bool := true.
Definition typeTag (st : pluginSettings) : str :=
  str_or (override_js_var st) "type".

(** [self.settings], the dictionary a notation's type is looked up in. *)
Definition settings (d : dialect) (st : pluginSettings) : list (str * pyval) :=
  [ ("curlyTypes", PBool (curlyTypes d));
    ("typeInfo", PBool (typeInfo d));
    ("typeTag", PStr (typeTag st));
    ("varIdentifier", PStr identifier_pattern);
    ("fnIdentifier", PStr identifier_pattern);
    ("fnOpener", match d with
                 | Javascript => PStr fnOpener_pattern
                 | Coffee => PNone
                 end);
    ("commentCloser", PStr (commentCloser d));
    ("bool", PStr "Boolean");
    ("function", PStr "Function") ].

Fixpoint dict_get (key : str) (dct : list (str * pyval)) : option pyval :=
  match dct with
  | [] => None
  | (k, v) :: t => if str_eqb k key then Some v else dict_get key t
  end.

(** ** Guessing a type from a value *)

Definition ci (c : ascii) : Re.regex :=
  Re.Chr (fun x => Ascii.eqb x c
                   || ((code x + 32 =? code c) && is_upper x)).

Definition digitpart : Re.regex :=
  Re.Seq Re.digit (Re.star (Re.Seq (Re.opt (Re.lit "_")) Re.digit)).

(** The white space [float()] skips at both ends of its argument: the white
    space of C, and the two spaces above 127, which are turned into a blank
    before the number is read.  The separators 28 to 31 are white space for
    [str.strip] and [\s], not for [float()]. *)
Definition is_float_space (c : ascii) : bool :=
  let n := code c in
  ((9 <=? n) && (n <=? 13)) || (n =? 32) || (n =? 133) || (n =? 160).

(** The strings [float()] accepts:
    [ws*[+-]?(inf(inity)?|nan|number([eE][+-]?digitpart)?)ws*] with
    [number] either [digitpart? . digitpart] or [digitpart .?] and [ws] the
    class [is_float_space]; the words are read without regard to case. *)
Definition float_re : Re.regex :=
  Re.seq
    [Re.star (Re.Chr is_float_space); Re.opt (Re.oneof "+-");
     Re.Alt
       (Re.seq [ci "i"; ci "n"; ci "f";
                Re.opt (Re.seq [ci "i"; ci "n"; ci "i"; ci "t"; ci "y"])])
       (Re.Alt
          (Re.seq [ci "n"; ci "a"; ci "n"])
          (Re.Seq
             (Re.Alt
                (Re.seq [Re.opt digitpart; Re.lit "."; digitpart])
                (Re.Seq digitpart (Re.opt (Re.lit "."))))
             (Re.opt (Re.seq [Re.oneof "eE"; Re.opt (Re.oneof "+-");
                              digitpart]))));
     Re.star (Re.Chr is_float_space)].

Definition full_match (r : Re.regex) (s : str) : bool :=
  match Re.rmatch r (Re.start s)
          (fun m => match Re.rest m with [] => Some m | _ => None end) with
  | Some _ => true
  | None => false
  end.

(** [is_numeric(val)]: whether [float(val)] returns. *)
Definition is_numeric (val : str) : bool := full_match float_re val.

(** [RegExp\b|\/[^\/]] *)
Definition regexp_literal_re : Re.regex :=
  Re.Alt (Re.Seq (Re.lit "RegExp") Re.Wordb)
         (Re.Seq (Re.lit "/") (Re.noneof "/")).

(** [new (ID)] *)
Definition new_re : Re.regex := Re.Seq (Re.lit "new ") (Re.Grp "1" identifier).

Definition is_some {A} (o : option A) : bool :=
  match o with
  | Some _ => true
  | None => false
  end.

(** [val[0]] *)
Definition first_char (val : str) : result ascii :=
  match val with
  | c :: _ => Ok c
  | [] => Raise IndexError
  end.

(** The constructor name after [new], [res and res.group(1) or None]. *)
Definition new_name (val : str) : pyval :=
  match Re.search new_re val with
  | Some f => match Re.group f "1" with
              | Some (c :: t) => PStr (c :: t)
              | _ => PNone
              end
  | None => PNone
  end.

Definition guessTypeFromValue (d : dialect) (st : pluginSettings) (val : str)
  : result pyval :=
  let lowerPrimitives := lower_case_primitives st in
  let shortPrimitives := short_primitives st in
  if is_numeric val then
    Ok (PStr (if lowerPrimitives then "number" else "Number"))
  else
    c <- first_char val ;;
    if Ascii.eqb c dquote || Ascii.eqb c squote then
      Ok (PStr (if lowerPrimitives then "string" else "String"))
    else if Ascii.eqb c "[" then Ok (PStr "Array")
    else if Ascii.eqb c "{" then Ok (PStr "Object")
    else if str_eqb val "true" || str_eqb val "false" then
      match d with
      | Javascript =>
          Ok (PStr (if shortPrimitives
                    then if lowerPrimitives then "bool" else "Bool"
                    else if lowerPrimitives then "boolean" else "Boolean"))
      | Coffee => Ok (PStr (if lowerPrimitives then "boolean" else "Boolean"))
      end
    else if is_some (Re.rematch regexp_literal_re val) then Ok (PStr "RegExp")
    else if match d with
            | Javascript => is_some (find "=>" val)
            | Coffee => false
            end
    then Ok (PStr (if lowerPrimitives then "function" else "Function"))
    else if str_eqb (firstn 4 val) "new " then Ok (new_name val)
    else Ok PNone.

(** ** Notation rules and guessing a type from a name *)

(** [(?:[A-Z_]|$)] *)
Definition name_boundary_re : Re.regex :=
  Re.Alt (Re.Chr upper_or_underscore) Re.Eol.

(** [.*[a-z]] *)
Definition any_lower_re : Re.regex :=
  Re.Seq (Re.star Re.dot) (Re.Chr is_lower).

(** [checkMatch(rule)]; [re.escape] makes the prefix a literal. *)
Definition checkMatch (name : str) (rule : notation) : bool :=
  match n_key rule with
  | Prefix prefix =>
      let regex :=
        if is_some (Re.rematch any_lower_re prefix)
        then Re.Seq (Re.lit prefix) name_boundary_re
        else Re.lit prefix in
      is_some (Re.rematch regex name)
  | Regex r => is_some (Re.search r name)
  | NoKey => false
  end.

(** [BespokeDocsParser.getMatchingNotations] *)
Definition getMatchingNotations_base (st : pluginSettings) (name : str)
  : list notation :=
  filter (checkMatch name) (notation_map st).

(** [s[-1]] *)
Definition last_char (s : str) : result ascii :=
  match rev s with
  | c :: _ => Ok c
  | [] => Raise IndexError
  end.

Definition is_generator (name : str) : bool :=
  match name with
  | c :: _ => Ascii.eqb c "*"
  | [] => false
  end.

(** [getMatchingNotations], which [BespokeDocsJavascript] overrides to add
    the yield tag of a generator. *)
Definition getMatchingNotations (d : dialect) (st : pluginSettings)
  (name : str) : result (list notation) :=
  let out := getMatchingNotations_base st name in
  match d with
  | Coffee => Ok out
  | Javascript =>
      if is_generator name then
        c <- last_char (match return_tag st with
                        | Some t => t
                        | None => "_"
                        end) ;;
        let yieldTag := "@yield" ++ (if Ascii.eqb c "s" then "s" else []) in
        let description :=
          match return_description st with
          | Some false => []
          | _ => " ${1:[description]}"
          end in
        Ok (out ++ [mkNotation NoKey None
                      (Some [yieldTag ++ " {${1:[type]}}" ++ description])])
      else Ok out
  end.

(** [(?:is|has)[A-Z_]] *)
Definition is_has_re : Re.regex :=
  Re.Seq (Re.Alt (Re.lit "is") (Re.lit "has")) (Re.Chr upper_or_underscore).

(** [^(?:cb|callback|done|next|fn)$] *)
Definition callback_re : Re.regex :=
  Re.seq [Re.Bol;
          Re.Alt (Re.lit "cb")
            (Re.Alt (Re.lit "callback")
               (Re.Alt (Re.lit "done") (Re.Alt (Re.lit "next") (Re.lit "fn"))));
          Re.Eol].

(** [self.settings[t] if t in self.settings else t] *)
Definition resolve_type (d : dialect) (st : pluginSettings) (t : str) : pyval :=
  match dict_get t (settings d st) with
  | Some v => v
  | None => PStr t
  end.

Definition name_heuristics (d : dialect) (st : pluginSettings) (name : str)
  : pyval :=
  if is_some (Re.rematch is_has_re name) then resolve_type d st "bool"
  else if is_some (Re.rematch callback_re name)
  then resolve_type d st "function"
  else PBool false.

Definition guessTypeFromName (d : dialect) (st : pluginSettings) (name : str)
  : result pyval :=
  matches <- getMatchingNotations d st name ;;
  match matches with
  | rule :: _ =>
      match n_type rule with
      | Some t => Ok (resolve_type d st t)
      | None => Ok (name_heuristics d st name)
      end
  | [] => Ok (name_heuristics d st name)
  end.

(** ** The return type of a function *)

(** [[$_]?(?:set|add)($|[A-Z_])] and [[$_]?(?:is|has)($|[A-Z_])] *)
Definition keyword_re (k1 k2 : str) : Re.regex :=
  Re.seq [Re.opt (Re.oneof "$_");
          Re.Alt (Re.lit k1) (Re.lit k2);
          Re.Grp "1" (Re.Alt Re.Eol (Re.Chr upper_or_underscore))].

(** [BespokeDocsParser.getFunctionReturnType]; the outer [None] is Python's
    [None], no return line. *)
Definition getFunctionReturnType_base (d : dialect) (st : pluginSettings)
  (name : str) : result (option pyval) :=
  if is_some (Re.rematch (Re.Chr is_upper) name) then Ok None
  else if is_some (Re.rematch (keyword_re "set" "add") name) then Ok None
  else if is_some (Re.rematch (keyword_re "is" "has") name)
  then Ok (Some (resolve_type d st "bool"))
  else
    t <- guessTypeFromName d st name ;;
    Ok (Some (if truthy t then t else PBool false)).

Definition getFunctionReturnType (d : dialect) (st : pluginSettings)
  (name : str) : result (option pyval) :=
  match d with
  | Javascript =>
      if is_generator name then Ok None
      else getFunctionReturnType_base d st name
  | Coffee => getFunctionReturnType_base d st name
  end.

(** ** Arguments *)

(** [\s*=\s*] *)
Definition equals_re : Re.regex :=
  Re.seq [Re.star Re.ws; Re.lit "="; Re.star Re.ws].

(** [^\{.*\}$] *)
Definition braced_re : Re.regex :=
  Re.seq [Re.Bol; Re.lit "{"; Re.star Re.dot; Re.lit "}"; Re.Eol].

Definition is_rest (namePart : str) : bool :=
  match find "..." namePart with
  | Some 0 => true
  | _ => false
  end.

Definition getArgType (d : dialect) (st : pluginSettings) (arg : str)
  : result pyval :=
  match d with
  | Coffee => Ok PNone
  | Javascript =>
      match Re.split1 equals_re arg with
      | part0 :: parts =>
          if is_rest part0 then Ok (PStr "...[type]")
          else match parts with
               | part1 :: _ => guessTypeFromValue d st part1
               | [] => Ok PNone
               end
      | [] => Ok PNone
      end
  end.

Definition getArgName (d : dialect) (arg : str) : str :=
  match d with
  | Coffee => arg
  | Javascript =>
      let namePart := hd [] (Re.split1 equals_re arg) in
      if is_rest namePart then skipn 3 namePart else namePart
  end.

(** [arg[1:-1]] *)
Definition inner (arg : str) : str := removelast (tl arg).

(** The items one argument stands for, and the prefix their names get. *)
Definition subItems (d : dialect) (arg : str) : list str * str :=
  match d with
  | Coffee => ([arg], [])
  | Javascript =>
      if is_some (Re.search braced_re arg)
      then (splitByCommas (inner arg), "options.")
      else ([arg], [])
  end.

Definition getArgInfo (d : dialect) (st : pluginSettings) (arg : str)
  : result (list (pyval * str)) :=
  let '(items, prefix) := subItems d arg in
  mapM (fun subItem =>
          t <- getArgType d st subItem ;;
          Ok (t, prefix ++ getArgName d subItem)) items.

Definition parseArgs (d : dialect) (st : pluginSettings) (args : str)
  : result (list (pyval * str)) :=
  out <- mapM (getArgInfo d st) (splitByCommas args) ;;
  Ok (concat out).

(** ** Parsing a declaration *)

Definition space_or_star (c : ascii) : bool := is_space c || Ascii.eqb c "*".

Definition function_pattern : str :=
  "(?:(?P<name1>" ++ identifier_pattern
  ++ ")\s*[:=]\s*)?function(?P<generator>[\s*]+)?(?P<name2>"
  ++ identifier_pattern ++ ")?\s*\(\s*(?P<args>.*)\)".

(** The pattern [function_pattern]. *)
Definition function_re : Re.regex :=
  Re.seq
    [Re.opt (Re.seq [Re.Grp "name1" identifier; Re.star Re.ws; Re.oneof ":=";
                     Re.star Re.ws]);
     Re.lit "function";
     Re.opt (Re.Grp "generator" (Re.plus (Re.Chr space_or_star)));
     Re.opt (Re.Grp "name2" identifier);
     Re.star Re.ws; Re.lit "("; Re.star Re.ws;
     Re.Grp "args" (Re.star Re.dot); Re.lit ")"].

Definition arrow_pattern : str :=
  "(?:(?P<args>" ++ identifier_pattern ++ ")|\(\s*(?P<args2>.*)\))\s*=>".

(** The pattern [arrow_pattern]. *)
Definition arrow_re : Re.regex :=
  Re.seq
    [Re.Alt (Re.Grp "args" identifier)
       (Re.seq [Re.lit "("; Re.star Re.ws; Re.Grp "args2" (Re.star Re.dot);
                Re.lit ")"]);
     Re.star Re.ws; Re.lit "=>"].

Definition method_pattern : str :=
  "(?P<name1>" ++ identifier_pattern ++ ")\s*\((?P<args>.*)\)\s*\{".

(** The pattern [method_pattern]. *)
Definition method_re : Re.regex :=
  Re.seq [Re.Grp "name1" identifier; Re.star Re.ws; Re.lit "(";
          Re.Grp "args" (Re.star Re.dot); Re.lit ")"; Re.star Re.ws;
          Re.lit "{"].

Definition coffee_function_pattern : str :=
  "(?:(?P<name>" ++ identifier_pattern
  ++ ")\s*[:=]\s*)?(?:\((?P<args>[^()]*?)\))?\s*([=-]>)".

(** The pattern [coffee_function_pattern]. *)
Definition coffee_function_re : Re.regex :=
  Re.seq
    [Re.opt (Re.seq [Re.Grp "name" identifier; Re.star Re.ws; Re.oneof ":=";
                     Re.star Re.ws]);
     Re.opt (Re.seq [Re.lit "("; Re.Grp "args" (Re.lazy (Re.noneof "()"));
                     Re.lit ")"]);
     Re.star Re.ws;
     Re.Grp "3" (Re.Seq (Re.oneof "=-") (Re.lit ">"))].

(** [(?P<name>ID)\s*[=:]\s*(?P<val>.*?)(?:[;,]|$)] *)
Definition var_re : Re.regex :=
  Re.seq [Re.Grp "name" identifier; Re.star Re.ws; Re.oneof "=:";
          Re.star Re.ws; Re.Grp "val" (Re.lazy Re.dot);
          Re.Alt (Re.oneof ";,") Re.Eol].

(** [m.group(name) or ''] *)
Definition group_or_empty (f : Re.found) (name : str) : str :=
  match Re.group f name with
  | Some v => v
  | None => []
  end.

(** [a or b] on strings. *)
Definition sor (a b : str) : str :=
  match a with
  | [] => b
  | _ => a
  end.

(** [parseFunction(line)]: the name and the argument text. *)
Definition parseFunction (d : dialect) (line : str) : option (str * str) :=
  match d with
  | Javascript =>
      match Re.orelse (Re.search function_re line)
              (Re.orelse (Re.search arrow_re line)
                         (Re.search method_re line)) with
      | None => None
      | Some res =>
          let generatorSymbol :=
            if is_some (find "*" (group_or_empty res "generator"))
            then "*" else [] in
          let name :=
            generatorSymbol
            ++ sor (group_or_empty res "name1") (group_or_empty res "name2") in
          let args :=
            sor (group_or_empty res "args") (group_or_empty res "args2") in
          Some (name, args)
      end
  | Coffee =>
      match Re.search coffee_function_re line with
      | None => None
      | Some res => Some (group_or_empty res "name", group_or_empty res "args")
      end
  end.

(** [parseVar(line)]: the name and the stripped value. *)
Definition parseVar (line : str) : option (str * str) :=
  match Re.search var_re line with
  | None => None
  | Some res =>
      Some (group_or_empty res "name", strip (group_or_empty res "val"))
  end.

(** ** Formatting *)

Definition nonempty (s : str) : bool :=
  match s with
  | [] => false
  | _ => true
  end.

Definition nonempty_list {A} (l : list A) : bool :=
  match l with
  | [] => false
  | _ => true
  end.

Definition open_curly (d : dialect) : str := if curlyTypes d then "{" else [].
Definition close_curly (d : dialect) : str := if curlyTypes d then "}" else [].

(** [escape(v)] on a guessed type, which must be a string. *)
Definition escape_val (v : pyval) : result str :=
  match v with
  | PStr s => Ok (escape s)
  | _ => Raise AttributeError
  end.

(** [v or "[type]"] *)
Definition or_unknown (v : pyval) : pyval :=
  if truthy v then v else PStr "[type]".

Definition formatVar (d : dialect) (st : pluginSettings) (inline : bool)
  (name val : str) : result (list str) :=
  valType <-
    (if negb (nonempty val) then Ok (PStr "[type]")
     else
       v <- guessTypeFromValue d st val ;;
       v' <- por v (guessTypeFromName d st name) ;;
       Ok (or_unknown v')) ;;
  if inline then
    Ok ["@" ++ typeTag st ++ " " ++ open_curly d ++ "${1:" ++ fmt valType
        ++ "}" ++ close_curly d ++ " ${1:[description]}"]
  else
    Ok ["${1:[" ++ escape name ++ " description]}";
        "@" ++ typeTag st ++ " " ++ open_curly d ++ "${1:" ++ fmt valType
        ++ "}" ++ close_curly d].

Definition getTypeInfo (d : dialect) (st : pluginSettings)
  (argType : pyval) (argName : str) : result str :=
  if typeInfo d then
    v <- por argType (guessTypeFromName d st argName) ;;
    e <- escape_val (or_unknown v) ;;
    Ok (open_curly d ++ "${1:" ++ e ++ "}" ++ close_curly d ++ " ")
  else Ok [].

(** [/\*.*?\*/] *)
Definition inline_comment_re : Re.regex :=
  Re.seq [Re.lit "/*"; Re.lazy Re.dot; Re.lit "*/"].

Definition tags_of (n : notation) : list str :=
  match n_tags n with
  | Some tags => tags
  | None => []
  end.

Definition formatFunction (d : dialect) (st : pluginSettings)
  (nameOverride : option str) (as_setter : bool) (name args : str)
  : result (list str) :=
  if as_setter then Ok ["@private"]
  else
    let extraTagAfter := extra_tags_go_after st in
    let description :=
      str_or nameOverride
        ("[" ++ escape name ++ (if nonempty name then " " else [])
         ++ "description]") in
    let out1 :=
      if is_true (function_description st)
      then ["${1:" ++ description ++ "}"] else [] in
    let out2 :=
      if autoadd_method_tag st then ["@method " ++ escape name] else [] in
    let out3 := if extraTagAfter then [] else extra_tags st in
    let args := if nonempty args
                then Re.sub inline_comment_re (fun _ => []) args
                else args in
    params <-
      (if nonempty args then
         parsed <- parseArgs d st args ;;
         mapM (fun '(argType, argName) =>
                 typeInfo <- getTypeInfo d st argType argName ;;
                 Ok ((if prefer_param st then "@param " else "@arg ")
                     ++ typeInfo
                     ++ (if param_name st then escape argName else [])
                     ++ (if param_description st
                         then " ${1:[description]}" else [])))
              parsed
       else Ok []) ;;
    retType <- getFunctionReturnType d st name ;;
    let retLine :=
      match retType with
      | None => []
      | Some t =>
          let typeInfo :=
            if typeInfo d
            then " " ++ open_curly d ++ "${1:" ++ fmt (or_unknown t) ++ "}"
                 ++ close_curly d
            else [] in
          let tag := str_or (return_tag st) "@return" in
          if is_true (return_description st) then
            let third_arg :=
              if nonempty args
                 && match align_tags st with
                    | Some AlignDeep => true
                    | _ => false
                    end
                 && negb (per_section_indent st)
              then " " else [] in
            [tag ++ typeInfo ++ " " ++ third_arg ++ "${1:[description]}"]
          else [tag ++ typeInfo]
      end in
    notations <- getMatchingNotations d st name ;;
    Ok (out1 ++ out2 ++ out3 ++ params ++ retLine
        ++ flat_map tags_of notations
        ++ (if extraTagAfter then extra_tags st else [])).

(** The body of the [try] in [parse]. *)
Definition parse_try (d : dialect) (st : pluginSettings) (inline : bool)
  (nameOverride : option str) (line : str) : result (option (list str)) :=
  match parseFunction d line with
  | Some (name, args) =>
      out <- formatFunction d st nameOverride false name args ;;
      Ok (Some out)
  | None =>
      match parseVar line with
      | Some (name, val) =>
          out <- formatVar d st inline name val ;;
          Ok (Some out)
      | None => Ok None
      end
  end.

(** [parse(line)]: [None] in simple mode and whenever the body raises. *)
Definition parse (d : dialect) (st : pluginSettings) (inline : bool)
  (nameOverride : option str) (line : str) : option (list str) :=
  if simple_mode st then None
  else match parse_try d st inline nameOverride line with
       | Ok out => out
       | Raise _ => None
       end.

(** ** Reading the definition from the buffer *)

Fixpoint takeWhile (p : ascii -> bool) (s : str) : str :=
  match s with
  | [] => []
  | c :: t => if p c then c :: takeWhile p t else []
  end.

Definition not_newline (c : ascii) : bool := negb (Ascii.eqb c newline).

(** [view.substr(view.line(point))]: the whole line holding [point]. *)
Definition line_at (buffer : str) (point : nat) : str :=
  rev (takeWhile not_newline (rev (firstn point buffer)))
  ++ takeWhile not_newline (skipn point buffer).

Definition read_line (buffer : str) (point : nat) : option str :=
  if length buffer <=? point then None else Some (line_at buffer point).

(** [//.*] and [/\*.*\*/] *)
Definition line_comment_re : Re.regex := Re.Seq (Re.lit "//") (Re.star Re.dot).
Definition block_comment_re : Re.regex :=
  Re.seq [Re.lit "/*"; Re.star Re.dot; Re.lit "*/"].

Definition strip_comments (line : str) : str :=
  Re.sub block_comment_re (fun _ => [])
    (Re.sub line_comment_re (fun _ => []) line).




Definition countBrackets (total : Z) (bracket : ascii) : Z :=
  (total + (if Ascii.eqb bracket "(" then 1 else -1))%Z.

(** [re.findall('[()]', s)] *)
Definition brackets (s : str) : str :=
  filter (fun c => Ascii.eqb c "(" || Ascii.eqb c ")") s.

(** The text the brackets are counted in while [definition] is empty. *)
Definition after_opener (d : dialect) (line : str) : str :=
  match fnOpener d with
  | Some r =>
      match Re.search r line with
      | Some opener => skipn (Re.m_start opener) line
      | None => line
      end
  | None => line
  end.

Fixpoint getDefinition_loop (d : dialect) (buffer : str) (i : nat)
  (pos : nat) (openBrackets : Z) (definition : str) : str :=
  match i with
  | 0 => definition
  | S i' =>
      match read_line buffer pos with
      | None => definition
      | Some raw =>
          let pos := pos + length raw + 1 in
          let line := strip_comments raw in
          let searchForBrackets :=
            if str_eqb definition [] then after_opener d line else line in
          let openBrackets :=
            fold_left countBrackets (brackets searchForBrackets)
                      openBrackets in
          let definition := definition ++ line in
          if (openBrackets =? 0)%Z then definition
          else getDefinition_loop d buffer i' pos openBrackets definition
      end
  end.

Definition maxLines : nat := 25.

Definition getDefinition (d : dialect) (buffer : str) (pos : nat) : str :=
  getDefinition_loop d buffer maxLines pos 0%Z [].

(** The lines [read_line] returns from [pos] on, at most [n] of them. *)
Fixpoint lines_from (n : nat) (buffer : str) (pos : nat) : list str :=
  match n with
  | 0 => []
  | S n' =>
      match read_line buffer pos with
      | None => []
      | Some raw => raw :: lines_from n' buffer (pos + length raw + 1)
      end
  end.

(** The bracket balance of a text: ( counts up, ) counts down. *)
Definition balance (s : str) : Z := fold_left countBrackets (brackets s) 0%Z.

(** How many of the comment-stripped lines [ls] are gathered: lines are
    taken until the running balance [b] is back at zero. *)
Fixpoint gathered (b : Z) (ls : list str) : nat :=
  match ls with
  | [] => 0
  | l :: t =>
      if (b + balance l =? 0)%Z then 1
      else S (gathered (b + balance l) t)
  end.

(** ** Tab stops *)

Fixpoint span (p : ascii -> bool) (s : str) : str * str :=
  match s with
  | [] => ([], [])
  | c :: t =>
      if p c then let (a, b) := span p t in (c :: a, b) else ([], s)
  end.

Definition not_close (c : ascii) : bool := negb (Ascii.eqb c "}").

(** A match of [\$\{\d+:[^}]+\}] at the head of [s]: the digits, the text
    and what follows the match.  The pattern of [fixTabStops] and the one of
    [outputWidth] match the same texts and differ in their groups only. *)
Definition matchTabStop (s : str) : option (str * str * str) :=
  if startswith "${" s then
    let (digits, t1) := span is_digit (skipn 2 s) in
    if nonempty digits && startswith ":" t1 then
      let (body, t2) := span not_close (skipn 1 t1) in
      if nonempty body && startswith "}" t2
      then Some (digits, body, skipn 1 t2)
      else None
    else None
  else None.

Lemma span_length p s : length (snd (span p s)) <= length s.
Proof.
  induction s as [|c s IH]; simpl; [lia|].
  destruct (p c); simpl; [|lia].
  destruct (span p s); simpl in *; lia.
Qed.

Lemma matchTabStop_shorter s digits body after :
  matchTabStop s = Some (digits, body, after) -> length after < length s.
Proof.
  unfold matchTabStop.
  destruct (startswith "${" s) eqn:E; [|intros X; discriminate X].
  destruct s as [|c0 [|c1 t]];
    [cbn in E; discriminate E
    | cbn [startswith] in E; rewrite andb_false_r in E; discriminate E |].
  change (skipn 2 (c0 :: c1 :: t)) with t.
  pose proof (span_length is_digit t) as H1.
  destruct (span is_digit t) as [ds t1].
  destruct (nonempty ds && startswith ":" t1); [|intros X; discriminate X].
  pose proof (span_length not_close (skipn 1 t1)) as H2.
  destruct (span not_close (skipn 1 t1)) as [bd t2].
  destruct (nonempty bd && startswith "}" t2); [|intros X; discriminate X].
  intros X; injection X as <- <- <-. cbn [snd] in *.
  assert (length (skipn 1 t1) <= length t1) by (rewrite length_skipn; lia).
  destruct t2 as [|x t2]; cbn [length] in *; lia.
Qed.

(** A line as the substitution sees it: tab stops and the characters
    between them. *)
Inductive piece :=
| Text (c : ascii)
| TabStop (index body : str).

Definition inspect {A} (a : A) : {b | a = b} := exist _ a eq_refl.

(** The matches [re.sub] finds in [s], leftmost first and not overlapping. *)
Equations scan (s : str) : list piece by wf (length s) lt :=
  scan [] := [];
  scan (c :: t) with inspect (matchTabStop (c :: t)) := {
    | exist _ (Some (digits, body, after)) _ => TabStop digits body :: scan after;
    | exist _ None _ => Text c :: scan t }.
Next Obligation.
  exact (matchTabStop_shorter (c :: t) digits body after e).
Qed.

Definition render_piece (p : piece) : str :=
  match p with
  | Text c => [c]
  | TabStop index body => "${" ++ index ++ ":" ++ body ++ "}"
  end.

Definition render (ps : list piece) : str := flat_map render_piece ps.

Fixpoint str_of_uint (u : Decimal.uint) : str :=
  match u with
  | Decimal.Nil => []
  | Decimal.D0 u => "0"%char :: str_of_uint u
  | Decimal.D1 u => "1"%char :: str_of_uint u
  | Decimal.D2 u => "2"%char :: str_of_uint u
  | Decimal.D3 u => "3"%char :: str_of_uint u
  | Decimal.D4 u => "4"%char :: str_of_uint u
  | Decimal.D5 u => "5"%char :: str_of_uint u
  | Decimal.D6 u => "6"%char :: str_of_uint u
  | Decimal.D7 u => "7"%char :: str_of_uint u
  | Decimal.D8 u => "8"%char :: str_of_uint u
  | Decimal.D9 u => "9"%char :: str_of_uint u
  end.

Fixpoint uint_of_str (s : str) : Decimal.uint :=
  match s with
  | [] => Decimal.Nil
  | c :: t =>
      let u := uint_of_str t in
      match code c - 48 with
      | 0 => Decimal.D0 u | 1 => Decimal.D1 u | 2 => Decimal.D2 u
      | 3 => Decimal.D3 u | 4 => Decimal.D4 u | 5 => Decimal.D5 u
      | 6 => Decimal.D6 u | 7 => Decimal.D7 u | 8 => Decimal.D8 u
      | _ => Decimal.D9 u
      end
  end.

(** ["%d" % n] and the number a run of digits writes. *)
Definition decimal (n : nat) : str := str_of_uint (Nat.to_uint n).
Definition number_of (digits : str) : nat := Nat.of_uint (uint_of_str digits).

(** [swapTabs] over the matches of one line; [count] is the state of the
    generator [counter()]. *)
Fixpoint renumber (count : nat) (ps : list piece) : list piece * nat :=
  match ps with
  | [] => ([], count)
  | Text c :: t =>
      let (r, count') := renumber count t in (Text c :: r, count')
  | TabStop _ body :: t =>
      let (r, count') := renumber (S count) t in
      (TabStop (decimal (S count)) body :: r, count')
  end.

Fixpoint fixTabStops_from (count : nat) (out : list str) : list str :=
  match out with
  | [] => []
  | outputLine :: t =>
      let (ps, count') := renumber count (scan outputLine) in
      render ps :: fixTabStops_from count' t
  end.

Definition fixTabStops (out : list str) : list str := fixTabStops_from 0 out.

(** The indices of the tab stops of a text, in order of appearance. *)
Definition tabIndices (text : str) : list nat :=
  flat_map (fun p => match p with
                     | Text _ => []
                     | TabStop index _ => [number_of index]
                     end) (scan text).

(** ** Substituting variables *)

(** The date and the date-time the substitution reads from the clock. *)
Record clock := mkClock { today : str; now : str }.

(** [\{\{([^}]+)\}\}] *)
Definition variable_re : Re.regex :=
  Re.seq [Re.lit "{{"; Re.Grp "1" (Re.plus (Re.noneof "}")); Re.lit "}}"].

Definition getVar (clk : clock) (m : Re.found) : str :=
  let varName := group_or_empty m "1" in
  if str_eqb varName "datetime" then now clk
  else if str_eqb varName "date" then today clk
  else Re.m_text m.

Definition substituteVariables (clk : clock) (out : list str) : list str :=
  map (Re.sub variable_re (getVar clk)) out.

(** ** Aligning the tags *)

(** [s.replace('\$', '$')] *)
Fixpoint unescape_dollar (s : str) : str :=
  match s with
  | [] => []
  | c :: t =>
      match t with
      | c' :: t' =>
          if Ascii.eqb c backslash && Ascii.eqb c' "$"
          then "$"%char :: unescape_dollar t'
          else c :: unescape_dollar t
      | [] => [c]
      end
  end.

Definition unwrap_piece (p : piece) : str :=
  match p with
  | Text c => [c]
  | TabStop _ body => body
  end.

Definition outputWidth (s : str) : nat :=
  length (unescape_dollar (flat_map unwrap_piece (scan s))).

Definition shallowAlignTags (st : pluginSettings) : bool :=
  match align_tags st with
  | Some AlignShallow => true
  | _ => false
  end.

Definition deepAlignTags (st : pluginSettings) : bool :=
  match align_tags st with
  | Some AlignDeep | None => true
  | _ => false
  end.

(** Whether the first loop of [alignTags] measures the line. *)
Definition measured (st : pluginSettings) (line : str) : bool :=
  startswith "@" line
  && negb (per_section_indent st
           && startswith (str_or (return_tag st) "@return") line).

Definition columns (line : str) : list str :=
  if startswith "@author" line then ["@author"] else split_on " " line.

Definition widths (st : pluginSettings) (out : list str) : list (list nat) :=
  map (fun line => map outputWidth (columns line)) (filter (measured st) out).

Definition maxCols (ws : list (list nat)) : nat :=
  fold_left (fun acc w => Nat.max acc (length w)) ws 0.

(** [maxWidths[i]] after the second loop. *)
Definition columnMax (ws : list (list nat)) (i : nat) : nat :=
  fold_left (fun acc w => match nth_error w i with
                          | Some x => Nat.max acc x
                          | None => acc
                          end) ws 0.

Definition maxWidths (st : pluginSettings) (out : list str) : list nat :=
  let ws := widths st out in
  let scanned := if shallowAlignTags st then 1 else maxCols ws in
  map (fun i => if i <? scanned then columnMax ws i else 0)
      (seq 0 (maxCols ws)).

(** Whether the last loop of [alignTags] rewrites the line. *)
Definition aligned_line (line : str) : bool :=
  startswith "@" line && negb (startswith "@author" line).

Fixpoint pad_parts (st : pluginSettings) (mw : list nat) (partIndex : nat)
  (parts : list str) : str :=
  match parts with
  | [] => []
  | part :: t =>
      part ++ spaces (min_spaces_between_columns st)
      ++ spaces (Z.of_nat (nth partIndex mw 0) - Z.of_nat (outputWidth part))
      ++ pad_parts st mw (S partIndex) t
  end.

Definition alignTags (st : pluginSettings) (out : list str) : list str :=
  let mw := maxWidths st out in
  map (fun line =>
         if aligned_line line
         then strip (pad_parts st mw 0 (split_on " " line))
         else line) out.

(** ** Assembling the snippet *)

Definition is_alpha (c : ascii) : bool := is_lower c || is_upper c.

(** [^\s*@([a-zA-Z]+)] *)
Definition tag_re : Re.regex :=
  Re.seq [Re.Bol; Re.star Re.ws; Re.lit "@"; Re.Grp "1" (Re.plus (Re.Chr is_alpha))].

Definition tag_of (line : str) : option str :=
  match Re.rematch tag_re line with
  | Some res => Re.group res "1"
  | None => None
  end.

Definition same_tag (lastTag : option str) (tag : str) : bool :=
  match lastTag with
  | Some t => str_eqb t tag
  | None => false
  end.

(** The loop [for idx, line in enumerate(out)] of the first spacing mode.
    [seen] holds [out[:idx]] and [todo] holds [out[idx:]]; [out.insert(idx, "")]
    puts the empty line at [idx], so the next round meets [line] again.
    [n] bounds the rounds. *)
Fixpoint spacer_all (n : nat) (no_description : bool) (seen todo : list str)
  (lastTag : option str) : list str :=
  match n, todo with
  | S n', line :: rest =>
      match tag_of line with
      | Some tag =>
          if negb (same_tag lastTag tag) then
            if (if no_description then is_some lastTag else true)
            then spacer_all n' no_description (seen ++ [[]]) (line :: rest)
                            (Some tag)
            else spacer_all n' no_description (seen ++ [line]) rest (Some tag)
          else spacer_all n' no_description (seen ++ [line]) rest lastTag
      | None => spacer_all n' no_description (seen ++ [line]) rest lastTag
      end
  | _, _ => seen ++ todo
  end.

(** The loop of the mode [after_description]. *)
Fixpoint spacer_after (n : nat) (seen todo : list str) (lastLineIsTag : bool)
  : list str :=
  match n, todo with
  | S n', line :: rest =>
      match tag_of line with
      | Some _ =>
          if negb lastLineIsTag
          then spacer_after n' (seen ++ [[]]) (line :: rest) true
          else spacer_after n' (seen ++ [line]) rest true
      | None => spacer_after n' (seen ++ [line]) rest lastLineIsTag
      end
  | _, _ => seen ++ todo
  end.

(** Every round either moves on or inserts one line and then moves on. *)
Definition rounds (out : list str) : nat := 2 * length out.

Definition spaced (st : pluginSettings) (out : list str) : list str :=
  match spacer_between_sections st with
  | SpacerAll =>
      spacer_all (rounds out)
        (match function_description st with
         | Some false => true
         | _ => false
         end) [] out None
  | SpacerAfterDescription =>
      if is_true (function_description st)
      then spacer_after (rounds out) [] out false
      else out
  | SpacerOff => out
  end.

Definition indentSpaces (st : pluginSettings) : str :=
  spaces (Z.max 0 (indentation_spaces st)).

Definition prefix : str := "*".

Definition snippet_line (st : pluginSettings) (line : str) : str :=
  newline :: " " ++ prefix ++ (if nonempty line then indentSpaces st ++ line else []).

Definition createSnippet (d : dialect) (st : pluginSettings)
  (trailingString : str) (out : list str) : str :=
  (if nonempty_list out
   then flat_map (snippet_line st) (spaced st out)
   else newline :: " " ++ prefix ++ indentSpaces st ++ "${0:" ++ trailingString
        ++ "}")
  ++ newline :: commentCloser d.

Definition generateSnippet (d : dialect) (st : pluginSettings) (clk : clock)
  (trailingString : str) (parsed : option (list str)) (inline : bool) : str :=
  let out := match parsed with Some out => out | None => [] end in
  let out := if nonempty_list out then substituteVariables clk out else out in
  let out :=
    if nonempty_list out && (shallowAlignTags st || deepAlignTags st)
       && negb inline
    then alignTags st out else out in
  let out := if nonempty_list out then fixTabStops out else out in
  if inline then
    match out with
    | first :: _ => " " ++ first ++ " */"
    | [] => " $0 */"
    end
  else
    createSnippet d st trailingString out
    ++ (if newline_after_block st then [newline] else []).

(** What [initialize] hands to the parser as the description. *)
Definition nameOverride_of (trailingString : str) : option str :=
  if nonempty trailingString then Some trailingString else None.

(** [run], from the definition read to the snippet written. *)
Definition run (d : dialect) (st : pluginSettings) (clk : clock)
  (trailingString : str) (inline : bool) (line : str) : str :=
  generateSnippet d st clk trailingString
    (parse d st inline (nameOverride_of trailingString) line) inline.

(** ** The vocabulary of the properties *)

(** [sub] occurs in [s]. *)
Definition contains (sub s : str) : Prop := exists a b, s = a ++ sub ++ b.

(** An identifier of the dialects: a letter, [_] or [$], then letters,
    digits, [_] and [$]. *)
Definition is_identifier (s : str) : Prop :=
  exists c cs, s = c :: cs /\ id_start c = true /\ forallb id_char cs = true.

(** [s] does not go on with a character of class [p]. *)
Definition stops (p : ascii -> bool) (s : str) : bool :=
  match s with
  | c :: _ => negb (p c)
  | [] => true
  end.

(** A regular expression literal as the guess reads it: the word [RegExp],
    or a slash not followed by a slash. *)
Definition regexp_like (val : str) : Prop :=
  (exists r, val = "RegExp" ++ r /\ stops Re.is_word r = true)
  \/ (exists c r, val = "/"%char :: c :: r /\ c <> "/"%char).

(** The greedy repetition of a character class, longest run first. *)
Fixpoint greedy_chr (p : ascii -> bool) (k : Re.mstate -> option Re.mstate)
  (bef rst : str) (cp : list (str * str)) : option Re.mstate :=
  match rst with
  | c :: t =>
      if p c
      then Re.orelse (greedy_chr p k (c :: bef) t cp) (k (Re.mkM bef rst cp))
      else k (Re.mkM bef rst cp)
  | [] => k (Re.mkM bef [] cp)
  end.

(** The settings the tests of the repository run under: the ones [setUp]
    sets, and for the others the values their expected outputs show. *)
Definition test_settings : pluginSettings :=
  {| indentation_spaces := 1;
     align_tags := Some AlignDeep;
     per_section_indent := false;
     return_tag := Some "@return";
     min_spaces_between_columns := 1;
     spacer_between_sections := SpacerOff;
     function_description := Some true;
     newline_after_block := false;
     simple_mode := false;
     extra_tags_go_after := false;
     extra_tags := [];
     autoadd_method_tag := false;
     prefer_param := true;
     param_description := true;
     param_name := true;
     return_description := Some true;
     notation_map := [];
     lower_case_primitives := false;
     short_primitives := false;
     override_js_var := None |}.

(** The first line of a prefix holds a lowercase letter. *)
Definition has_lower (prefix : str) : bool :=
  existsb is_lower (takeWhile not_newline prefix).

(** The prefix ends in a lowercase letter, as the specification words it. *)
Definition ends_in_lower (prefix : str) : bool :=
  match rev prefix with
  | c :: _ => is_lower c
  | [] => false
  end.

(** What [$] accepts: the end of the text, or a final line break. *)
Definition at_end (s : str) : bool :=
  match s with
  | [] => true
  | [c] => Ascii.eqb c newline
  | _ => false
  end.

(** The name stops here, or goes on with an uppercase letter or [_]. *)
Definition name_boundary (s : str) : bool :=
  match s with
  | c :: _ => upper_or_underscore c || at_end s
  | [] => true
  end.

(** The reading of a prefix rule in the specification. *)
Definition prefix_rule_spec (prefix name : str) : bool :=
  startswith prefix name
  && (if ends_in_lower prefix
      then name_boundary (skipn (length prefix) name) else true).

(** [name] is [kw], up to a final line break. *)
Definition is_word_or_line (kw name : str) : bool :=
  str_eqb name kw || str_eqb name (kw ++ [newline]).

Definition callback_names : list str := ["cb"; "callback"; "done"; "next"; "fn"].

Definition is_callback_name (name : str) : bool :=
  existsb (fun kw => is_word_or_line kw name) callback_names.

(** [name] starts with [kw] and an uppercase letter or [_]. *)
Definition starts_camel (kw name : str) : bool :=
  startswith kw name
  && match skipn (length kw) name with
     | c :: _ => upper_or_underscore c
     | [] => false
     end.

(** [st] with another [notation_map], and with another [return_tag]. *)
Definition with_notations (st : pluginSettings) (l : list notation)
  : pluginSettings :=
  {| indentation_spaces := indentation_spaces st;
     align_tags := align_tags st;
     per_section_indent := per_section_indent st;
     return_tag := return_tag st;
     min_spaces_between_columns := min_spaces_between_columns st;
     spacer_between_sections := spacer_between_sections st;
     function_description := function_description st;
     newline_after_block := newline_after_block st;
     simple_mode := simple_mode st;
     extra_tags_go_after := extra_tags_go_after st;
     extra_tags := extra_tags st;
     autoadd_method_tag := autoadd_method_tag st;
     prefer_param := prefer_param st;
     param_description := param_description st;
     param_name := param_name st;
     return_description := return_description st;
     notation_map := l;
     lower_case_primitives := lower_case_primitives st;
     short_primitives := short_primitives st;
     override_js_var := override_js_var st |}.

Definition with_return_tag (st : pluginSettings) (t : option str)
  : pluginSettings :=
  {| indentation_spaces := indentation_spaces st;
     align_tags := align_tags st;
     per_section_indent := per_section_indent st;
     return_tag := t;
     min_spaces_between_columns := min_spaces_between_columns st;
     spacer_between_sections := spacer_between_sections st;
     function_description := function_description st;
     newline_after_block := newline_after_block st;
     simple_mode := simple_mode st;
     extra_tags_go_after := extra_tags_go_after st;
     extra_tags := extra_tags st;
     autoadd_method_tag := autoadd_method_tag st;
     prefer_param := prefer_param st;
     param_description := param_description st;
     param_name := param_name st;
     return_description := return_description st;
     notation_map := notation_map st;
     lower_case_primitives := lower_case_primitives st;
     short_primitives := short_primitives st;
     override_js_var := override_js_var st |}.

(** The name starts with an uppercase letter. *)
Definition starts_upper (name : str) : bool :=
  match name with
  | c :: _ => is_upper c
  | [] => false
  end.

(** [n] starts with one of the keywords, at a name boundary. *)
Definition keyword_at (k1 k2 n : str) : bool :=
  (startswith k1 n && name_boundary (skipn (length k1) n))
  || (startswith k2 n && name_boundary (skipn (length k2) n)).

(** The same after an optional [$] or [_]. *)
Definition keyword_name (k1 k2 name : str) : bool :=
  match name with
  | c :: t =>
      ((Ascii.eqb c "$" || Ascii.eqb c "_") && keyword_at k1 k2 t)
      || keyword_at k1 k2 name
  | [] => keyword_at k1 k2 name
  end.

Definition ends_with_s (tag : str) : bool :=
  match rev tag with
  | c :: _ => Ascii.eqb c "s"
  | [] => false
  end.

(** The notation a generator adds, for a yield tag and the settings. *)
Definition yield_notation (st : pluginSettings) (yieldTag : str) : notation :=
  mkNotation NoKey None
    (Some [yieldTag ++ " {${1:[type]}}"
           ++ match return_description st with
              | Some false => []
              | _ => " ${1:[description]}"
              end]).

(** A reading of the clock, for the examples. *)
Definition noon : clock := mkClock "2020-02-02" "2020-02-02T12:00:00+0000".

(** The texts the brackets are counted in: the first stripped line from its
    function opener on, the later ones whole. *)
Definition counted (d : dialect) (stripped : list str) : list str :=
  match stripped with
  | first :: more => after_opener d first :: more
  | [] => []
  end.


(** The parts of a line, from column [i] on, need no padding: each but the
    last is at least as wide as the widest entry of its column. *)
Fixpoint unpadded (mw : list nat) (i : nat) (parts : list str) : Prop :=
  match parts with
  | [] => True
  | [_] => True
  | part :: rest => nth i mw 0 <= outputWidth part /\ unpadded mw (S i) rest
  end.

(** ** The vocabulary of the tab stop numbering *)

Definition is_close (c : ascii) : bool := Ascii.eqb c "}".

(** An opener [${digits:] at the head of [s] that no [}] follows. *)
Definition pending (s : str) : bool :=
  startswith "${" s
  && (let (digits, t1) := span is_digit (skipn 2 s) in
      nonempty digits && startswith ":" t1 && negb (existsb is_close t1)).

(** No opener of the line is left pending. *)
Fixpoint closed (s : str) : bool :=
  match s with
  | [] => true
  | _ :: t => negb (pending s) && closed t
  end.

(** A character that continues no opener. *)
Definition inert (c : ascii) : bool :=
  negb (Ascii.eqb c "{" || is_digit c || Ascii.eqb c ":").

(** A text that, put after a line, continues none of its openers. *)
Definition separate (b : str) : bool :=
  match b with
  | [] => true
  | c :: _ => inert c
  end.


Definition is_index (digits : str) : Prop :=
  digits <> [] /\ forallb is_digit digits = true.

(** [ps] is the scan of [s] with each index replaced by a run of digits. *)
Inductive renumbered : str -> list piece -> Prop :=
| renumbered_nil : renumbered [] []
| renumbered_text c t ps :
    matchTabStop (c :: t) = None -> renumbered t ps ->
    renumbered (c :: t) (Text c :: ps)
| renumbered_stop s digits body after digits' ps :
    matchTabStop s = Some (digits, body, after) -> is_index digits' ->
    renumbered after ps ->
    renumbered s (TabStop digits' body :: ps).

Definition indices (ps : list piece) : list nat :=
  flat_map (fun p => match p with
                     | Text _ => []
                     | TabStop index _ => [number_of index]
                     end) ps.


(** The lines the spacing loops leave, by recursion on the lines. *)
Fixpoint spacer_all_lines (no_description : bool) (todo : list str)
  (lastTag : option str) : list str :=
  match todo with
  | [] => []
  | line :: rest =>
      match tag_of line with
      | Some tag =>
          if negb (same_tag lastTag tag) then
            (if (if no_description then is_some lastTag else true)
             then [[]] else [])
            ++ line :: spacer_all_lines no_description rest (Some tag)
          else line :: spacer_all_lines no_description rest lastTag
      | None => line :: spacer_all_lines no_description rest lastTag
      end
  end.

Fixpoint spacer_after_lines (todo : list str) (lastLineIsTag : bool)
  : list str :=
  match todo with
  | [] => []
  | line :: rest =>
      match tag_of line with
      | Some _ =>
          (if lastLineIsTag then [] else [[]])
          ++ line :: spacer_after_lines rest true
      | None => line :: spacer_after_lines rest lastLineIsTag
      end
  end.

(** A brace of the snippet syntax. *)
Definition is_brace (c : ascii) : bool := Ascii.eqb c "{" || Ascii.eqb c "}".

(** A character [escape] puts a backslash before. *)
Definition is_special (c : ascii) : bool :=
  Ascii.eqb c "$" || Ascii.eqb c "{" || Ascii.eqb c "}".

(** A character that neither splits a token nor opens a section. *)
Definition is_plain (c : ascii) : bool :=
  negb (Ascii.eqb c "," || existsb (Ascii.eqb c) openQuotes).

(** A token [splitByCommas] gives back as it is: trimmed, without a comma
    and without an opening character. *)
Definition plain_token (t : str) : Prop :=
  strip t = t /\ forallb is_plain t = true.

(** ** The view

    What the commands read of a Sublime view: the size of the buffer and
    the scope name at each point. *)
Record view := mkView {
  view_size : nat;
  scope_name : nat -> str
}.

(** [view.scope_name(p).find('comment.block') > -1] *)
Definition in_comment_block (v : view) (p : nat) : bool :=
  is_some (find "comment.block" (scope_name v p)).

(** The loop [while start > 0 and ...: start = start - 1]. *)
Fixpoint block_start (v : view) (start : nat) : nat :=
  match start with
  | 0 => 0
  | S p => if in_comment_block v p then block_start v p else start
  end.

(** The loop [while end < view.size() and ...: end = end + 1]; [n] is
    [view.size() - end], so that no round is left exactly when
    [end >= view.size()]. *)
Fixpoint block_end (v : view) (n : nat) (e : nat) : nat :=
  match n with
  | 0 => e
  | S n' => if in_comment_block v e then block_end v n' (S e) else e
  end.

(** [getDocBlockRegion(view, point)]: the two ends of the region. *)
Definition getDocBlockRegion (v : view) (point : nat) : nat * nat :=
  (block_start v point, block_end v (view_size v - point) point).

(** ** The comment line, the language of the view, the trailing text *)

(** [\S] *)
Definition nonspace : Re.regex := Re.Chr (fun c => negb (is_space c)).

(** [^\s*\*] *)
Definition existing_comment_re : Re.regex :=
  Re.seq [Re.Bol; Re.star Re.ws; Re.lit "*"].

(** [isExistingComment(line)], as the truth value [run] tests. *)
Definition isExistingComment (line : str) : bool :=
  is_some (Re.search existing_comment_re line).

Definition lang_char (c : ascii) : bool :=
  is_lower c || Ascii.eqb c "+" || Ascii.eqb c "-".

(** [\bsource\.([a-z+\-]+)] *)
Definition source_re : Re.regex :=
  Re.seq [Re.Wordb; Re.lit "source."; Re.Grp "1" (Re.plus (Re.Chr lang_char))].

(** [getParser(view)], from the scope name at the cursor: the dialect of
    the parser it makes. *)
Definition getParser (scope : str) : dialect :=
  let sourceLang :=
    match Re.search source_re scope with
    | Some res => group_or_empty res "1"
    | None => "js"
    end in
  if str_eqb sourceLang "coffee" then Coffee else Javascript.

(** [\s*\*\/\s*$] *)
Definition trailing_closer_re : Re.regex :=
  Re.seq [Re.star Re.ws; Re.lit "*/"; Re.star Re.ws; Re.Eol].

(** [self.trailingString] as [initialize] sets it, from the text between the
    cursor and the end of its line. *)
Definition trailingString (trailing : str) : str :=
  escape (Re.sub trailing_closer_re (fun _ => []) (strip trailing)).

(** ** BespokeDocsTrimAutoWhitespace and BespokeDocsDeindent *)

Module BespokeDocsTrimAutoWhitespace.

Definition blank_pattern : str := "^(\s*\*)\s*$".

(** The pattern [blank_pattern]. *)
Definition blank_re : Re.regex :=
  Re.seq [Re.Bol; Re.Grp "1" (Re.Seq (Re.star Re.ws) (Re.lit "*"));
          Re.star Re.ws; Re.Eol].

(** The text [run] puts in the place of the line. *)
Definition run (st : pluginSettings) (line : str) : str :=
  Re.sub blank_re
    (fun m => group_or_empty m "1" ++ [newline] ++ group_or_empty m "1"
              ++ spaces (Z.max 0 (indentation_spaces st)))
    line.

End BespokeDocsTrimAutoWhitespace.

Module BespokeDocsDeindent.

Definition closer_pattern : str := "^(\s*)\s\*/.*".

(** The pattern [closer_pattern]. *)
Definition closer_re : Re.regex :=
  Re.seq [Re.Bol; Re.Grp "1" (Re.star Re.ws); Re.ws; Re.lit "*/";
          Re.star Re.dot].

(** The text [run] inserts at the cursor. *)
Definition run (line : str) : str :=
  Re.sub closer_re (fun m => newline :: group_or_empty m "1") line.

End BespokeDocsDeindent.

(** The line is a comment line with nothing after its star. *)
Definition blank_comment (line : str) : bool :=
  startswith "*" (lstrip line)
  && forallb is_space (skipn 1 (lstrip line)).

(** Where the closer pattern matches: white space, the closer, white space
    to the end. *)
Definition closes (rst : str) : bool :=
  startswith "*/" (lstrip rst) && forallb is_space (skipn 2 (lstrip rst)).

(** The line has white space and then the closer of a block comment. *)
Definition deindents (line : str) : bool :=
  nonempty (takeWhile is_space line) && startswith "*/" (lstrip line).

(** ** BespokeDocsIndentCommand *)

(** What a command does to the buffer at the cursor. *)
Inductive edit :=
| InsertSnippet (contents : str)
| Insert (text : str).

Definition tab : ascii := "009"%char.

Module BespokeDocsIndentCommand.

(** [\s+\S+] when the dialect writes types, nothing otherwise. *)
Definition extraIndent (d : dialect) : Re.regex :=
  if typeInfo d then Re.Seq (Re.plus Re.ws) (Re.plus nonspace) else Re.Eps.

Definition param_pattern : str :=
  "^\s*\*(?P<fromStar>\s*@(?:param|property)%s\s+\S+\s+)\S".
Definition return_pattern : str :=
  "^\s*\*(?P<fromStar>\s*@(?:returns?|define)%s\s+\S+\s+)\S".
Definition tag_pattern : str := "^\s*\*(?P<fromStar>\s*@[a-z]+\s+)\S".
Definition star_pattern : str := "^\s*\*(?P<fromStar>\s*)".

(** The tail the first two patterns share: [%s\s+\S+\s+] in the group,
    then [\S]. *)
Definition columns_re (d : dialect) (tag : Re.regex) : Re.regex :=
  Re.seq [Re.Bol; Re.star Re.ws; Re.lit "*";
          Re.Grp "fromStar"
            (Re.seq [Re.star Re.ws; Re.lit "@"; tag; extraIndent d;
                     Re.plus Re.ws; Re.plus nonspace; Re.plus Re.ws]);
          nonspace].

(** The pattern [param_pattern]. *)
Definition param_re (d : dialect) : Re.regex :=
  columns_re d (Re.Alt (Re.lit "param") (Re.lit "property")).

(** The pattern [return_pattern]. *)
Definition return_re (d : dialect) : Re.regex :=
  columns_re d (Re.Alt (Re.Seq (Re.lit "return") (Re.opt (Re.lit "s")))
                       (Re.lit "define")).

(** The pattern [tag_pattern]. *)
Definition tag_re : Re.regex :=
  Re.seq [Re.Bol; Re.star Re.ws; Re.lit "*";
          Re.Grp "fromStar"
            (Re.seq [Re.star Re.ws; Re.lit "@"; Re.plus (Re.Chr is_lower);
                     Re.plus Re.ws]);
          nonspace].

(** The pattern [star_pattern]. *)
Definition star_re : Re.regex :=
  Re.seq [Re.Bol; Re.star Re.ws; Re.lit "*";
          Re.Grp "fromStar" (Re.star Re.ws)].

Definition getIndentSpaces (d : dialect) (line : str) : option nat :=
  match Re.orelse (Re.search (param_re d) line)
          (Re.orelse (Re.search (return_re d) line)
             (Re.orelse (Re.search tag_re line) (Re.search star_re line)))
  with
  | Some res => Some (length (group_or_empty res "fromStar"))
  | None => None
  end.

Definition to_star_pattern : str := "^(\s*\*)".

(** The pattern [to_star_pattern]. *)
Definition to_star_re : Re.regex :=
  Re.seq [Re.Bol; Re.Grp "1" (Re.Seq (Re.star Re.ws) (Re.lit "*"))].

(** [run]: what is inserted at the cursor, which stands in column [currCol]
    of the line after [prevLine]. *)
Definition run (d : dialect) (prevLine : str) (currCol : nat) : result edit :=
  match getIndentSpaces d prevLine with
  | Some (S n) =>
      toStar <-
        match Re.search to_star_re prevLine with
        | Some res => Ok (length (group_or_empty res "1"))
        | None => Raise AttributeError
        end ;;
      let toInsert := (Z.of_nat (S n) - Z.of_nat currCol + Z.of_nat toStar)%Z in
      if (toInsert <=? 0)%Z then Ok (InsertSnippet [tab])
      else Ok (Insert (spaces toInsert))
  | _ => Ok (Insert [tab])
  end.

End BespokeDocsIndentCommand.

(** A run of white space, and a word: neither is empty. *)
Definition not_space (c : ascii) : bool := negb (is_space c).
Definition blank_run (w : str) : Prop := w <> [] /\ forallb is_space w = true.
Definition word_run (t : str) : Prop := t <> [] /\ forallb not_space t = true.

(** The continuation refuses every character of the class. *)
Definition refuses (p : ascii -> bool) (K : Re.mstate -> option Re.mstate)
  : Prop :=
  forall b c r cp, p c = true -> K (Re.mkM b (c :: r) cp) = None.

(** [namePart.find('...') == 0] gives the name without the marker. *)
Definition without_rest (namePart : str) : str :=
  if is_rest namePart then skipn 3 namePart else namePart.

(** The line [formatFunction] writes for an argument that is an identifier
    without a default value. *)
Definition param_line (d : dialect) (st : pluginSettings) (argName : str)
  : str :=
  (if prefer_param st then "@param " else "@arg ")
  ++ "{${1:" ++ escape (fmt (or_unknown (name_heuristics d st argName)))
  ++ "}} "
  ++ (if param_name st then escape argName else [])
  ++ (if param_description st then " ${1:[description]}" else []).

(** ** BespokeDocsCommand, from the buffer to the snippet *)

Module BespokeDocsCommand.

(** [initialize]: the trailing string, read from the cursor to the end of
    its line, and the definition, read from the line below. *)
Definition initialize (d : dialect) (buffer : str) (point : nat) : str * str :=
  let trailing := takeWhile not_newline (skipn point buffer) in
  (trailingString trailing,
   getDefinition d buffer (point + length trailing + 1)).

(** [run]: the snippet it writes at the cursor, for the scope name there. *)
Definition run (st : pluginSettings) (clk : clock) (inline : bool)
  (scope buffer : str) (point : nat) : str :=
  let d := getParser scope in
  let (trailing, line) := initialize d buffer point in
  if isExistingComment line then newline :: " *" ++ indentSpaces st
  else run d st clk trailing inline line.

End BespokeDocsCommand.

(** The displayed column at which column [j] of an aligned tag line starts:
    before it stand [j] columns, each as wide as the widest entry measured
    for it, and [min_spaces] spaces after each. *)
Definition column_offset (min_spaces : nat) (mw : list nat) (j : nat) : nat :=
  j * min_spaces + list_sum (map (fun k => nth k mw 0) (seq 0 j)).

(** ** BespokeDocsWrapLines: wrapping a paragraph *)

Module BespokeDocsWrapLines.

Definition leader_pattern : str := "(\n|^)\s*\*\s*".

(** The pattern [leader_pattern]. *)
Definition leader_re : Re.regex :=
  Re.seq [Re.Grp "1" (Re.Alt (Re.lit [newline]) Re.Bol); Re.star Re.ws;
          Re.lit "*"; Re.star Re.ws].

(** The local variables of [wrapPara]. *)
Record wrapState := mkWrap {
  text : str;
  line : str;
  lineTagged : bool;
  paraTagged : bool;
  lineIsNew : bool;
  tag : str
}.

(** The paragraph as [wrapPara] returns it. *)
Record wrapped := mkPara {
  p_text : str;
  p_lineTagged : bool;
  p_tagged : bool;
  p_tag : str
}.

(** One round of [for i, word in enumerate(words)]. *)
Definition wrapStep (wrapLength : Z) (indentSpacesSamePara : str)
  (s : wrapState) (word : str) : result wrapState :=
  if negb (nonempty word) && negb (lineTagged s) then Ok s
  else
    tagged <-
      (if lineIsNew s
       then c <- first_char word ;; Ok (Ascii.eqb c "@")
       else Ok false) ;;
    let lineTagged1 := if tagged then true else lineTagged s in
    let paraTagged1 := if tagged then true else paraTagged s in
    let tag1 := if tagged then word else tag s in
    if (wrapLength - 1 <=? Z.of_nat (length (line s) + length word))%Z
    then Ok (mkWrap (text s ++ rstrip (line s) ++ [newline])
                    (" *" ++ indentSpacesSamePara ++ word ++ " ")
                    false paraTagged1 false tag1)
    else Ok (mkWrap (text s) (line s ++ word ++ " ")
                    lineTagged1 paraTagged1 false tag1).

Fixpoint wrapWords (wrapLength : Z) (indentSpacesSamePara : str)
  (s : wrapState) (words : list str) : result wrapState :=
  match words with
  | [] => Ok s
  | word :: rest =>
      s' <- wrapStep wrapLength indentSpacesSamePara s word ;;
      wrapWords wrapLength indentSpacesSamePara s' rest
  end.

(** The words of the paragraph, its comment leaders replaced by a space. *)
Definition words_of (para : str) : list str :=
  split_on " " (strip (Re.sub leader_re (fun _ => " ") para)).

Definition wrapPara (wrapLength : Z) (indentSpaces indentSpacesSamePara : str)
  (para : str) : result wrapped :=
  s <- wrapWords wrapLength indentSpacesSamePara
         (mkWrap [newline] (" *" ++ indentSpaces) false false true [])
         (words_of para) ;;
  Ok (mkPara (text s ++ rstrip (line s)) (lineTagged s) (paraTagged s)
             (tag s)).

End BespokeDocsWrapLines.

(** A line of a wrapped paragraph is short enough, or holds no word, or
    holds a single word. *)
Definition wrapped_line (wrapLength : Z) (indentSpaces indentSpacesSamePara : str)
  (words : list str) (l : str) : Prop :=
  (Z.of_nat (length l) <= wrapLength - 2)%Z
  \/ l = rstrip (" *" ++ indentSpaces)
  \/ exists w, In w words /\ l = rstrip (" *" ++ indentSpacesSamePara ++ w ++ " ").

(** The text of a paragraph that has the given lines, each after a line
    break. *)
Definition lines_text (ls : list str) : str :=
  concat (map (fun l => newline :: l) ls).

(** What holds of the line [wrapPara] is filling: it is the first leader, or
    a leader with one word, or short enough and ended by a space. *)
Definition filling (wrapLength : Z) (indentSpaces indentSpacesSamePara : str)
  (words : list str) (l : str) : Prop :=
  l = " *" ++ indentSpaces
  \/ (exists w, In w words /\ l = " *" ++ indentSpacesSamePara ++ w ++ " ")
  \/ ((Z.of_nat (length l) <= wrapLength - 1)%Z /\ exists x, l = x ++ " ").

(** What the loop of [wrapPara] keeps. *)
Definition wrap_inv (wrapLength : Z) (indentSpaces indentSpacesSamePara : str)
  (words : list str) (s : BespokeDocsWrapLines.wrapState) : Prop :=
  (BespokeDocsWrapLines.lineIsNew s = true ->
   BespokeDocsWrapLines.lineTagged s = false)
  /\ (exists emitted,
        BespokeDocsWrapLines.text s = lines_text emitted ++ [newline]
        /\ Forall (wrapped_line wrapLength indentSpaces indentSpacesSamePara
                     words) emitted)
  /\ filling wrapLength indentSpaces indentSpacesSamePara words
       (BespokeDocsWrapLines.line s).

(** A character that ends the value of a variable, or breaks the line. *)
Definition ends_value (c : ascii) : bool :=
  Ascii.eqb c ";" || Ascii.eqb c "," || Ascii.eqb c newline.

(** The sign between a name and its value. *)
Definition is_assign (c : ascii) : bool := Ascii.eqb c "=" || Ascii.eqb c ":".

(** The pattern [r] matches no text without the character [c]. *)
Definition needs (c : ascii) (r : Re.regex) : Prop :=
  forall m k, ~ In c (Re.rest m) -> Re.rmatch r m k = None.

(* ===================================================================== *)
(** * Part II: properties                                                 *)
(* ===================================================================== *)

Example splitByCommas_doc :
  splitByCommas ("foo, bar(baz, quux), fwip = " ++ dquote :: "hey, hi" ++ [dquote])
  = ["foo"; "bar(baz, quux)"; "fwip = " ++ dquote :: "hey, hi" ++ [dquote]].
Proof. reflexivity. Qed.

Example splitByCommas_nested :
  splitByCommas "f(g(a), b), c" = ["f(g(a)"; "b)"; "c"].
Proof. reflexivity. Qed.

(** ** splitByCommas *)

Lemma splitStep_out st c :
  out (splitStep st c)
  = if at_boundary st c then out st ++ [strip (current st)] else out st.
Proof.
  unfold splitStep, at_boundary.
  destruct (nextIsLiteral st); cbn [negb andb]; [reflexivity|].
  destruct (insideQuotes st); cbn [negb andb].
  - destruct (Ascii.eqb c backslash); reflexivity.
  - destruct (Ascii.eqb c ","); [reflexivity|].
    destruct (find_char c openQuotes); reflexivity.
Qed.

Lemma closerOf_opener o cl :
  closerOf o = Some cl ->
  Ascii.eqb o "," = false /\
  find_char o openQuotes <> None /\
  nth_error closeQuotes
    (match find_char o openQuotes with Some i => i | None => 0 end) = Some cl.
Proof.
  unfold closerOf, openQuotes. cbn [find_char].
  repeat match goal with
  | |- context [Ascii.eqb ?a o] =>
      destruct (Ascii.eqb_spec a o) as [<-|_]; cbn [option_map]
  end; intros H; try discriminate H;
  (split; [reflexivity | split; [discriminate | exact H]]).
Qed.

Lemma splitRun_app st a b :
  splitRun st (a ++ b) = splitRun (splitRun st a) b.
Proof. apply fold_left_app. Qed.

Lemma splitRun_inside o cl cur b :
  ~ In cl b -> ~ In backslash b ->
  splitRun (mkSplit o cur (Some cl) true false) b
  = mkSplit o (cur ++ b) (Some cl) true false.
Proof.
  revert cur. induction b as [|c b IH]; intros cur Hcl Hbs; simpl.
  - now rewrite app_nil_r.
  - unfold splitStep at 1; simpl.
    destruct (Ascii.eqb_spec c backslash) as [->|_].
    { exfalso. apply Hbs. now left. }
    destruct (Ascii.eqb_spec c cl) as [->|_].
    { exfalso. apply Hcl. now left. }
    simpl. rewrite IH.
    + now rewrite <- app_assoc.
    + intros H. apply Hcl. now right.
    + intros H. apply Hbs. now right.
Qed.

Lemma splitRun_section st o cl b :
  nextIsLiteral st = false -> insideQuotes st = false ->
  closerOf o = Some cl -> ~ In cl b -> ~ In backslash b ->
  cl <> backslash ->
  splitRun st (o :: b ++ [cl])
  = mkSplit (out st) (current st ++ o :: b ++ [cl]) (Some cl) false false.
Proof.
  intros Hl Hi Ho Hcl Hbs Hne.
  destruct (closerOf_opener _ _ Ho) as (Hc & Hf & Hn).
  change (splitRun st (o :: b ++ [cl]))
    with (splitRun (splitStep st o) (b ++ [cl])).
  unfold splitStep at 1. rewrite Hl, Hi, Hc.
  destruct (find_char o openQuotes) as [i|]; [|congruence].
  rewrite Hn, splitRun_app, splitRun_inside by assumption.
  simpl. unfold splitStep; simpl.
  destruct (Ascii.eqb_spec cl backslash) as [E|_]; [contradiction|].
  rewrite Ascii.eqb_refl. simpl.
  f_equal. rewrite <- !app_assoc. reflexivity.
Qed.

Lemma splitStep_escape_inside st c :
  nextIsLiteral st = false -> insideQuotes st = true ->
  splitStep (splitStep st backslash) c
  = mkSplit (out st) (current st ++ [c]) (matchingQuote st) true false.
Proof.
  intros Hl Hi. unfold splitStep. rewrite Hl, Hi. simpl. reflexivity.
Qed.

Lemma splitStep_backslash_outside st :
  nextIsLiteral st = false -> insideQuotes st = false ->
  splitStep st backslash
  = mkSplit (out st) (current st ++ [backslash]) (matchingQuote st)
            false false.
Proof.
  intros Hl Hi. unfold splitStep. rewrite Hl, Hi. reflexivity.
Qed.

Lemma closerOf_not_backslash o cl : closerOf o = Some cl -> cl <> backslash.
Proof.
  unfold closerOf, openQuotes. cbn [find_char].
  repeat match goal with
  | |- context [Ascii.eqb ?a o] =>
      destruct (Ascii.eqb_spec a o) as [<-|_]; cbn [option_map]
  end; intros H; try discriminate H;
  injection H as <-; discriminate.
Qed.

(** C2, the claim as stated fails: outside a section the backslash is an
    ordinary character, so the quote after it opens a section and the comma
    that follows is no boundary. *)
Lemma splitByCommas_escape_outside :
  ~ escapes_unconditionally /\
  insideQuotes (splitRun splitInit [backslash; dquote]) = true /\
  splitByCommas (backslash :: dquote :: ", a")
  = [backslash :: dquote :: ", a"].
Proof.
  split; [|split; reflexivity].
  intros H. specialize (H splitInit dquote eq_refl).
  vm_compute in H. discriminate H.
Qed.

(** C2 (amended): a token boundary is recognised exactly at a comma read
    outside a section and not escaped; an opening character read outside a
    section starts a section that runs to the first unescaped occurrence of
    its closing character, and no boundary is recognised inside it; inside a
    section a backslash is dropped and the character after it is copied
    without closing the section; outside a section a backslash is an
    ordinary character; and the documented example splits as stated. *)
Theorem splitByCommas_sections :
  splitByCommas
    ("foo, bar(baz, quux), fwip = " ++ dquote :: "hey, hi" ++ [dquote])
  = ["foo"; "bar(baz, quux)"; "fwip = " ++ dquote :: "hey, hi" ++ [dquote]]
  /\ (forall st c,
        out (splitStep st c)
        = if negb (nextIsLiteral st) && negb (insideQuotes st)
             && Ascii.eqb c ","
          then out st ++ [strip (current st)] else out st)
  /\ (forall st o cl b,
        nextIsLiteral st = false -> insideQuotes st = false ->
        closerOf o = Some cl -> ~ In cl b -> ~ In backslash b ->
        splitRun st (o :: b ++ [cl])
        = mkSplit (out st) (current st ++ o :: b ++ [cl]) (Some cl)
                  false false)
  /\ (forall st c,
        nextIsLiteral st = false -> insideQuotes st = true ->
        splitStep (splitStep st backslash) c
        = mkSplit (out st) (current st ++ [c]) (matchingQuote st) true false)
  /\ (forall st,
        nextIsLiteral st = false -> insideQuotes st = false ->
        splitStep st backslash
        = mkSplit (out st) (current st ++ [backslash]) (matchingQuote st)
                  false false).
Proof.
  split; [reflexivity|].
  split; [exact splitStep_out|].
  split.
  { intros st o cl b Hl Hi Ho Hcl Hbs.
    apply splitRun_section; try assumption.
    eapply closerOf_not_backslash; eassumption. }
  split; [exact splitStep_escape_inside | exact splitStep_backslash_outside].
Qed.

Lemma splitByCommas_sections_witness :
  splitRun splitInit ("(" ++ "a, b" ++ ")")
  = mkSplit [] "(a, b)" (Some ")"%char) false false.
Proof.
  destruct splitByCommas_sections as (_ & _ & H & _).
  apply (H splitInit "("%char ")"%char "a, b").
  - reflexivity.
  - reflexivity.
  - reflexivity.
  - intros [E|[E|[E|[E|[]]]]]; discriminate E.
  - intros [E|[E|[E|[E|[]]]]]; discriminate E.
Defined.

(** *** Re-joining the tokens *)

Lemma join_cons sep x l :
  l <> [] -> join sep (x :: l) = x ++ sep ++ join sep l.
Proof. destruct l; [congruence | reflexivity]. Qed.

Lemma splitRun_out st s :
  out (splitRun st s) = out st ++ map strip (rawOut st s).
Proof.
  revert st. induction s as [|c s IH]; intros st; simpl.
  - now rewrite app_nil_r.
  - rewrite IH, splitStep_out.
    destruct (at_boundary st c); simpl.
    + now rewrite <- app_assoc.
    + reflexivity.
Qed.

Lemma splitRun_text st s :
  dropped st s = 0 ->
  join "," (rawOut st s ++ [current (splitRun st s)]) = current st ++ s.
Proof.
  revert st. induction s as [|c s IH]; intros st Hd.
  - simpl. now rewrite app_nil_r.
  - cbn [dropped] in Hd. cbn [rawOut splitRun fold_left].
    assert (Hd' : dropped (splitStep st c) s = 0) by lia.
    specialize (IH _ Hd'). fold (splitRun (splitStep st c) s).
    revert Hd IH. unfold at_boundary, splitStep.
    destruct (nextIsLiteral st); cbn [negb andb].
    { intros _ IH. cbn [app]. rewrite IH. cbn [current].
      now rewrite <- app_assoc. }
    destruct (insideQuotes st); cbn [negb andb].
    { destruct (Ascii.eqb c backslash); [intros H; lia|].
      intros _ IH. cbn [app]. rewrite IH. cbn [current].
      now rewrite <- app_assoc. }
    destruct (Ascii.eqb_spec c ",") as [->|_].
    { intros _ IH. cbn [app]. rewrite join_cons.
      - rewrite IH. reflexivity.
      - destruct (rawOut _ s); discriminate. }
    intros _ IH. cbn [app].
    destruct (find_char c openQuotes); rewrite IH; cbn [current];
      now rewrite <- app_assoc.
Qed.

Lemma dropped_no_backslash st s : ~ In backslash s -> dropped st s = 0.
Proof.
  revert st. induction s as [|c s IH]; intros st H; [reflexivity|].
  cbn [dropped]. rewrite IH by (intros X; apply H; now right).
  destruct (Ascii.eqb_spec c backslash) as [->|_].
  - exfalso. apply H. now left.
  - now rewrite andb_false_r.
Qed.

Lemma join_comma_single raw s :
  join "," raw = s -> ~ In ","%char s -> raw = [s] \/ (raw = [] /\ s = []).
Proof.
  intros <- H. destruct raw as [|x [|y l]].
  - right. split; reflexivity.
  - left. reflexivity.
  - exfalso. apply H. cbn [join]. apply in_or_app. right. now left.
Qed.

(** C8, the claim as stated fails: every bracket of [(\a)] is matched, yet the
    backslash is lost, so the re-joined text is no trimmed copy of the
    input. *)
Lemma splitByCommas_rejoin_drops_backslash :
  insideQuotes (splitRun splitInit ("(" ++ backslash :: "a)")) = false /\
  splitByCommas ("(" ++ backslash :: "a)") = ["(a)"] /\
  ~ trimmed_copy ("(" ++ backslash :: "a)")
      (join ", " (splitByCommas ("(" ++ backslash :: "a)"))).
Proof.
  split; [reflexivity|]. split; [reflexivity|].
  intros (raw & Hj & Ht).
  apply join_comma_single in Hj.
  - destruct Hj as [->|[-> E]]; [|discriminate E].
    vm_compute in Ht. discriminate Ht.
  - intros [E|[E|[E|[E|[]]]]]; discriminate E.
Qed.

Lemma boundaries_positions st s :
  boundaries st s
  = map (fun i => match nth_error s i with
                  | Some c => at_boundary (splitRun st (firstn i s)) c
                  | None => false
                  end) (seq 0 (length s)).
Proof.
  revert st. induction s as [|c s IH]; intros st; [reflexivity|].
  cbn [boundaries length seq map nth_error firstn splitRun fold_left].
  f_equal. rewrite <- seq_shift, map_map, IH. reflexivity.
Qed.

Lemma top_level_boundaries s :
  top_level_pieces s = cut_at (boundaries splitInit s) s.
Proof. unfold top_level_pieces. now rewrite boundaries_positions. Qed.

Lemma cut_at_nonempty marks s : cut_at marks s <> [].
Proof.
  destruct s as [|c t], marks as [|m ms]; cbn [cut_at]; try discriminate.
  destruct m; [discriminate|]. destruct (cut_at ms t); discriminate.
Qed.

(** The text gathered in [current] at each boundary and at the end is the
    text read since the boundary before, as long as no backslash is dropped. *)
Lemma rawOut_pieces st s :
  dropped st s = 0 ->
  rawOut st s ++ [current (splitRun st s)]
  = before_first (current st) (cut_at (boundaries st s) s).
Proof.
  revert st. induction s as [|c s IH]; intros st Hd.
  - cbn. now rewrite app_nil_r.
  - cbn [dropped] in Hd. cbn [rawOut splitRun fold_left boundaries cut_at].
    assert (Hd' : dropped (splitStep st c) s = 0) by lia.
    specialize (IH _ Hd'). fold (splitRun (splitStep st c) s).
    assert (Hc : at_boundary st c = true /\ current (splitStep st c) = []
                 \/ at_boundary st c = false
                    /\ current (splitStep st c) = current st ++ [c]).
    { revert Hd. unfold at_boundary, splitStep.
      destruct (nextIsLiteral st); cbn [negb andb]; [now right|].
      destruct (insideQuotes st); cbn [negb andb].
      { destruct (Ascii.eqb c backslash); [intros H; lia|]. now right. }
      destruct (Ascii.eqb c ","); [now left|].
      destruct (find_char c openQuotes); now right. }
    pose proof (cut_at_nonempty (boundaries (splitStep st c) s) s) as Hn.
    destruct (cut_at (boundaries (splitStep st c) s) s) as [|p ps];
      [now elim Hn|].
    destruct Hc as [[Hb Hcur]|[Hb Hcur]]; rewrite Hb; rewrite Hcur in IH;
      cbn [app before_first] in *; rewrite IH.
    + now rewrite app_nil_r.
    + now rewrite <- app_assoc.
Qed.

(** C8 (amended): for every string [s] on which the scan drops no backslash
    (none stands inside a bracket or quote section; in particular, for every
    [s] without a backslash), the commas at which the scan is outside every
    section cut [s] into pieces, and [splitByCommas s] is these pieces, each
    stripped: joined with [", "] it gives [s] with the pieces between its top
    level commas trimmed. *)
Theorem splitByCommas_rejoin s :
  dropped splitInit s = 0 ->
  let pieces := top_level_pieces s in
  join "," pieces = s
  /\ (s <> [] -> splitByCommas s = map strip pieces)
  /\ join ", " (splitByCommas s) = join ", " (map strip pieces)
  /\ trimmed_copy s (join ", " (splitByCommas s)).
Proof.
  intros Hd pieces.
  assert (Hp : rawOut splitInit s ++ [current (splitRun splitInit s)]
               = pieces).
  { subst pieces. rewrite top_level_boundaries, rawOut_pieces by assumption.
    cbn [current splitInit before_first].
    destruct (cut_at (boundaries splitInit s) s) as [|p ps] eqn:E;
      [now elim (cut_at_nonempty _ _ E) | reflexivity]. }
  assert (Hj : join "," pieces = s).
  { rewrite <- Hp. now rewrite splitRun_text. }
  assert (Hs : s <> [] -> splitByCommas s = map strip pieces).
  { intros Hne. destruct s as [|c s]; [now elim Hne|].
    unfold splitByCommas. cbv zeta.
    rewrite <- Hp, splitRun_out, map_app. reflexivity. }
  assert (Ht : join ", " (splitByCommas s) = join ", " (map strip pieces)).
  { destruct s as [|c s]; [reflexivity|]. now rewrite Hs. }
  repeat split; try assumption.
  exists pieces. now split.
Qed.

Lemma splitByCommas_rejoin_witness :
  let pieces := top_level_pieces "a ,b(c, d)" in
  pieces = ["a "; "b(c, d)"]
  /\ join "," pieces = "a ,b(c, d)"
  /\ splitByCommas "a ,b(c, d)" = map strip pieces.
Proof.
  destruct (splitByCommas_rejoin "a ,b(c, d)" eq_refl) as (H1 & H2 & _).
  split; [reflexivity|]. split; [exact H1|]. apply H2. discriminate.
Defined.

(** ** The regular expression matcher on small inputs *)

Example re_greedy :
  option_map Re.m_text
    (Re.search (Re.seq [Re.lit "("; Re.star Re.dot; Re.lit ")"]) "f(a)(b) c")
  = Some "(a)(b)".
Proof. reflexivity. Qed.

Example re_lazy :
  option_map Re.m_text
    (Re.search (Re.seq [Re.lit "("; Re.lazy Re.dot; Re.lit ")"]) "f(a)(b) c")
  = Some "(a)".
Proof. reflexivity. Qed.

Example re_sub :
  Re.sub (Re.seq [Re.lit "<"; Re.lazy Re.dot; Re.lit ">"]) (fun _ => "-")
         "a<b>c<>d<e" = "a-c-d<e".
Proof. reflexivity. Qed.

(** ** guessTypeFromValue *)

Example is_numeric_samples :
  map is_numeric ["1"; " 1.5e3 "; "-.5"; "1."; "Infinity"; "nAn"; "1_000"]
  = [true; true; true; true; true; true; true]
  /\ map is_numeric [[]; "."; "1e"; "0x10"; "1__0"; "_1"; "1 2"; "true"; "e5"]
  = [false; false; false; false; false; false; false; false; false].
Proof. split; vm_compute; reflexivity. Qed.

(** The separators 28 to 31 are white space for [strip], and no white space
    for [float()]: a value that ends in one is no number, and neither is it
    any other literal.  The spaces 133 and 160 are skipped. *)
Example is_numeric_separators :
  map is_numeric ["1" ++ ["031"%char]; ["028"%char] ++ "1";
                  ["160"%char] ++ "1" ++ ["133"%char]; "1" ++ [tab]]
  = [false; false; true; true]
  /\ strip ("1" ++ ["031"%char]) = "1"
  /\ guessTypeFromValue Javascript test_settings ("1" ++ ["031"%char])
     = Ok PNone.
Proof. repeat split; vm_compute; reflexivity. Qed.

(** ** Parsing on small inputs *)

Example parseFunction_samples :
  map (parseFunction Javascript)
    ["function foo (bar, baz) {"; "foo = function* bar(a) {";
     "var f = (x, y) => x"; "getName() { return 1; }"; "var foo = 1;";
     "myfunction(a)"]
  = [Some ("foo", "bar, baz"); Some ("*foo", "a"); Some ([], "x, y");
     Some ("getName", []); None; Some ([], "a")].
Proof. vm_compute. reflexivity. Qed.

Example parseVar_samples :
  map parseVar ["var foo = 1;"; "foo : bar, baz"; "nothing here"]
  = [Some ("foo", "1"); Some ("foo", "bar"); None].
Proof. vm_compute. reflexivity. Qed.

(** ** Facts about strings and the matcher *)

Lemma startswith_spec p s :
  startswith p s = true <-> exists r, s = p ++ r.
Proof.
  revert s. induction p as [|a p IH]; intros s; cbn [startswith].
  - split; [intros _; now exists s | reflexivity].
  - destruct s as [|b s].
    + split; [discriminate | intros [r H]; discriminate H].
    + rewrite andb_true_iff, IH. split.
      * intros [E [r ->]]. apply Ascii.eqb_eq in E. subst. now exists r.
      * intros [r H]. injection H as -> ->. split.
        -- apply Ascii.eqb_refl.
        -- now exists r.
Qed.

Lemma startswith_app p r : startswith p (p ++ r) = true.
Proof. apply startswith_spec. now exists r. Qed.

Lemma skipn_app_exact (p r : str) : skipn (length p) (p ++ r) = r.
Proof. induction p; [reflexivity | assumption]. Qed.

Lemma find_contains sub s :
  is_some (find sub s) = true <-> contains sub s.
Proof.
  induction s as [|c s IH].
  - cbn [find]. destruct (startswith sub []) eqn:E.
    + split; [intros _ | reflexivity].
      apply startswith_spec in E. destruct E as [r E].
      exists [], r. exact E.
    + split; [discriminate|]. intros (a & b & H).
      destruct a; [|discriminate H]. cbn [app] in H.
      rewrite H, startswith_app in E. discriminate E.
  - cbn [find]. destruct (startswith sub (c :: s)) eqn:E.
    + split; [intros _ | reflexivity].
      apply startswith_spec in E. destruct E as [r E].
      exists [], r. exact E.
    + destruct (find sub s) as [n|]; cbn [option_map is_some] in *.
      * split; [intros _ | reflexivity].
        destruct (proj1 IH eq_refl) as (a & b & ->). now exists (c :: a), b.
      * split; [discriminate|]. intros (a & b & H).
        destruct a as [|x a]; cbn [app] in H.
        -- rewrite H, startswith_app in E. discriminate E.
        -- injection H as -> ->.
           assert (X : false = true) by (apply IH; now exists a, b).
           discriminate X.
Qed.

Lemma rmatch_lit p m k :
  Re.rmatch (Re.lit p) m k
  = if startswith p (Re.rest m)
    then k (Re.mkM (rev p ++ Re.before m) (skipn (length p) (Re.rest m))
                   (Re.caps m))
    else None.
Proof.
  revert m. induction p as [|c p IH]; intros [b r cp].
  - reflexivity.
  - destruct p as [|c' p'].
    + cbn [Re.lit Re.rmatch Re.rest Re.before Re.caps].
      destruct r as [|x r]; [reflexivity|]. cbn [startswith].
      rewrite andb_true_r.
      destruct (Ascii.eqb_spec c x) as [->|_]; reflexivity.
    + change (Re.lit (c :: c' :: p'))
        with (Re.Seq (Re.Chr (Ascii.eqb c)) (Re.lit (c' :: p'))).
      cbn [Re.rmatch Re.rest Re.before Re.caps].
      destruct r as [|x r]; [reflexivity|].
      change (startswith (c :: c' :: p') (x :: r))
        with (Ascii.eqb c x && startswith (c' :: p') r).
      destruct (Ascii.eqb_spec c x) as [->|_]; [|reflexivity].
      rewrite IH. cbn [Re.rest Re.before Re.caps andb].
      destruct (startswith (c' :: p') r); [|reflexivity].
      f_equal. f_equal.
      change (rev (x :: c' :: p')) with (rev (c' :: p') ++ [x]).
      now rewrite <- app_assoc.
Qed.

Lemma star_chr p k n bef rst cp :
  length rst < n ->
  Re.star_loop (Re.rmatch (Re.Chr p)) true k n (Re.mkM bef rst cp)
  = greedy_chr p k bef rst cp.
Proof.
  revert n bef. induction rst as [|c t IH]; intros n bef Hn;
    (destruct n as [|n]; [lia|]);
    cbn [Re.star_loop Re.rmatch Re.rest Re.before Re.caps greedy_chr].
  - reflexivity.
  - destruct (p c); [|reflexivity].
    unfold Re.pos. cbn [Re.before length].
    replace (length bef <? S (length bef)) with true
      by (symmetry; apply Nat.ltb_lt; lia).
    rewrite IH by (cbn [length] in Hn; lia). reflexivity.
Qed.

Lemma rmatch_star_chr p m k :
  Re.rmatch (Re.star (Re.Chr p)) m k
  = greedy_chr p k (Re.before m) (Re.rest m) (Re.caps m).
Proof.
  destruct m as [b r cp]. unfold Re.star. cbn [Re.rmatch Re.rest].
  apply star_chr. lia.
Qed.

(** When the continuation always succeeds the longest run is taken. *)
Lemma greedy_chr_total p k bef rst cp :
  (forall m, k m <> None) ->
  greedy_chr p k bef rst cp
  = k (Re.mkM (rev (takeWhile p rst) ++ bef) (dropWhile p rst) cp).
Proof.
  intros Hk. revert bef. induction rst as [|c t IH]; intros bef.
  - reflexivity.
  - cbn [greedy_chr takeWhile dropWhile]. destruct (p c); [|reflexivity].
    rewrite IH. cbn [rev]. rewrite <- app_assoc. cbn [app].
    destruct (k _) eqn:E; [reflexivity|]. now apply Hk in E.
Qed.

Lemma takeWhile_stop p (a r : str) :
  forallb p a = true -> stops p r = true -> takeWhile p (a ++ r) = a.
Proof.
  intros Ha Hr. induction a as [|c a IH]; cbn [app takeWhile].
  - destruct r as [|x r]; [reflexivity|]. cbn [stops] in Hr.
    cbn [takeWhile]. destruct (p x); [discriminate Hr | reflexivity].
  - cbn [forallb] in Ha. apply andb_true_iff in Ha. destruct Ha as [Hc Ha].
    rewrite Hc, IH by assumption. reflexivity.
Qed.

Lemma dropWhile_stop p (a r : str) :
  forallb p a = true -> stops p r = true -> dropWhile p (a ++ r) = r.
Proof.
  intros Ha Hr. induction a as [|c a IH]; cbn [app dropWhile].
  - destruct r as [|x r]; [reflexivity|]. cbn [stops] in Hr.
    cbn [dropWhile]. destruct (p x); [discriminate Hr | reflexivity].
  - cbn [forallb] in Ha. apply andb_true_iff in Ha. destruct Ha as [Hc Ha].
    rewrite Hc, IH by assumption. reflexivity.
Qed.

Lemma is_some_match_here r m :
  is_some (Re.match_here r m)
  = is_some (Re.rmatch r (Re.mkM (Re.before m) (Re.rest m) []) Some).
Proof. unfold Re.match_here. destruct (Re.rmatch _ _ _); reflexivity. Qed.

Lemma stops_word r : stops Re.is_word r = negb (Re.word_at r).
Proof. destruct r; reflexivity. Qed.

Lemma regexp_like_spec val :
  is_some (Re.rematch regexp_literal_re val) = true <-> regexp_like val.
Proof.
  unfold Re.rematch. rewrite is_some_match_here.
  unfold regexp_literal_re, Re.start. cbn [Re.before Re.rest].
  cbn [Re.rmatch]. rewrite !rmatch_lit. cbn [Re.rest Re.before Re.caps].
  unfold regexp_like. split.
  - destruct (startswith "RegExp" val) eqn:E.
    + apply startswith_spec in E. destruct E as [r ->].
      rewrite skipn_app_exact.
      change (Re.word_at (rev "RegExp" ++ [])) with true.
      destruct (Re.word_at r) eqn:W; cbn [xorb Re.orelse is_some].
      * change (startswith "/" ("RegExp" ++ r)) with false. discriminate.
      * intros _. left. exists r. split; [reflexivity|].
        now rewrite stops_word, W.
    + cbn [Re.orelse].
      destruct (startswith "/" val) eqn:E1; [|discriminate].
      apply startswith_spec in E1. destruct E1 as [r ->].
      change (skipn (length "/") ("/" ++ r)) with r.
      unfold Re.noneof. cbn [Re.rmatch Re.rest].
      destruct r as [|c r]; [discriminate|].
      cbn [existsb]. rewrite orb_false_r.
      destruct (Ascii.eqb_spec c "/"); [discriminate|].
      intros _. right. exists c, r. split; [reflexivity|assumption].
  - intros [(r & -> & Hr)|(c & r & -> & Hc)].
    + rewrite startswith_app, skipn_app_exact.
      change (Re.word_at (rev "RegExp" ++ [])) with true.
      rewrite stops_word in Hr. apply negb_true_iff in Hr. rewrite Hr.
      reflexivity.
    + change (startswith "RegExp" ("/"%char :: c :: r)) with false.
      change (startswith "/" ("/"%char :: c :: r)) with true.
      cbn [Re.orelse skipn length]. unfold Re.noneof.
      cbn [Re.rmatch Re.rest existsb]. rewrite orb_false_r.
      destruct (Ascii.eqb_spec c "/"); [contradiction|reflexivity].
Qed.

Lemma is_some_search_here r s :
  is_some (Re.rematch r s) = true -> Re.search r s = Re.rematch r s.
Proof.
  unfold Re.search, Re.rematch. destruct s; cbn [length Re.search_from];
  destruct (Re.match_here r _); (reflexivity || discriminate).
Qed.

Lemma firstn_app_exact (a r : str) : firstn (length a) (a ++ r) = a.
Proof. induction a; cbn; [reflexivity | now f_equal]. Qed.

Lemma new_name_identifier id r :
  is_identifier id -> stops id_char r = true ->
  new_name ("new " ++ id ++ r) = PStr id.
Proof.
  intros (c & cs & -> & Hc & Hcs) Hr.
  unfold new_name.
  assert (H : exists f, Re.rematch new_re ("new " ++ (c :: cs) ++ r) = Some f
                        /\ Re.group f "1" = Some (c :: cs)).
  { unfold Re.rematch, Re.match_here, new_re, Re.start.
    cbn [Re.before Re.rest Re.rmatch]. rewrite rmatch_lit.
    cbn [Re.rest Re.before Re.caps]. rewrite startswith_app, skipn_app_exact.
    unfold identifier. cbn [Re.rmatch Re.rest app]. rewrite Hc.
    rewrite rmatch_star_chr. cbn [Re.before Re.rest Re.caps].
    rewrite greedy_chr_total by discriminate.
    rewrite takeWhile_stop, dropWhile_stop by assumption.
    eexists. split; [reflexivity|].
    unfold Re.group, Re.pos.
    cbn [Re.m_after Re.caps Re.before Re.rest Re.lookup].
    change (str_eqb "1" "1") with true. cbn iota.
    rewrite app_nil_r, length_app, length_rev. cbn [length].
    replace (length cs + S (length (rev "new ")) - length (rev "new "))
      with (length (c :: cs)) by (cbn [length]; lia).
    f_equal. exact (firstn_app_exact (c :: cs) r). }
  destruct H as (f & Hf & Hg).
  rewrite is_some_search_here by (now rewrite Hf).
  now rewrite Hf, Hg.
Qed.

Lemma hd_error_cons (c x : ascii) (r : str) :
  hd_error (c :: r) = Some x <-> c = x.
Proof. cbn. split; [intros H; now injection H | now intros ->]. Qed.

Lemma str_eqb_spec a b : reflect (a = b) (str_eqb a b).
Proof.
  unfold str_eqb. destruct (list_eq_dec ascii_dec a b); now constructor.
Qed.

Lemma guessTypeFromValue_decisions (st : pluginSettings) (val : str) :
  val <> [] ->
  let lower := lower_case_primitives st in
  let short := short_primitives st in
  let guess := guessTypeFromValue Javascript st val in
  let first c := hd_error val = Some c in
  (is_numeric val = true ->
   guess = Ok (PStr (if lower then "number" else "Number")))
  /\ (is_numeric val = false ->
      (first dquote \/ first squote ->
       guess = Ok (PStr (if lower then "string" else "String")))
      /\ (first "["%char -> guess = Ok (PStr "Array"))
      /\ (first "{"%char -> guess = Ok (PStr "Object"))
      /\ (val = "true" \/ val = "false" ->
          guess = Ok (PStr (if short
                            then if lower then "bool" else "Bool"
                            else if lower then "boolean" else "Boolean")))
      /\ (~ (first dquote \/ first squote \/ first "["%char
             \/ first "{"%char) ->
          val <> "true" -> val <> "false" ->
          (regexp_like val -> guess = Ok (PStr "RegExp"))
          /\ (~ regexp_like val ->
              (contains "=>" val ->
               guess = Ok (PStr (if lower then "function" else "Function")))
              /\ (~ contains "=>" val ->
                  (forall id rest,
                      val = "new " ++ id ++ rest -> is_identifier id ->
                      stops id_char rest = true -> guess = Ok (PStr id))
                  /\ (startswith "new " val = false -> guess = Ok PNone))))).
Proof.
  intros Hne lower short guess first.
  destruct val as [|c rest]; [congruence|].
  subst guess first. unfold guessTypeFromValue.
  fold lower. fold short. cbn [first_char bind hd_error].
  split; [intros ->; reflexivity|].
  intros ->.
  split.
  { intros [H|H]; injection H as ->; reflexivity. }
  split.
  { intros H; injection H as ->; reflexivity. }
  split.
  { intros H; injection H as ->; reflexivity. }
  split.
  { intros [H|H]; injection H as -> ->; reflexivity. }
  intros Hfirst Ht Hf.
  destruct (Ascii.eqb_spec c dquote) as [->|_].
  { exfalso. apply Hfirst. now left. }
  destruct (Ascii.eqb_spec c squote) as [->|_].
  { exfalso. apply Hfirst. right. now left. }
  destruct (Ascii.eqb_spec c "[") as [->|_].
  { exfalso. apply Hfirst. right. right. now left. }
  destruct (Ascii.eqb_spec c "{") as [->|_].
  { exfalso. apply Hfirst. right. right. now right. }
  cbn [orb].
  destruct (str_eqb_spec (c :: rest) "true") as [E|_]; [contradiction|].
  destruct (str_eqb_spec (c :: rest) "false") as [E|_]; [contradiction|].
  cbn [orb].
  split.
  { intros H. apply regexp_like_spec in H. now rewrite H. }
  intros Hre.
  destruct (is_some (Re.rematch regexp_literal_re (c :: rest))) eqn:E.
  { exfalso. apply Hre. now apply regexp_like_spec. }
  split.
  { intros H. apply find_contains in H. rewrite H. reflexivity. }
  intros Harrow.
  destruct (is_some (find "=>" (c :: rest))) eqn:E1.
  { exfalso. apply Harrow. now apply find_contains. }
  split.
  - intros id r Hval Hid Hr. rewrite Hval.
    change (firstn 4 ("new " ++ id ++ r)) with "new ".
    change (str_eqb "new " "new ") with true. cbn iota.
    now rewrite new_name_identifier.
  - intros Hnew.
    destruct (str_eqb_spec (firstn 4 (c :: rest)) "new ") as [E2|_];
      [|reflexivity].
    exfalso. rewrite <- (firstn_skipn 4 (c :: rest)), E2 in Hnew.
    rewrite startswith_app in Hnew. discriminate Hnew.
Qed.

(** C4, the claim as stated fails on the empty value: no heuristic applies to
    it, and the guess raises instead of giving none. *)
Lemma guessTypeFromValue_empty :
  is_numeric [] = false /\
  guessTypeFromValue Javascript test_settings [] = Raise IndexError.
Proof. split; reflexivity. Qed.

(** C4 (amended): on every value that is not empty, [guessTypeFromValue]
    applies its heuristics in the stated order: numeric gives Number, a
    leading quote String, a leading [[] Array, a leading [{] Object, [true]
    and [false] Boolean, the word [RegExp] or a slash not followed by a slash
    RegExp, an arrow [=>] Function, [new Identifier] the identifier,
    anything else none.  [lower_case_primitives] lowers Number, String,
    Boolean and Function and never Array or Object; [short_primitives] writes
    Boolean as Bool (bool when lowered).  The six examples hold when no
    option is set. *)
Theorem guessTypeFromValue_order (st : pluginSettings) :
  (lower_case_primitives st = false -> short_primitives st = false ->
   map (guessTypeFromValue Javascript st)
     ["1"; [dquote; "a"%char; dquote]; "true"; "[1,2]"; "{a:1}"; "new Foo()"]
   = map (fun t => Ok (PStr t))
       ["Number"; "String"; "Boolean"; "Array"; "Object"; "Foo"])
  /\ forall val, val <> [] ->
  let lower := lower_case_primitives st in
  let short := short_primitives st in
  let guess := guessTypeFromValue Javascript st val in
  let first c := hd_error val = Some c in
  (is_numeric val = true ->
   guess = Ok (PStr (if lower then "number" else "Number")))
  /\ (is_numeric val = false ->
      (first dquote \/ first squote ->
       guess = Ok (PStr (if lower then "string" else "String")))
      /\ (first "["%char -> guess = Ok (PStr "Array"))
      /\ (first "{"%char -> guess = Ok (PStr "Object"))
      /\ (val = "true" \/ val = "false" ->
          guess = Ok (PStr (if short
                            then if lower then "bool" else "Bool"
                            else if lower then "boolean" else "Boolean")))
      /\ (~ (first dquote \/ first squote \/ first "["%char
             \/ first "{"%char) ->
          val <> "true" -> val <> "false" ->
          (regexp_like val -> guess = Ok (PStr "RegExp"))
          /\ (~ regexp_like val ->
              (contains "=>" val ->
               guess = Ok (PStr (if lower then "function" else "Function")))
              /\ (~ contains "=>" val ->
                  (forall id rest,
                      val = "new " ++ id ++ rest -> is_identifier id ->
                      stops id_char rest = true -> guess = Ok (PStr id))
                  /\ (startswith "new " val = false -> guess = Ok PNone))))).
Proof.
  split.
  - intros Hl Hs. unfold guessTypeFromValue. rewrite Hl, Hs.
    vm_compute. reflexivity.
  - apply guessTypeFromValue_decisions.
Qed.

Lemma guessTypeFromValue_order_witness :
  guessTypeFromValue Javascript test_settings "new Foo()" = Ok (PStr "Foo").
Proof.
  destruct (guessTypeFromValue_order test_settings) as [_ H].
  destruct (H "new Foo()") as [_ H1]; [discriminate|].
  destruct (H1 eq_refl) as (_ & _ & _ & _ & H2).
  destruct H2 as [_ H3].
  - intros [E|[E|[E|E]]]; discriminate E.
  - discriminate.
  - discriminate.
  - destruct H3 as [_ H4].
    + intros [(r & E & _)|(c & r & E & _)]; discriminate E.
    + destruct H4 as [H5 _].
      * intros E. apply find_contains in E. discriminate E.
      * apply (H5 "Foo" "()").
        -- reflexivity.
        -- exists "F"%char, "oo". repeat split.
        -- reflexivity.
Defined.

(** ** Notation rules and guessTypeFromName *)

Lemma is_some_orelse {A} (a b : option A) :
  is_some (Re.orelse a b) = is_some a || is_some b.
Proof. destruct a, b; reflexivity. Qed.

Lemma is_some_rematch r s :
  is_some (Re.rematch r s) = is_some (Re.rmatch r (Re.mkM [] s []) Some).
Proof. unfold Re.rematch. now rewrite is_some_match_here. Qed.

Lemma greedy_lower bef rst cp :
  is_some (greedy_chr not_newline
             (fun m' => Re.rmatch (Re.Chr is_lower) m' Some) bef rst cp)
  = existsb is_lower (takeWhile not_newline rst).
Proof.
  revert bef. induction rst as [|c t IH]; intros bef; [reflexivity|].
  cbn [greedy_chr takeWhile]. unfold not_newline at 1 3.
  destruct (Ascii.eqb_spec c newline) as [->|_]; cbn [negb].
  - reflexivity.
  - rewrite is_some_orelse, IH. cbn [existsb Re.rmatch Re.rest].
    rewrite orb_comm. destruct (is_lower c); reflexivity.
Qed.

Lemma any_lower_spec prefix :
  is_some (Re.rematch any_lower_re prefix) = has_lower prefix.
Proof.
  rewrite is_some_rematch. unfold any_lower_re.
  cbn [Re.rmatch]. unfold Re.dot. rewrite rmatch_star_chr.
  apply greedy_lower.
Qed.

Lemma boundary_spec bef rst cp :
  is_some (Re.rmatch name_boundary_re (Re.mkM bef rst cp) Some)
  = name_boundary rst.
Proof.
  unfold name_boundary_re. cbn [Re.rmatch Re.rest].
  rewrite is_some_orelse. destruct rst as [|c [|c' t]]; cbn [name_boundary at_end].
  - reflexivity.
  - destruct (upper_or_underscore c), (Ascii.eqb c newline); reflexivity.
  - destruct (upper_or_underscore c); reflexivity.
Qed.

Lemma checkMatch_prefix name prefix ty tags :
  checkMatch name (mkNotation (Prefix prefix) ty tags)
  = startswith prefix name
    && (if has_lower prefix
        then name_boundary (skipn (length prefix) name) else true).
Proof.
  unfold checkMatch. cbn [n_key]. rewrite any_lower_spec.
  destruct (has_lower prefix); rewrite is_some_rematch.
  - cbn [Re.rmatch]. rewrite rmatch_lit. cbn [Re.rest Re.before Re.caps].
    destruct (startswith prefix name); [|reflexivity].
    apply boundary_spec.
  - rewrite rmatch_lit. cbn [Re.rest].
    destruct (startswith prefix name); reflexivity.
Qed.

Lemma is_has_spec name :
  is_some (Re.rematch is_has_re name)
  = starts_camel "is" name || starts_camel "has" name.
Proof.
  rewrite is_some_rematch. unfold is_has_re. cbn [Re.rmatch].
  rewrite is_some_orelse, !rmatch_lit. cbn [Re.rest Re.before Re.caps].
  unfold starts_camel.
  f_equal.
  - destruct (startswith "is" name); [|reflexivity].
    destruct (skipn (length "is") name) as [|c t]; [reflexivity|].
    cbn [andb]. destruct (upper_or_underscore c); reflexivity.
  - destruct (startswith "has" name); [|reflexivity].
    destruct (skipn (length "has") name) as [|c t]; [reflexivity|].
    cbn [andb]. destruct (upper_or_underscore c); reflexivity.
Qed.

Lemma eol_spec bef rst cp :
  is_some (Re.rmatch Re.Eol (Re.mkM bef rst cp) Some) = at_end rst.
Proof.
  cbn [Re.rmatch Re.rest]. destruct rst as [|c [|c' t]]; cbn [at_end].
  - reflexivity.
  - destruct (Ascii.eqb c newline); reflexivity.
  - reflexivity.
Qed.

Lemma word_or_line_spec kw name :
  startswith kw name && at_end (skipn (length kw) name)
  = is_word_or_line kw name.
Proof.
  unfold is_word_or_line.
  destruct (startswith kw name) eqn:E.
  - apply startswith_spec in E. destruct E as [r ->].
    rewrite skipn_app_exact. cbn [andb].
    destruct r as [|c [|c' t]]; cbn [at_end].
    + rewrite app_nil_r.
      destruct (str_eqb_spec kw kw); [reflexivity|congruence].
    + destruct (Ascii.eqb_spec c newline) as [->|N].
      * destruct (str_eqb_spec (kw ++ [newline]) (kw ++ [newline]));
          [now rewrite orb_true_r | congruence].
      * destruct (str_eqb_spec (kw ++ [c]) kw) as [X|_].
        { apply (f_equal (@length _)) in X. rewrite length_app in X.
          cbn in X. lia. }
        destruct (str_eqb_spec (kw ++ [c]) (kw ++ [newline])) as [X|_];
          [|reflexivity].
        apply app_inv_head in X. congruence.
    + destruct (str_eqb_spec (kw ++ c :: c' :: t) kw) as [X|_].
      { apply (f_equal (@length _)) in X. rewrite length_app in X.
        cbn in X. lia. }
      destruct (str_eqb_spec (kw ++ c :: c' :: t) (kw ++ [newline])) as [X|_];
        [|reflexivity].
      apply app_inv_head in X. discriminate X.
  - cbn [andb]. symmetry. apply orb_false_iff. split.
    + destruct (str_eqb_spec name kw) as [->|_]; [|reflexivity].
      pose proof (startswith_app kw []) as X. rewrite app_nil_r in X.
      congruence.
    + destruct (str_eqb_spec name (kw ++ [newline])) as [->|_];
        [|reflexivity].
      rewrite startswith_app in E. discriminate E.
Qed.

Lemma lit_then_eol kw bef name cp :
  is_some (Re.rmatch (Re.lit kw) (Re.mkM bef name cp)
             (fun m' => Re.rmatch Re.Eol m' Some))
  = is_word_or_line kw name.
Proof.
  rewrite rmatch_lit. cbn [Re.rest Re.before Re.caps].
  rewrite <- word_or_line_spec.
  destruct (startswith kw name); [|reflexivity].
  apply eol_spec.
Qed.

Lemma callback_spec name :
  is_some (Re.rematch callback_re name) = is_callback_name name.
Proof.
  rewrite is_some_rematch. unfold callback_re.
  cbn [Re.seq Re.rmatch Re.before].
  rewrite !is_some_orelse, !lit_then_eol.
  unfold is_callback_name, callback_names. cbn [existsb].
  now rewrite orb_false_r.
Qed.

Lemma filter_first {A} (f : A -> bool) pre x post :
  (forall y, In y pre -> f y = false) -> f x = true ->
  filter f (pre ++ x :: post) = x :: filter f post.
Proof.
  intros Hpre Hx. induction pre as [|y pre IH]; cbn [app filter].
  - now rewrite Hx.
  - rewrite (Hpre y) by now left. apply IH.
    intros z Hz. apply Hpre. now right.
Qed.

Lemma filter_none {A} (f : A -> bool) l :
  (forall y, In y l -> f y = false) -> filter f l = [].
Proof.
  intros H. induction l as [|y l IH]; [reflexivity|].
  cbn [filter]. rewrite (H y) by now left.
  apply IH. intros z Hz. apply H. now right.
Qed.

Lemma getMatchingNotations_plain d st name :
  is_generator name = false ->
  getMatchingNotations d st name
  = Ok (filter (checkMatch name) (notation_map st)).
Proof.
  intros H. unfold getMatchingNotations, getMatchingNotations_base.
  rewrite H. destruct d; reflexivity.
Qed.

(** C5, the claim as stated fails: the prefix [b_] does not end in a
    lowercase letter, so the specification lets it match any name it starts;
    the code asks for the boundary as soon as the prefix holds a lowercase
    letter, and [b_foo] matches no rule. *)
Lemma checkMatch_prefix_holding_lowercase :
  ends_in_lower "b_" = false /\
  prefix_rule_spec "b_" "b_foo" = true /\
  checkMatch "b_foo" (mkNotation (Prefix "b_") (Some "bool") None) = false /\
  guessTypeFromName Javascript
    (with_notations test_settings
       [mkNotation (Prefix "b_") (Some "bool") None]) "b_foo"
  = Ok (PBool false).
Proof. repeat split; vm_compute; reflexivity. Qed.

(** What [getMatchingNotations] returns: the matching rules and, for a
    generator in JavaScript, the yield notation after them, which names no
    type; with the empty [return_tag] the last character is asked of the
    empty string. *)
Lemma getMatchingNotations_cases d st name :
  (d = Javascript -> is_generator name = true -> return_tag st <> Some []) ->
  exists extra,
    getMatchingNotations d st name
    = Ok (filter (checkMatch name) (notation_map st) ++ extra)
    /\ Forall (fun n => n_type n = None) extra.
Proof.
  intros H. unfold getMatchingNotations, getMatchingNotations_base.
  destruct d.
  - destruct (is_generator name) eqn:Hg.
    + specialize (H eq_refl eq_refl).
      assert (E : exists c, last_char (match return_tag st with
                                       | Some t => t
                                       | None => "_"
                                       end) = Ok c).
      { destruct (return_tag st) as [t|]; [|now eexists].
        unfold last_char. destruct (rev t) as [|c r] eqn:Er; [|now eexists].
        exfalso. apply H. f_equal.
        rewrite <- (rev_involutive t), Er. reflexivity. }
      destruct E as [c ->]. cbn [bind]. eexists. split; [reflexivity|].
      repeat constructor.
    + exists []. rewrite app_nil_r. split; [reflexivity | constructor].
  - exists []. rewrite app_nil_r. split; [reflexivity | constructor].
Qed.

(** C5 (amended): a prefix rule matches exactly when the name starts with
    the literal prefix and, whenever the first line of the prefix holds a
    lowercase letter anywhere, the prefix is followed by the end of the name
    (or a final line break) or by an uppercase letter or underscore; a regex
    rule matches by free search; the first matching rule's type wins, looked
    up in the dialect settings ([bool] gives Boolean); when no rule matches,
    a name starting with [is] or [has] and an uppercase letter or underscore
    gives Boolean, a name that is exactly cb, callback, done, next or fn (up
    to a final line break) gives Function, and every other name gives none
    ([False]).  This holds of every name and both parsers but for one case:
    for a name that starts with a star the JavaScript parser reads the last
    character of [return_tag], and with the empty [return_tag] it raises
    [IndexError] whatever the rules are. *)
Theorem guessTypeFromName_rules (d : dialect) (st : pluginSettings)
  (name : str) :
  (forall prefix ty tags,
      checkMatch name (mkNotation (Prefix prefix) ty tags)
      = startswith prefix name
        && (if has_lower prefix
            then name_boundary (skipn (length prefix) name) else true))
  /\ (forall r ty tags,
         checkMatch name (mkNotation (Regex r) ty tags)
         = is_some (Re.search r name))
  /\ resolve_type d st "bool" = PStr "Boolean"
  /\ ((d = Javascript -> is_generator name = true ->
       return_tag st <> Some []) ->
      (forall pre rule post t,
          notation_map st = pre ++ rule :: post ->
          (forall r, In r pre -> checkMatch name r = false) ->
          checkMatch name rule = true -> n_type rule = Some t ->
          guessTypeFromName d st name = Ok (resolve_type d st t))
      /\ ((forall r, In r (notation_map st) -> checkMatch name r = false) ->
          guessTypeFromName d st name
          = Ok (if starts_camel "is" name || starts_camel "has" name
                then PStr "Boolean"
                else if is_callback_name name then PStr "Function"
                else PBool false)))
  /\ (d = Javascript -> is_generator name = true ->
      return_tag st = Some [] ->
      guessTypeFromName d st name = Raise IndexError).
Proof.
  split; [apply checkMatch_prefix|].
  split; [reflexivity|].
  split; [destruct d; reflexivity|].
  split.
  - intros Hg. unfold guessTypeFromName.
    destruct (getMatchingNotations_cases d st name Hg) as (extra & -> & Hx).
    cbn [bind]. split.
    + intros pre rule post t Hmap Hpre Hrule Ht.
      rewrite Hmap, filter_first by assumption. cbn [app]. now rewrite Ht.
    + intros Hnone. rewrite filter_none by assumption. cbn [app].
      assert (E : name_heuristics d st name
                  = if starts_camel "is" name || starts_camel "has" name
                    then PStr "Boolean"
                    else if is_callback_name name then PStr "Function"
                    else PBool false).
      { unfold name_heuristics. rewrite is_has_spec, callback_spec.
        destruct d; reflexivity. }
      rewrite <- E. destruct Hx as [|y extra Hy _]; [reflexivity|].
      now rewrite Hy.
  - intros -> Hg Hr. unfold guessTypeFromName, getMatchingNotations.
    rewrite Hg, Hr. reflexivity.
Qed.

Lemma guessTypeFromName_rules_witness :
  guessTypeFromName Javascript
    (with_notations test_settings
       [mkNotation (Prefix "b") (Some "bool") None]) "bFoo"
  = Ok (PStr "Boolean").
Proof.
  destruct (guessTypeFromName_rules Javascript
              (with_notations test_settings
                 [mkNotation (Prefix "b") (Some "bool") None]) "bFoo")
    as (_ & _ & _ & H & _).
  destruct (H (fun _ Hg => ltac:(discriminate Hg))) as [H1 _].
  apply (H1 [] (mkNotation (Prefix "b") (Some "bool") None) [] "bool").
  - reflexivity.
  - intros r [].
  - reflexivity.
  - reflexivity.
Defined.

(** ** The return type of a function *)

Lemma boundary_group_spec bef rst cp :
  is_some (Re.rmatch (Re.Grp "1" (Re.Alt Re.Eol (Re.Chr upper_or_underscore)))
             (Re.mkM bef rst cp) Some)
  = name_boundary rst.
Proof.
  cbn [Re.rmatch Re.rest].
  rewrite is_some_orelse. destruct rst as [|c [|c' t]]; cbn [name_boundary at_end].
  - reflexivity.
  - destruct (upper_or_underscore c), (Ascii.eqb c newline); reflexivity.
  - destruct (upper_or_underscore c); reflexivity.
Qed.

Lemma keyword_at_spec k1 k2 bef n cp :
  is_some (Re.rmatch
             (Re.Seq (Re.Alt (Re.lit k1) (Re.lit k2))
                (Re.Grp "1" (Re.Alt Re.Eol (Re.Chr upper_or_underscore))))
             (Re.mkM bef n cp) Some)
  = keyword_at k1 k2 n.
Proof.
  cbn [Re.rmatch]. rewrite is_some_orelse, !rmatch_lit.
  cbn [Re.rest Re.before Re.caps]. unfold keyword_at. f_equal.
  - destruct (startswith k1 n); [|reflexivity]. apply boundary_group_spec.
  - destruct (startswith k2 n); [|reflexivity]. apply boundary_group_spec.
Qed.

Lemma rmatch_chr p bef c t cp k :
  Re.rmatch (Re.Chr p) (Re.mkM bef (c :: t) cp) k
  = if p c then k (Re.mkM (c :: bef) t cp) else None.
Proof. reflexivity. Qed.

Lemma keyword_spec k1 k2 name :
  is_some (Re.rematch (keyword_re k1 k2) name) = keyword_name k1 k2 name.
Proof.
  rewrite is_some_rematch. unfold keyword_re, Re.opt, Re.oneof.
  cbn [Re.seq]. 
  change (Re.rmatch (Re.Seq (Re.Alt ?a Re.Eps) ?b) ?m ?k)
    with (Re.orelse (Re.rmatch a m (fun m' => Re.rmatch b m' k))
                    (Re.rmatch b m k)).
  rewrite is_some_orelse, keyword_at_spec.
  destruct name as [|c t]; [reflexivity|].
  rewrite rmatch_chr.
  cbn [keyword_name existsb]. rewrite orb_false_r.
  destruct (Ascii.eqb c "$" || Ascii.eqb c "_"); [|reflexivity].
  now rewrite keyword_at_spec.
Qed.

Lemma is_upper_spec name :
  is_some (Re.rematch (Re.Chr is_upper) name) = starts_upper name.
Proof.
  rewrite is_some_rematch. cbn [Re.rmatch Re.rest].
  destruct name as [|c t]; [reflexivity|]. cbn [starts_upper].
  destruct (is_upper c); reflexivity.
Qed.

Lemma keyword_at_is_has n :
  keyword_at "is" "has" n = true ->
  starts_upper n = false /\ keyword_at "set" "add" n = false
  /\ is_generator n = false
  /\ hd_error n <> Some "$"%char /\ hd_error n <> Some "_"%char.
Proof.
  unfold keyword_at. intros H. apply orb_true_iff in H.
  destruct H as [H|H]; apply andb_true_iff in H; destruct H as [H _];
    apply startswith_spec in H; destruct H as [r ->];
    repeat split; try reflexivity; discriminate.
Qed.

Lemma keyword_is_has_exclusive name :
  keyword_name "is" "has" name = true ->
  starts_upper name = false /\ keyword_name "set" "add" name = false
  /\ is_generator name = false.
Proof.
  destruct name as [|c t]; cbn [keyword_name].
  - intros H. discriminate H.
  - intros H. apply orb_true_iff in H. destruct H as [H|H].
    + apply andb_true_iff in H. destruct H as [Hc H].
      apply keyword_at_is_has in H. destruct H as (_ & H & _ & H1 & H2).
      rewrite H, andb_false_r. cbn [orb].
      apply orb_true_iff in Hc.
      destruct Hc as [Hc|Hc]; apply Ascii.eqb_eq in Hc; subst c;
        repeat split; reflexivity.
    + apply keyword_at_is_has in H. destruct H as (H0 & H & Hg & H1 & H2).
      rewrite H, orb_false_r. repeat split; try assumption.
      apply andb_false_iff. left. apply orb_false_iff.
      cbn [hd_error] in H1, H2.
      split; apply Ascii.eqb_neq; congruence.
Qed.

Lemma keyword_at_set_add n :
  keyword_at "set" "add" n = true -> is_generator n = false.
Proof.
  unfold keyword_at. intros H. apply orb_true_iff in H.
  destruct H as [H|H]; apply andb_true_iff in H; destruct H as [H _];
    apply startswith_spec in H; destruct H as [r ->]; reflexivity.
Qed.

Lemma keyword_set_add_plain name :
  keyword_name "set" "add" name = true -> is_generator name = false.
Proof.
  destruct name as [|c t]; cbn [keyword_name]; [reflexivity|].
  intros H. apply orb_true_iff in H. destruct H as [H|H].
  - apply andb_true_iff in H. destruct H as [Hc _].
    apply orb_true_iff in Hc.
    destruct Hc as [Hc|Hc]; apply Ascii.eqb_eq in Hc; subst c; reflexivity.
  - now apply keyword_at_set_add.
Qed.

Lemma starts_upper_plain name :
  starts_upper name = true -> is_generator name = false.
Proof.
  destruct name as [|c t]; [reflexivity|]. cbn [starts_upper is_generator].
  destruct (Ascii.eqb_spec c "*") as [->|_]; [discriminate | reflexivity].
Qed.

Lemma getFunctionReturnType_plain st name :
  is_generator name = false ->
  getFunctionReturnType Javascript st name
  = if starts_upper name || keyword_name "set" "add" name then Ok None
    else if keyword_name "is" "has" name then Ok (Some (PStr "Boolean"))
    else t <- guessTypeFromName Javascript st name ;;
         Ok (Some (if truthy t then t else PBool false)).
Proof.
  intros Hg. unfold getFunctionReturnType. rewrite Hg.
  unfold getFunctionReturnType_base.
  rewrite is_upper_spec, !keyword_spec.
  destruct (starts_upper name); [reflexivity|].
  destruct (keyword_name "set" "add" name); reflexivity.
Qed.

(** The return-type resolution of [formatFunction], away from the empty
    [return_tag]: an uppercase first letter and the names [set*]/[add*]
    give no return line, [is*]/[has*] give Boolean, a generator gives no
    return line and the yield notation [@yields] or [@yield] after the last
    letter of the return tag, every other name the guess from the name or
    [False], written as the unknown type. *)
Theorem getFunctionReturnType_cases (st : pluginSettings) (name : str) :
  (starts_upper name = true \/ keyword_name "set" "add" name = true ->
   getFunctionReturnType Javascript st name = Ok None)
  /\ (keyword_name "is" "has" name = true ->
      getFunctionReturnType Javascript st name = Ok (Some (PStr "Boolean")))
  /\ (is_generator name = true ->
      getFunctionReturnType Javascript st name = Ok None
      /\ (forall tag, return_tag st = Some tag -> tag <> [] ->
          getMatchingNotations Javascript st name
          = Ok (getMatchingNotations_base st name
                ++ [yield_notation st
                      (if ends_with_s tag then "@yields" else "@yield")]))
      /\ (return_tag st = None ->
          getMatchingNotations Javascript st name
          = Ok (getMatchingNotations_base st name
                ++ [yield_notation st "@yield"])))
  /\ (is_generator name = false -> starts_upper name = false ->
      keyword_name "set" "add" name = false ->
      keyword_name "is" "has" name = false ->
      getFunctionReturnType Javascript st name
      = (t <- guessTypeFromName Javascript st name ;;
         Ok (Some (if truthy t then t else PBool false)))
      /\ or_unknown (PBool false) = PStr "[type]").
Proof.
  split.
  { intros H.
    assert (Hg : is_generator name = false)
      by (destruct H; [now apply starts_upper_plain
                      | now apply keyword_set_add_plain]).
    rewrite getFunctionReturnType_plain by assumption.
    destruct H as [-> | ->]; [reflexivity | now rewrite orb_true_r]. }
  split.
  { intros H. destruct (keyword_is_has_exclusive _ H) as (Hu & Hs & Hg).
    rewrite getFunctionReturnType_plain by assumption.
    now rewrite Hu, Hs, H. }
  split.
  { intros Hg. unfold getFunctionReturnType, getMatchingNotations.
    rewrite Hg. split; [reflexivity|]. split.
    - intros tag -> Hne. unfold last_char, ends_with_s.
      destruct (rev tag) as [|c r] eqn:E.
      + exfalso. apply Hne. apply (f_equal (@rev _)) in E.
        now rewrite rev_involutive in E.
      + cbn [bind]. unfold yield_notation.
        destruct (Ascii.eqb c "s"); reflexivity.
    - intros ->. reflexivity. }
  intros Hg Hu Hs Hi. split; [|reflexivity].
  rewrite getFunctionReturnType_plain by assumption.
  now rewrite Hu, Hs, Hi.
Qed.

Example formatFunction_return_lines :
  map (parse Javascript test_settings false None)
    ["function Foo() {"; "function addItem() {"; "function isOk() {";
     "function* gen() {"; "function foo() {"]
  = [Some ["${1:[Foo description]}"];
     Some ["${1:[addItem description]}"];
     Some ["${1:[isOk description]}";
           "@return {${1:Boolean}} ${1:[description]}"];
     Some ["${1:[*gen description]}";
           "@yield {${1:[type]}} ${1:[description]}"];
     Some ["${1:[foo description]}";
           "@return {${1:[type]}} ${1:[description]}"]]
  /\ parse Javascript (with_return_tag test_settings (Some "@returns"))
       false None "function* gen() {"
     = Some ["${1:[*gen description]}";
             "@yields {${1:[type]}} ${1:[description]}"].
Proof. split; vm_compute; reflexivity. Qed.

(** C7, where the code departs from the claim: with the empty [return_tag]
    the configured return tag is [@return] and the yield tag should be
    [@yield], but reading the last character of the setting raises, and a
    generator gets the placeholder comment only. *)
Theorem yield_tag_empty_return_tag :
  str_or (return_tag (with_return_tag test_settings (Some []))) "@return"
  = "@return"
  /\ getMatchingNotations Javascript (with_return_tag test_settings (Some []))
       "*gen" = Raise IndexError
  /\ formatFunction Javascript (with_return_tag test_settings (Some []))
       None false "*gen" [] = Raise IndexError
  /\ parse Javascript (with_return_tag test_settings (Some [])) false None
       "function* gen() {" = None
  /\ parse Javascript (with_return_tag test_settings None) false None
       "function* gen() {"
     = Some ["${1:[*gen description]}";
             "@yield {${1:[type]}} ${1:[description]}"].
Proof. repeat split; vm_compute; reflexivity. Qed.

(** ** Errors while parsing *)

Ltac norm_app := repeat (progress (rewrite <- ?app_assoc; cbn [app])).

Lemma parse_catches d st inline ov line e :
  parse_try d st inline ov line = Raise e -> parse d st inline ov line = None.
Proof.
  intros H. unfold parse. rewrite H. now destruct (simple_mode st).
Qed.

Lemma generateSnippet_none d st clk trailing inline :
  generateSnippet d st clk trailing None inline
  = if inline then " $0 */"
    else newline :: " *" ++ indentSpaces st ++ "${0:" ++ trailing ++ "}"
         ++ newline :: commentCloser d
         ++ (if newline_after_block st then [newline] else []).
Proof.
  unfold generateSnippet, createSnippet. cbn [nonempty_list andb].
  destruct inline; [reflexivity|].
  unfold prefix. norm_app. reflexivity.
Qed.

(** C3, the claim as stated fails in the one-line form: [parse] gives up on
    the line (the empty default value raises), and with the trailing
    description [note] the snippet is the bare tab stop, which holds no
    description; the block form of the same input holds it. *)
Lemma inline_drops_trailing :
  parse Javascript test_settings true (nameOverride_of "note")
    "function f(a=) {" = None
  /\ run Javascript test_settings noon "note" true "function f(a=) {"
     = " $0 */"
  /\ find "note"
       (run Javascript test_settings noon "note" true "function f(a=) {")
     = None
  /\ run Javascript test_settings noon "note" false "function f(a=) {"
     = newline :: " * ${0:note}" ++ newline :: " */".
Proof. repeat split; vm_compute; reflexivity. Qed.

(** C3 (amended): [parse] never raises: an exception of the body of its
    [try] makes it return [None]; and whenever [parse] returns [None] the
    snippet is the placeholder comment: in the block form one line with the
    tab stop 0 holding the trailing text (empty when there is none), in the
    one-line form the bare tab stop [$0], whatever the trailing text. *)
Theorem parse_never_raises (d : dialect) (st : pluginSettings) (clk : clock)
  (trailing : str) (inline : bool) (line : str) :
  let override := nameOverride_of trailing in
  (forall e, parse_try d st inline override line = Raise e ->
             parse d st inline override line = None)
  /\ (parse d st inline override line = None ->
      run d st clk trailing inline line
      = if inline then " $0 */"
        else newline :: " *" ++ indentSpaces st ++ "${0:" ++ trailing ++ "}"
             ++ newline :: commentCloser d
             ++ (if newline_after_block st then [newline] else [])).
Proof.
  intros override. split.
  - intros e. apply parse_catches.
  - intros H. unfold run. fold override. rewrite H.
    apply generateSnippet_none.
Qed.

Lemma parse_never_raises_witness :
  run Javascript test_settings noon "note" false "function f(a=) {"
  = newline :: " * ${0:note}" ++ newline :: " */".
Proof.
  destruct (parse_never_raises Javascript test_settings noon "note" false
              "function f(a=) {") as [H1 H2].
  apply H2. apply (H1 IndexError). reflexivity.
Defined.

Lemma mapM_raise {A B} (f : A -> result B) l x e :
  In x l -> f x = Raise e ->
  (forall y e', f y = Raise e' -> e' = e) ->
  mapM f l = Raise e.
Proof.
  intros Hin Hx Hall. induction l as [|a l IH]; [destruct Hin|].
  cbn [mapM]. destruct (f a) as [b|e'] eqn:E.
  - cbn [bind]. destruct Hin as [->|Hin]; [congruence|].
    now rewrite IH.
  - cbn [bind]. f_equal. eapply Hall. eassumption.
Qed.

Lemma guessTypeFromValue_raises d st val e :
  guessTypeFromValue d st val = Raise e -> e = IndexError.
Proof.
  unfold guessTypeFromValue.
  destruct (is_numeric val); [discriminate|].
  destruct val as [|c rest]; cbn [first_char bind].
  - intros H. now injection H.
  - repeat match goal with
    | |- context [if ?b then _ else _] => destruct b
    | |- context [match ?x with Javascript => _ | Coffee => _ end] => destruct x
    end; discriminate.
Qed.

Lemma getArgType_raises d st a e :
  getArgType d st a = Raise e -> e = IndexError.
Proof.
  unfold getArgType. destruct d; [|discriminate].
  destruct (Re.split1 equals_re a) as [|p0 [|p1 ps]]; try discriminate;
    destruct (is_rest p0); try discriminate.
  apply guessTypeFromValue_raises.
Qed.

Lemma getArgInfo_raises d st a e :
  getArgInfo d st a = Raise e -> e = IndexError.
Proof.
  unfold getArgInfo. destruct (subItems d a) as [items pre].
  induction items as [|i items IH]; cbn [mapM]; [discriminate|].
  destruct (getArgType d st i) eqn:E; cbn [bind].
  - destruct (mapM _ items); cbn [bind]; [discriminate|].
    intros H. injection H as <-. now apply IH.
  - intros H. injection H as <-. eapply getArgType_raises. eassumption.
Qed.

Lemma splitByCommas_nonempty s x : In x (splitByCommas s) -> nonempty s = true.
Proof. destruct s; [intros [] | reflexivity]. Qed.

(** C10 (amended): for every line in which [parseFunction] finds a function
    whose argument text, split at its top-level commas (and inside a braced
    argument), holds an item with nothing after its first [=] and whose name
    part does not start with the rest marker [...], the type guess of the
    JavaScript dialect reads the first character of the empty value, the
    [IndexError] reaches the handler of [parse], [parse] returns [None] and
    the snippet is the empty placeholder comment. *)
Theorem empty_default_raises (st : pluginSettings) (clk : clock)
  (inline : bool) (trailing line name args arg item namePart : str) :
  parseFunction Javascript line = Some (name, args) ->
  In arg (splitByCommas (Re.sub inline_comment_re (fun _ => []) args)) ->
  In item (fst (subItems Javascript arg)) ->
  Re.split1 equals_re item = [namePart; []] ->
  is_rest namePart = false ->
  let override := nameOverride_of trailing in
  getArgType Javascript st item = Raise IndexError
  /\ parse_try Javascript st inline override line = Raise IndexError
  /\ parse Javascript st inline override line = None
  /\ run Javascript st clk trailing inline line
     = if inline then " $0 */"
       else newline :: " *" ++ indentSpaces st ++ "${0:" ++ trailing ++ "}"
            ++ newline :: commentCloser Javascript
            ++ (if newline_after_block st then [newline] else []).
Proof.
  intros Hline Harg Hitem Hsplit Hrest override.
  assert (Htype : getArgType Javascript st item = Raise IndexError).
  { unfold getArgType. rewrite Hsplit, Hrest. reflexivity. }
  assert (Hinfo : getArgInfo Javascript st arg = Raise IndexError).
  { unfold getArgInfo. destruct (subItems Javascript arg) as [items pre].
    cbn [fst] in Hitem.
    apply (mapM_raise _ items item); [assumption | now rewrite Htype |].
    intros y e'. destruct (getArgType Javascript st y) eqn:E; cbn [bind].
    - discriminate.
    - intros H. injection H as <-. eapply getArgType_raises. eassumption. }
  assert (Hargs : nonempty args = true).
  { destruct args; [|reflexivity]. destruct Harg. }
  assert (Htry : parse_try Javascript st inline override line
                 = Raise IndexError).
  { unfold parse_try. rewrite Hline. unfold formatFunction.
    rewrite Hargs. cbv zeta.
    rewrite (splitByCommas_nonempty _ _ Harg).
    unfold parseArgs.
    rewrite (mapM_raise _ _ arg IndexError Harg Hinfo
               (getArgInfo_raises Javascript st)).
    reflexivity. }
  assert (Hparse : parse Javascript st inline override line = None)
    by now apply parse_catches with (e := IndexError).
  repeat split; try assumption.
  unfold run. fold override. rewrite Hparse. apply generateSnippet_none.
Qed.

Lemma empty_default_raises_witness :
  parse Javascript test_settings false None "function f(x, a = ) {" = None.
Proof.
  apply (empty_default_raises test_settings noon false []
           "function f(x, a = ) {" "f" "x, a = " "a =" "a =" "a").
  - reflexivity.
  - right. left. reflexivity.
  - left. reflexivity.
  - reflexivity.
  - reflexivity.
Defined.

(** C10, the claim as stated fails on a rest parameter: its default value is
    empty too, but the rest marker is tested first and no value is read. *)
Lemma rest_parameter_empty_default :
  parseFunction Javascript "function f(...a=) {" = Some ("f", "...a=")
  /\ splitByCommas (Re.sub inline_comment_re (fun _ => []) "...a=") = ["...a="]
  /\ fst (subItems Javascript "...a=") = ["...a="]
  /\ Re.split1 equals_re "...a=" = ["...a"; []]
  /\ parse Javascript test_settings false None "function f(...a=) {"
     = Some ["${1:[f description]}";
             "@param {${1:...[type]}} a ${1:[description]}";
             "@return {${1:[type]}}  ${1:[description]}"].
Proof. repeat split; vm_compute; reflexivity. Qed.

(** ** getDefinition *)

Lemma lines_from_length n buffer pos : length (lines_from n buffer pos) <= n.
Proof.
  revert pos. induction n as [|n IH]; intros pos; cbn [lines_from length].
  - lia.
  - destruct (read_line buffer pos); cbn [length]; [|lia].
    specialize (IH (pos + length s + 1)). lia.
Qed.

Lemma countBrackets_shift l b :
  fold_left countBrackets l b = (b + fold_left countBrackets l 0)%Z.
Proof.
  revert b. induction l as [|c l IH]; intros b; cbn [fold_left].
  - lia.
  - rewrite IH, (IH (countBrackets 0 c)). unfold countBrackets. lia.
Qed.

Lemma getDefinition_loop_started d buffer i pos b def :
  def <> [] ->
  getDefinition_loop d buffer i pos b def
  = def ++ concat (firstn (gathered b (map strip_comments (lines_from i buffer pos)))
                          (map strip_comments (lines_from i buffer pos))).
Proof.
  revert pos b def. induction i as [|i IH]; intros pos b def Hdef;
    cbn [getDefinition_loop lines_from].
  - cbn. now rewrite app_nil_r.
  - destruct (read_line buffer pos) as [raw|].
    + cbn [map gathered].
      destruct (str_eqb_spec def []) as [E|_]; [contradiction|].
      rewrite countBrackets_shift. fold (balance (strip_comments raw)).
      destruct (b + balance (strip_comments raw) =? 0)%Z.
      * cbn. now rewrite app_nil_r.
      * rewrite IH by (destruct def; [congruence | discriminate]).
        cbn [firstn concat]. now rewrite <- app_assoc.
    + cbn. now rewrite app_nil_r.
Qed.

Lemma after_opener_nil d : after_opener d [] = [].
Proof.
  unfold after_opener. destruct (fnOpener d) as [r|]; [|reflexivity].
  destruct (Re.search r []) as [f|]; [|reflexivity].
  now destruct (Re.m_start f).
Qed.

Lemma getDefinition_prefix (d : dialect) (buffer : str) (pos : nat) :
  let raw := lines_from maxLines buffer pos in
  let stripped := map strip_comments raw in
  length raw <= 25
  /\ getDefinition d buffer pos
     = concat (firstn (gathered 0 (counted d stripped)) stripped).
Proof.
  intros raw stripped. split; [apply lines_from_length|].
  subst raw stripped. unfold getDefinition. change maxLines with (S 24).
  generalize 24. intros n.
  change (getDefinition_loop d buffer (S n) pos 0 [])
    with (match read_line buffer pos with
          | None => []
          | Some raw =>
              let line := strip_comments raw in
              let openBrackets :=
                fold_left countBrackets (brackets (after_opener d line)) 0%Z in
              if (openBrackets =? 0)%Z then [] ++ line
              else getDefinition_loop d buffer n (pos + length raw + 1)
                     openBrackets ([] ++ line)
          end).
  change (lines_from (S n) buffer pos)
    with (match read_line buffer pos with
          | None => []
          | Some raw => raw :: lines_from n buffer (pos + length raw + 1)
          end).
  destruct (read_line buffer pos) as [raw|]; [|reflexivity]. cbv zeta.
  cbn [map counted gathered app].
  fold (balance (after_opener d (strip_comments raw))).
  destruct (0 + balance (after_opener d (strip_comments raw)) =? 0)%Z eqn:E.
  - rewrite Z.add_0_l in E. rewrite E. cbn. now rewrite app_nil_r.
  - rewrite Z.add_0_l in E. rewrite E.
    rewrite getDefinition_loop_started.
    + reflexivity.
    + intros X. rewrite X, after_opener_nil in E. discriminate E.
Qed.

(** ** alignTags *)

Lemma join_split sep s : join [sep] (split_on sep s) = s.
Proof.
  induction s as [|c s IH]; [reflexivity|].
  cbn [split_on]. destruct (Ascii.eqb_spec c sep) as [->|_].
  - destruct (split_on sep s) as [|w ws] eqn:E.
    + destruct s; cbn in E; [discriminate|].
      destruct (Ascii.eqb a sep); [discriminate|].
      destruct (split_on sep s); discriminate.
    + rewrite join_cons by discriminate. cbn [app]. now f_equal.
  - destruct (split_on sep s) as [|w ws] eqn:E.
    + cbn in IH. subst s. reflexivity.
    + destruct ws as [|w' ws].
      * cbn in IH |- *. now subst.
      * rewrite join_cons in IH by discriminate.
        rewrite join_cons by discriminate. now rewrite <- IH.
Qed.

Lemma spaces_nonpositive z : (z <= 0)%Z -> spaces z = [].
Proof.
  intros H. unfold spaces. replace (Z.to_nat z) with 0 by lia. reflexivity.
Qed.

Lemma dropWhile_repeat_space n s :
  dropWhile is_space (repeat " "%char n ++ s) = dropWhile is_space s.
Proof. induction n; [reflexivity | assumption]. Qed.

Lemma rstrip_spaces s n : rstrip (s ++ repeat " "%char n) = rstrip s.
Proof.
  unfold rstrip. rewrite rev_app_distr, rev_repeat.
  now rewrite dropWhile_repeat_space.
Qed.

Lemma strip_tag_spaces line n :
  startswith "@" line = true -> strip line = line ->
  strip (line ++ repeat " "%char n) = line.
Proof.
  intros Hat Hs. apply startswith_spec in Hat. destruct Hat as [r ->].
  unfold strip in *. change (lstrip (("@" ++ r) ++ repeat " "%char n))
    with (("@" ++ r) ++ repeat " "%char n).
  change (lstrip ("@" ++ r)) with ("@" ++ r) in Hs.
  now rewrite rstrip_spaces.
Qed.

Lemma pad_parts_unpadded st mw i parts :
  min_spaces_between_columns st = 1%Z ->
  parts <> [] -> unpadded mw i parts ->
  exists n, pad_parts st mw i parts = join " " parts ++ repeat " "%char n.
Proof.
  intros Hmin. revert i. induction parts as [|part rest IH]; intros i Hne Hun.
  - congruence.
  - destruct rest as [|part' rest].
    + cbn [pad_parts join]. rewrite Hmin, app_nil_r.
      unfold spaces. rewrite <- repeat_app. eexists. reflexivity.
    + destruct Hun as [Hw Hun].
      assert (Hne' : part' :: rest <> []) by discriminate.
      destruct (IH (S i) Hne' Hun) as [n Hn].
      exists n. change (pad_parts st mw i (part :: part' :: rest))
        with (part ++ spaces (min_spaces_between_columns st)
              ++ spaces (Z.of_nat (nth i mw 0) - Z.of_nat (outputWidth part))
              ++ pad_parts st mw (S i) (part' :: rest)).
      rewrite Hn, Hmin, (spaces_nonpositive (_ - _)) by lia.
      rewrite (join_cons " " part (part' :: rest)) by discriminate.
      cbn [app]. now rewrite <- !app_assoc.
Qed.

(** C9, the claim as stated fails: the padding of the first run is split
    into empty columns by the second, which pads again. *)
Lemma alignTags_not_idempotent :
  alignTags test_settings ["@param {[type]} bar"; "@return {[type]}"]
  = ["@param  {[type]} bar"; "@return {[type]}"]
  /\ alignTags test_settings
       (alignTags test_settings ["@param {[type]} bar"; "@return {[type]}"])
     = ["@param           {[type]} bar"; "@return {[type]}"]
  /\ alignTags test_settings
       (alignTags test_settings ["@param {[type]} bar"; "@return {[type]}"])
     <> alignTags test_settings ["@param {[type]} bar"; "@return {[type]}"].
Proof.
  split; [vm_compute; reflexivity|].
  split; [vm_compute; reflexivity|].
  vm_compute. discriminate.
Qed.

(** C9 (amended): [alignTags] returns unchanged, and so is idempotent on,
    every line sequence that needs no padding: with one space between
    columns, when every tag line other than [@author] is free of surrounding
    white space and each of its columns but the last is at least as wide as
    the widest entry of that column. *)
Theorem alignTags_unpadded (st : pluginSettings) (out : list str) :
  min_spaces_between_columns st = 1%Z ->
  (forall line, In line out -> aligned_line line = true ->
     strip line = line
     /\ unpadded (maxWidths st out) 0 (split_on " " line)) ->
  alignTags st out = out
  /\ alignTags st (alignTags st out) = alignTags st out.
Proof.
  intros Hmin H.
  assert (Hfix : alignTags st out = out).
  { unfold alignTags.
    rewrite <- (map_id out) at 2. apply map_ext_in.
    intros line Hin. destruct (aligned_line line) eqn:E; [|reflexivity].
    destruct (H line Hin E) as [Hs Hun].
    assert (Hne : split_on " " line <> []).
    { destruct line as [|c l]; [discriminate E|]. cbn [split_on].
      destruct (Ascii.eqb c " "); [discriminate|].
      destruct (split_on " " l); discriminate. }
    destruct (pad_parts_unpadded st (maxWidths st out) 0 (split_on " " line)
                Hmin Hne Hun) as [n Hn].
    rewrite Hn, join_split. apply strip_tag_spaces; [|assumption].
    unfold aligned_line in E. apply andb_true_iff in E. apply E. }
  split; [assumption | now rewrite !Hfix].
Qed.

Lemma alignTags_unpadded_witness :
  alignTags test_settings
    ["${1:[foo description]}"; "@param {a} b"; "@param {c} d"]
  = ["${1:[foo description]}"; "@param {a} b"; "@param {c} d"].
Proof.
  apply (alignTags_unpadded test_settings).
  - reflexivity.
  - intros line [<-|[<-|[<-|[]]]]; intros E; try discriminate E;
      (split; [reflexivity | vm_compute; lia]).
Defined.

(** ** Tab stops *)

Lemma scan_step s :
  scan s = match matchTabStop s with
           | Some (digits, body, after) => TabStop digits body :: scan after
           | None => match s with
                     | [] => []
                     | c :: t => Text c :: scan t
                     end
           end.
Proof.
  funelim (scan s); [reflexivity | now rewrite e | now rewrite e].
Qed.

Lemma str_length_ind (P : str -> Prop) :
  (forall s, (forall t, length t < length s -> P t) -> P s) ->
  forall s, P s.
Proof.
  intros H s. remember (length s) as n eqn:E. revert s E.
  induction n as [n IH] using lt_wf_ind. intros s ->.
  apply H. intros t Ht. now apply (IH (length t)).
Qed.

Lemma span_eq p s : fst (span p s) ++ snd (span p s) = s.
Proof.
  induction s as [|c s IH]; [reflexivity|]. cbn [span].
  destruct (p c); [|reflexivity].
  destruct (span p s) as [a b]. cbn [fst snd app] in *. now f_equal.
Qed.

Lemma span_fst_all p s : forallb p (fst (span p s)) = true.
Proof.
  induction s as [|c s IH]; [reflexivity|]. cbn [span].
  destruct (p c) eqn:E; [|reflexivity].
  destruct (span p s) as [a b]. cbn [fst forallb] in *. now rewrite E.
Qed.

Lemma span_snd_stops p s : stops p (snd (span p s)) = true.
Proof.
  induction s as [|c s IH]; [reflexivity|]. cbn [span].
  destruct (p c) eqn:E.
  - destruct (span p s) as [a b]. exact IH.
  - cbn [snd stops]. now rewrite E.
Qed.

Lemma span_intro p a b :
  forallb p a = true -> stops p b = true -> span p (a ++ b) = (a, b).
Proof.
  intros Ha Hb. induction a as [|c a IH]; cbn [app].
  - destruct b as [|x b]; [reflexivity|]. cbn [stops] in Hb. cbn [span].
    apply negb_true_iff in Hb. now rewrite Hb.
  - cbn [forallb] in Ha. apply andb_true_iff in Ha. destruct Ha as [Hc Ha].
    cbn [span]. now rewrite Hc, IH.
Qed.

(** A span that stops inside [x] is not changed by what follows [x]. *)
Lemma span_app_inside p x b :
  snd (span p x) <> [] ->
  span p (x ++ b) = (fst (span p x), snd (span p x) ++ b).
Proof.
  induction x as [|c x IH]; cbn [span app].
  - intros H. now elim H.
  - destruct (p c) eqn:E.
    + destruct (span p x) as [u v]. cbn [fst snd] in *. intros H.
      now rewrite IH.
    + reflexivity.
Qed.

(** A span that reaches the end of [x] stops there when [b] does not go
    on. *)
Lemma span_app_stop p x b :
  stops p b = true ->
  span p (x ++ b) = (fst (span p x), snd (span p x) ++ b).
Proof.
  intros Hb. destruct (snd (span p x)) as [|c v] eqn:E.
  - pose proof (span_eq p x) as H. rewrite E, app_nil_r in H.
    rewrite <- H at 1. rewrite span_intro; [reflexivity | | assumption].
    apply span_fst_all.
  - rewrite span_app_inside by (rewrite E; discriminate). now rewrite E.
Qed.

Lemma matchTabStop_spec s digits body after :
  matchTabStop s = Some (digits, body, after) <->
  s = "${" ++ digits ++ ":" ++ body ++ "}" ++ after
  /\ is_index digits /\ body <> [] /\ forallb not_close body = true.
Proof.
  unfold matchTabStop, is_index. split.
  - destruct (startswith "${" s) eqn:E; [|discriminate].
    apply startswith_spec in E. destruct E as [r ->].
    change (skipn 2 ("${" ++ r)) with r.
    pose proof (span_eq is_digit r) as H1.
    pose proof (span_fst_all is_digit r) as H2.
    destruct (span is_digit r) as [ds t1]. cbn [fst snd] in *.
    destruct ds as [|d ds]; [discriminate|]. cbn [nonempty andb].
    destruct (startswith ":" t1) eqn:E1; [|discriminate].
    apply startswith_spec in E1. destruct E1 as [r1 ->].
    change (skipn 1 (":" ++ r1)) with r1.
    pose proof (span_eq not_close r1) as H3.
    pose proof (span_fst_all not_close r1) as H4.
    destruct (span not_close r1) as [bd t2]. cbn [fst snd] in *.
    destruct bd as [|b bd]; [discriminate|]. cbn [nonempty andb].
    destruct (startswith "}" t2) eqn:E2; [|discriminate].
    apply startswith_spec in E2. destruct E2 as [r2 ->].
    intros H. injection H as <- <- <-. subst r r1.
    repeat split; try assumption; discriminate.
  - intros (-> & [Hd1 Hd2] & Hb1 & Hb2).
    rewrite startswith_app. change (skipn 2 ("${" ++ ?x)) with x.
    rewrite span_intro by (assumption || reflexivity).
    destruct digits as [|d ds]; [congruence|]. cbn [nonempty andb].
    rewrite startswith_app. change (skipn 1 (":" ++ ?x)) with x.
    rewrite span_intro; [|assumption|reflexivity].
    destruct body as [|b bd]; [congruence|]. cbn [nonempty andb].
    rewrite startswith_app. reflexivity.
Qed.

Lemma separate_stops_digit b : separate b = true -> stops is_digit b = true.
Proof.
  destruct b as [|c b]; [reflexivity|]. cbn [separate stops]. unfold inert.
  destruct (is_digit c); [|reflexivity].
  now rewrite orb_true_r.
Qed.

Lemma separate_no_brace b : separate b = true -> startswith "{" b = false.
Proof.
  destruct b as [|c b]; [reflexivity|]. cbn [separate startswith].
  unfold inert. rewrite (Ascii.eqb_sym "{" c).
  destruct (Ascii.eqb c "{"); [discriminate | reflexivity].
Qed.

Lemma separate_no_colon b : separate b = true -> startswith ":" b = false.
Proof.
  destruct b as [|c b]; [reflexivity|]. cbn [separate startswith].
  unfold inert. rewrite (Ascii.eqb_sym ":" c).
  destruct (Ascii.eqb c ":"); [|reflexivity].
  now rewrite !orb_true_r.
Qed.

Lemma span_close_inside y :
  existsb is_close y = true -> snd (span not_close y) <> [].
Proof.
  induction y as [|c y IH]; [discriminate|]. cbn [existsb span].
  unfold not_close at 1, is_close at 1.
  destruct (Ascii.eqb c "}"); cbn [negb orb].
  - discriminate.
  - intros H. destruct (span not_close y). now apply IH.
Qed.

Lemma matchTabStop_app a b :
  a <> [] -> pending a = false -> separate b = true ->
  matchTabStop (a ++ b)
  = option_map (fun '(digits, body, after) => (digits, body, after ++ b))
      (matchTabStop a).
Proof.
  intros Ha Hp Hb. unfold matchTabStop, pending in *.
  destruct a as [|c0 [|c1 a2]]; [congruence| |].
  - change (startswith "${" ([c0] ++ b))
      with (Ascii.eqb "$" c0 && startswith "{" b).
    rewrite (separate_no_brace b Hb), andb_false_r.
    change (startswith "${" [c0]) with (Ascii.eqb "$" c0 && false).
    now rewrite andb_false_r.
  - change (startswith "${" ((c0 :: c1 :: a2) ++ b))
      with (startswith "${" (c0 :: c1 :: a2)).
    destruct (startswith "${" (c0 :: c1 :: a2)); [|reflexivity].
    change (skipn 2 ((c0 :: c1 :: a2) ++ b)) with (a2 ++ b).
    change (skipn 2 (c0 :: c1 :: a2)) with a2 in *.
    rewrite (span_app_stop is_digit a2 b (separate_stops_digit b Hb)).
    destruct (span is_digit a2) as [ds t1]. cbn [fst snd andb] in *.
    destruct (nonempty ds); [|reflexivity]. cbn [andb] in *.
    destruct t1 as [|x t1].
    + cbn [app]. rewrite (separate_no_colon b Hb). reflexivity.
    + change (startswith ":" ((x :: t1) ++ b))
        with (startswith ":" (x :: t1)).
      destruct (startswith ":" (x :: t1)) eqn:E; [|reflexivity].
      cbn [andb] in Hp. apply negb_false_iff in Hp.
      change (skipn 1 ((x :: t1) ++ b)) with (t1 ++ b).
      change (skipn 1 (x :: t1)) with t1.
      assert (Hx : existsb is_close t1 = true).
      { cbn [existsb] in Hp. cbn [startswith] in E.
        rewrite andb_true_r in E. apply Ascii.eqb_eq in E. subst x.
        exact Hp. }
      pose proof (span_close_inside t1 Hx) as Hr.
      rewrite (span_app_inside not_close t1 b Hr).
      destruct (span not_close t1) as [body r]. cbn [fst snd] in *.
      destruct (nonempty body); [|reflexivity]. cbn [andb].
      destruct r as [|y r]; [congruence|].
      change (startswith "}" ((y :: r) ++ b)) with (startswith "}" (y :: r)).
      destruct (startswith "}" (y :: r)); reflexivity.
Qed.

Lemma closed_tail c t : closed (c :: t) = true -> closed t = true.
Proof. cbn [closed]. intros H. apply andb_true_iff in H. apply H. Qed.

Lemma closed_head c t : closed (c :: t) = true -> pending (c :: t) = false.
Proof.
  cbn [closed]. intros H. apply andb_true_iff in H.
  now apply negb_true_iff.
Qed.

Lemma closed_suffix x y : closed (x ++ y) = true -> closed y = true.
Proof.
  induction x as [|c x IH]; [trivial|]. intros H.
  apply IH. eapply closed_tail. exact H.
Qed.

Lemma matchTabStop_after s digits body after :
  matchTabStop s = Some (digits, body, after) ->
  exists x, s = x ++ after /\ length after < length s.
Proof.
  intros H. pose proof (matchTabStop_shorter _ _ _ _ H) as Hl.
  apply matchTabStop_spec in H. destruct H as (-> & _).
  exists ("${" ++ digits ++ ":" ++ body ++ "}"). split; [|assumption].
  now rewrite <- !app_assoc.
Qed.

Lemma scan_app a b :
  closed a = true -> separate b = true -> scan (a ++ b) = scan a ++ scan b.
Proof.
  intros Ha Hb. revert Ha. induction a as [a IH] using str_length_ind.
  intros Ha. destruct a as [|c t]; [reflexivity|].
  rewrite (scan_step ((c :: t) ++ b)), (scan_step (c :: t)).
  rewrite matchTabStop_app;
    [| discriminate | now apply closed_head | assumption].
  destruct (matchTabStop (c :: t)) as [[[ds body] after]|] eqn:E;
    cbn [option_map].
  - destruct (matchTabStop_after _ _ _ _ E) as (x & Hx & Hl).
    rewrite IH; [reflexivity | assumption |].
    rewrite Hx in Ha. eapply closed_suffix. exact Ha.
  - cbn [app]. rewrite IH; [reflexivity | cbn [length]; lia |].
    eapply closed_tail. exact Ha.
Qed.

Lemma matchTabStop_no_dollar c t :
  Ascii.eqb c "$" = false -> matchTabStop (c :: t) = None.
Proof.
  intros H. unfold matchTabStop. cbn [startswith].
  rewrite Ascii.eqb_sym, H. reflexivity.
Qed.

Lemma scan_plain (p b : str) :
  existsb (fun c => Ascii.eqb c "$") p = false ->
  scan (p ++ b) = map Text p ++ scan b.
Proof.
  induction p as [|c p IH]; [reflexivity|]. cbn [existsb].
  intros H. apply orb_false_iff in H. destruct H as [Hc Hp].
  cbn [app map]. rewrite scan_step, matchTabStop_no_dollar by assumption.
  now rewrite IH.
Qed.

(** *** Renumbering keeps the shape of a line *)

Lemma render_cons p ps : render (p :: ps) = render_piece p ++ render ps.
Proof. reflexivity. Qed.

Lemma render_stop digits body ps :
  render (TabStop digits body :: ps)
  = "${" ++ digits ++ ":" ++ body ++ "}" ++ render ps.
Proof.
  rewrite render_cons. cbn [render_piece]. now rewrite <- !app_assoc.
Qed.

Lemma startswith_hd (x : ascii) (s s' : str) :
  hd_error s' = hd_error s -> startswith [x] s' = startswith [x] s.
Proof.
  destruct s, s'; cbn; try discriminate; [reflexivity|].
  intros H. now injection H as ->.
Qed.

Lemma matchTabStop_dollar s digits body after :
  matchTabStop s = Some (digits, body, after) ->
  exists u, s = "$"%char :: u.
Proof.
  intros H. apply matchTabStop_spec in H. destruct H as (-> & _).
  eexists. reflexivity.
Qed.

Lemma renumbered_hd t ps :
  renumbered t ps -> hd_error (render ps) = hd_error t.
Proof.
  intros H. destruct H as [|c t ps _ _|s ds body after ds' ps Hm _ _].
  - reflexivity.
  - reflexivity.
  - destruct (matchTabStop_dollar _ _ _ _ Hm) as [u ->].
    now rewrite render_stop.
Qed.

Lemma renumbered_text_inv x u ps :
  renumbered (x :: u) ps -> Ascii.eqb x "$" = false ->
  exists qs, ps = Text x :: qs /\ renumbered u qs.
Proof.
  intros H Hx. inversion H as [|c t qs _ Hr|s ds body after ds' qs Hm _ _];
    subst.
  - exists qs. split; [reflexivity | assumption].
  - destruct (matchTabStop_dollar _ _ _ _ Hm) as [u' E].
    injection E as -> _. discriminate Hx.
Qed.

Lemma renumbered_span_digit t ps :
  renumbered t ps ->
  exists qs, span is_digit (render ps) = (fst (span is_digit t), render qs)
             /\ renumbered (snd (span is_digit t)) qs.
Proof.
  induction 1 as [|c t ps Hm Hr IH|s ds body after ds' ps Hm Hi Hr IH].
  - exists []. split; [reflexivity | constructor].
  - rewrite render_cons. cbn [render_piece app span].
    destruct (is_digit c) eqn:E.
    + destruct IH as (qs & H1 & H2). exists qs. rewrite H1.
      destruct (span is_digit t) as [a b]. cbn [fst snd] in *.
      split; [reflexivity | assumption].
    + exists (Text c :: ps). cbn [fst snd]. split; [reflexivity|].
      now constructor.
  - destruct (matchTabStop_dollar _ _ _ _ Hm) as [u ->].
    rewrite render_stop. cbn [app span]. change (is_digit "$") with false.
    cbn iota. cbn [fst snd].
    exists (TabStop ds' body :: ps). split.
    + now rewrite render_stop.
    + econstructor; eassumption.
Qed.

Lemma existsb_close_stop (x y : str) :
  existsb is_close (x ++ "}" ++ y) = true.
Proof. rewrite existsb_app. cbn. now rewrite orb_true_r. Qed.

Lemma renumbered_close t ps :
  renumbered t ps -> existsb is_close (render ps) = existsb is_close t.
Proof.
  induction 1 as [|c t ps Hm Hr IH|s ds body after ds' ps Hm Hi Hr IH].
  - reflexivity.
  - rewrite render_cons. cbn [render_piece app existsb]. now rewrite IH.
  - apply matchTabStop_spec in Hm. destruct Hm as (-> & _).
    rewrite render_stop.
    rewrite !(app_assoc "${"), !(app_assoc _ ":"), !(app_assoc _ body).
    now rewrite !existsb_close_stop.
Qed.

Lemma digits_not_close ds :
  forallb is_digit ds = true -> forallb not_close ds = true.
Proof.
  induction ds as [|d ds IH]; [reflexivity|]. cbn [forallb].
  intros H. apply andb_true_iff in H. destruct H as [Hd H].
  rewrite IH by assumption. rewrite andb_true_r.
  unfold not_close. destruct (Ascii.eqb_spec d "}") as [->|_];
    [discriminate Hd | reflexivity].
Qed.

Lemma span_body_stop ds body y :
  forallb is_digit ds = true -> forallb not_close body = true ->
  span not_close ("${" ++ ds ++ ":" ++ body ++ "}" ++ y)
  = ("${" ++ ds ++ ":" ++ body, "}" ++ y).
Proof.
  intros Hd Hb.
  replace ("${" ++ ds ++ ":" ++ body ++ "}" ++ y)
    with (("${" ++ ds ++ ":" ++ body) ++ "}" ++ y)
    by now rewrite <- !app_assoc.
  apply span_intro; [|reflexivity].
  rewrite !forallb_app, (digits_not_close ds Hd), Hb. reflexivity.
Qed.

Lemma renumbered_span_body v ps :
  renumbered v ps ->
  nonempty (fst (span not_close (render ps)))
  = nonempty (fst (span not_close v))
  /\ startswith "}" (snd (span not_close (render ps)))
     = startswith "}" (snd (span not_close v)).
Proof.
  induction 1 as [|c t ps Hm Hr IH|s ds body after ds' ps Hm Hi Hr IH].
  - split; reflexivity.
  - rewrite render_cons. cbn [render_piece app span].
    destruct (not_close c) eqn:E.
    + destruct IH as [_ IH].
      destruct (span not_close (render ps)), (span not_close t).
      cbn [fst snd nonempty] in *. split; [reflexivity | assumption].
    + split; reflexivity.
  - apply matchTabStop_spec in Hm. destruct Hm as (-> & [_ Hd] & _ & Hb).
    destruct Hi as [_ Hd'].
    rewrite render_stop, !span_body_stop by assumption.
    split; reflexivity.
Qed.

Lemma renumbered_cond c t ps :
  renumbered t ps ->
  is_some (matchTabStop (c :: render ps)) = is_some (matchTabStop (c :: t))
  /\ pending (c :: render ps) = pending (c :: t).
Proof.
  intros Hr. unfold matchTabStop, pending.
  change (startswith "${" (c :: render ps))
    with (Ascii.eqb "$" c && startswith "{" (render ps)).
  change (startswith "${" (c :: t))
    with (Ascii.eqb "$" c && startswith "{" t).
  rewrite (startswith_hd "{" t (render ps) (renumbered_hd _ _ Hr)).
  destruct (Ascii.eqb "$" c); [|split; reflexivity]. cbn [andb].
  destruct (startswith "{" t) eqn:E; [|split; reflexivity].
  apply startswith_spec in E. destruct E as [u ->].
  destruct (renumbered_text_inv "{" u ps Hr eq_refl) as (qs & -> & Hq).
  change (skipn 2 (c :: render (Text "{" :: qs))) with (render qs).
  change (skipn 2 (c :: "{" ++ u)) with u.
  destruct (renumbered_span_digit u qs Hq) as (qs' & -> & Hq').
  destruct (span is_digit u) as [ds w]. cbn [fst snd] in *.
  destruct (nonempty ds); [|split; reflexivity]. cbn [andb].
  rewrite (startswith_hd ":" w (render qs') (renumbered_hd _ _ Hq')).
  rewrite (renumbered_close w qs' Hq').
  destruct (startswith ":" w) eqn:E; [|split; reflexivity].
  split; [|reflexivity].
  apply startswith_spec in E. destruct E as [v ->].
  destruct (renumbered_text_inv ":" v qs' Hq' eq_refl) as (qs'' & -> & Hq'').
  change (skipn 1 (render (Text ":" :: qs''))) with (render qs'').
  change (skipn 1 (":" ++ v)) with v.
  destruct (renumbered_span_body v qs'' Hq'') as [H1 H2].
  destruct (span not_close (render qs'')) as [b' r'].
  destruct (span not_close v) as [b r]. cbn [fst snd] in *.
  rewrite H1, H2.
  destruct (nonempty b && startswith "}" r); reflexivity.
Qed.

Lemma rescan s ps : renumbered s ps -> scan (render ps) = ps.
Proof.
  induction 1 as [|c t ps Hm Hr IH|s ds body after ds' ps Hm Hi Hr IH].
  - reflexivity.
  - rewrite render_cons. cbn [render_piece app]. rewrite scan_step.
    destruct (renumbered_cond c t ps Hr) as [H _]. rewrite Hm in H.
    destruct (matchTabStop (c :: render ps)); [discriminate H|].
    now rewrite IH.
  - rewrite scan_step.
    assert (E : matchTabStop (render (TabStop ds' body :: ps))
                = Some (ds', body, render ps)).
    { apply matchTabStop_spec. apply matchTabStop_spec in Hm.
      destruct Hm as (_ & _ & Hb1 & Hb2).
      rewrite render_stop. repeat split; try assumption; apply Hi. }
    now rewrite E, IH.
Qed.





(** *** The numerals *)

Lemma str_of_uint_digits u : forallb is_digit (str_of_uint u) = true.
Proof. induction u; cbn [str_of_uint forallb]; try rewrite IHu; reflexivity. Qed.

Lemma uint_of_str_of_uint u : uint_of_str (str_of_uint u) = u.
Proof. induction u; cbn [str_of_uint uint_of_str]; try rewrite IHu; reflexivity. Qed.

Lemma number_of_decimal n : number_of (decimal n) = n.
Proof.
  unfold number_of, decimal. rewrite uint_of_str_of_uint.
  apply Unsigned.of_to.
Qed.

Lemma decimal_is_index n : is_index (decimal n).
Proof.
  split; [|apply str_of_uint_digits].
  intros H. pose proof (number_of_decimal n) as E.
  unfold decimal in H. destruct (Nat.to_uint n) eqn:U; try discriminate H.
  destruct n; [discriminate U|].
  pose proof (Unsigned.of_to (S n)) as X. rewrite U in X. discriminate X.
Qed.

(** *** fixTabStops *)

Lemma renumber_renumbered s count :
  renumbered s (fst (renumber count (scan s))).
Proof.
  revert count. induction s as [s IH] using str_length_ind. intros count.
  rewrite scan_step.
  destruct (matchTabStop s) as [[[ds body] after]|] eqn:E.
  - cbn [renumber].
    pose proof (IH after (matchTabStop_shorter _ _ _ _ E) (S count)) as H.
    destruct (renumber (S count) (scan after)) as [r n']. cbn [fst] in *.
    econstructor; [eassumption | apply decimal_is_index | assumption].
  - destruct s as [|c t]; [constructor|]. cbn [renumber].
    pose proof (IH t (Nat.lt_succ_diag_r _) count) as H.
    destruct (renumber count (scan t)) as [r n']. cbn [fst] in *.
    now constructor.
Qed.


Lemma tabIndices_indices text : tabIndices text = indices (scan text).
Proof. reflexivity. Qed.



Lemma fixTabStops_from_length count out :
  length (fixTabStops_from count out) = length out.
Proof.
  revert count. induction out as [|l out IH]; intros count; [reflexivity|].
  cbn [fixTabStops_from]. destruct (renumber count (scan l)).
  cbn [length]. now rewrite IH.
Qed.

(** *** Spacing and assembly *)

Lemma filter_nonempty_snoc_empty (seen todo : list str) :
  filter nonempty ((seen ++ [[]]) ++ todo) = filter nonempty (seen ++ todo).
Proof. now rewrite !filter_app, app_nil_r. Qed.

Lemma app_snoc {A} (seen : list A) x rest :
  (seen ++ [x]) ++ rest = seen ++ x :: rest.
Proof. now rewrite <- app_assoc. Qed.

Lemma spacer_all_filter n no_description seen todo lastTag :
  filter nonempty (spacer_all n no_description seen todo lastTag)
  = filter nonempty (seen ++ todo).
Proof.
  revert seen todo lastTag.
  induction n as [|n IH]; intros seen todo lastTag; [reflexivity|].
  destruct todo as [|line rest]; [reflexivity|]. cbn [spacer_all].
  destruct (tag_of line) as [tag|].
  - destruct (negb (same_tag lastTag tag)).
    + destruct (if no_description then is_some lastTag else true);
        rewrite IH.
      * apply filter_nonempty_snoc_empty.
      * now rewrite app_snoc.
    + rewrite IH. now rewrite app_snoc.
  - rewrite IH. now rewrite app_snoc.
Qed.

Lemma spacer_after_filter n seen todo lastLineIsTag :
  filter nonempty (spacer_after n seen todo lastLineIsTag)
  = filter nonempty (seen ++ todo).
Proof.
  revert seen todo lastLineIsTag.
  induction n as [|n IH]; intros seen todo lastLineIsTag; [reflexivity|].
  destruct todo as [|line rest]; [reflexivity|]. cbn [spacer_after].
  destruct (tag_of line) as [tag|].
  - destruct (negb lastLineIsTag); rewrite IH.
    + apply filter_nonempty_snoc_empty.
    + now rewrite app_snoc.
  - rewrite IH. now rewrite app_snoc.
Qed.

Lemma spaced_filter st out :
  filter nonempty (spaced st out) = filter nonempty out.
Proof.
  unfold spaced. destruct (spacer_between_sections st).
  - reflexivity.
  - now rewrite spacer_all_filter.
  - destruct (is_true (function_description st)); [|reflexivity].
    now rewrite spacer_after_filter.
Qed.



Lemma indices_text p : indices (map Text p) = [].
Proof. induction p; [reflexivity | assumption]. Qed.
















Example tab_stops_of_the_tests :
  tabIndices (run Javascript test_settings noon [] false
                "function foo (bar, baz) {")
  = [1; 2; 3; 4; 5; 6; 7].
Proof. vm_compute. reflexivity. Qed.

(** *** The rounds of the spacing loops suffice *)

Lemma same_tag_refl tag : same_tag (Some tag) tag = true.
Proof. cbn. destruct (str_eqb_spec tag tag); [reflexivity | congruence]. Qed.

Lemma spacer_all_enough n no_description seen todo lastTag :
  2 * length todo <= n ->
  spacer_all n no_description seen todo lastTag
  = seen ++ spacer_all_lines no_description todo lastTag.
Proof.
  revert n seen lastTag.
  induction todo as [|line rest IH]; intros n seen lastTag Hn.
  - destruct n; reflexivity.
  - cbn [length] in Hn. destruct n as [|[|n]]; [lia | lia |].
    cbn [spacer_all_lines].
    change (spacer_all (S (S n)) no_description seen (line :: rest) lastTag)
      with (match tag_of line with
            | Some tag =>
                if negb (same_tag lastTag tag) then
                  if (if no_description then is_some lastTag else true)
                  then spacer_all (S n) no_description (seen ++ [[]])
                         (line :: rest) (Some tag)
                  else spacer_all (S n) no_description (seen ++ [line]) rest
                         (Some tag)
                else spacer_all (S n) no_description (seen ++ [line]) rest
                       lastTag
            | None => spacer_all (S n) no_description (seen ++ [line]) rest
                        lastTag
            end).
    destruct (tag_of line) as [tag|] eqn:E.
    + destruct (negb (same_tag lastTag tag)).
      * destruct (if no_description then is_some lastTag else true).
        -- cbn [spacer_all]. rewrite E, same_tag_refl. cbn [negb].
           rewrite IH by lia. now rewrite <- !app_assoc.
        -- rewrite IH by lia. now rewrite <- app_assoc.
      * rewrite IH by lia. now rewrite <- app_assoc.
    + rewrite IH by lia. now rewrite <- app_assoc.
Qed.

Lemma spacer_after_enough n seen todo lastLineIsTag :
  2 * length todo <= n ->
  spacer_after n seen todo lastLineIsTag
  = seen ++ spacer_after_lines todo lastLineIsTag.
Proof.
  revert n seen lastLineIsTag.
  induction todo as [|line rest IH]; intros n seen lastLineIsTag Hn.
  - destruct n; reflexivity.
  - cbn [length] in Hn. destruct n as [|[|n]]; [lia | lia |].
    cbn [spacer_after_lines].
    change (spacer_after (S (S n)) seen (line :: rest) lastLineIsTag)
      with (match tag_of line with
            | Some _ =>
                if negb lastLineIsTag
                then spacer_after (S n) (seen ++ [[]]) (line :: rest) true
                else spacer_after (S n) (seen ++ [line]) rest true
            | None => spacer_after (S n) (seen ++ [line]) rest lastLineIsTag
            end).
    destruct (tag_of line) as [tag|] eqn:E.
    + destruct lastLineIsTag; cbn [negb].
      * rewrite IH by lia. now rewrite <- app_assoc.
      * cbn [spacer_after]. rewrite E. cbn [negb].
        rewrite IH by lia. now rewrite <- !app_assoc.
    + rewrite IH by lia. now rewrite <- app_assoc.
Qed.

(** The loops of [createSnippet] come to their end within [rounds out]
    rounds: more rounds change nothing. *)
Lemma spaced_rounds st out n :
  rounds out <= n ->
  spacer_all n (match function_description st with
                | Some false => true
                | _ => false
                end) [] out None
  = spacer_all (rounds out)
      (match function_description st with
       | Some false => true
       | _ => false
       end) [] out None
  /\ spacer_after n [] out false = spacer_after (rounds out) [] out false.
Proof.
  unfold rounds. intros Hn.
  now rewrite !spacer_all_enough, !spacer_after_enough by lia.
Qed.

Example spaced_sections :
  spacer_all 8 false []
    ["${1:[foo description]}"; "@param a"; "@param b"; "@return c"] None
  = ["${1:[foo description]}"; []; "@param a"; "@param b"; []; "@return c"]
  /\ spacer_all 6 true [] ["@param a"; "@param b"; "@return c"] None
     = ["@param a"; "@param b"; []; "@return c"]
  /\ spacer_after 8 []
       ["${1:[foo description]}"; "@param a"; "@param b"; "@return c"] false
     = ["${1:[foo description]}"; []; "@param a"; "@param b"; "@return c"].
Proof. repeat split; vm_compute; reflexivity. Qed.

(** ** escape *)

Lemma escape_cons c s :
  escape (c :: s) = (if is_special c then [backslash; c] else [c]) ++ escape s.
Proof. reflexivity. Qed.

Lemma escape_head s : stops is_special (escape s) = true.
Proof.
  destruct s as [|c s]; [reflexivity|]. rewrite escape_cons.
  destruct (is_special c) eqn:E; cbn [app stops]; [reflexivity|].
  now rewrite E.
Qed.

Lemma matchTabStop_escape s : matchTabStop (escape s) = None.
Proof.
  destruct s as [|c s]; [reflexivity|]. rewrite escape_cons.
  destruct (is_special c) eqn:E; cbn [app].
  - reflexivity.
  - apply matchTabStop_no_dollar. unfold is_special in E.
    now destruct (Ascii.eqb c "$").
Qed.

Lemma matchTabStop_before_escape c s :
  matchTabStop (c :: escape s) = None.
Proof.
  destruct (Ascii.eqb c "$") eqn:E; [|now apply matchTabStop_no_dollar].
  unfold matchTabStop. pose proof (escape_head s) as H.
  destruct (escape s) as [|x r]; cbn [startswith];
    [now rewrite andb_false_r|].
  cbn [stops] in H.
  destruct (Ascii.eqb_spec "{" x) as [<-|_]; [discriminate H|].
  now rewrite andb_false_r.
Qed.

Lemma scan_escape s : scan (escape s) = map Text (escape s).
Proof.
  induction s as [|c s IH]; [reflexivity|].
  rewrite escape_cons. destruct (is_special c); cbn [app map].
  - rewrite scan_step.
    rewrite matchTabStop_no_dollar by reflexivity.
    rewrite scan_step, matchTabStop_before_escape. now rewrite IH.
  - rewrite scan_step, matchTabStop_before_escape. now rewrite IH.
Qed.

Lemma unwrap_text s : flat_map unwrap_piece (map Text s) = s.
Proof. induction s as [|c s IH]; [reflexivity|]. cbn. now rewrite IH. Qed.

(** Escaped text holds no tab stop: the scan of [fixTabStops] and of
    [outputWidth] finds plain characters only, so [fixTabStops] leaves the
    text as it is. *)
Theorem escape_holds_no_tab_stop (s : str) :
  tabIndices (escape s) = []
  /\ flat_map unwrap_piece (scan (escape s)) = escape s
  /\ fixTabStops [escape s] = [escape s].
Proof.
  split; [|split].
  - rewrite tabIndices_indices, scan_escape. apply indices_text.
  - rewrite scan_escape. apply unwrap_text.
  - unfold fixTabStops. cbn [fixTabStops_from]. rewrite scan_escape.
    assert (H : forall n t, renumber n (map Text t) = (map Text t, n)).
    { intros n t. induction t as [|c t IH]; [reflexivity|].
      cbn [map renumber]. now rewrite IH. }
    rewrite H. f_equal.
    unfold render. induction (escape s) as [|c t IH]; [reflexivity|].
    cbn [map flat_map render_piece app]. now rewrite IH.
Qed.

Lemma unescape_dollar_pair t :
  unescape_dollar (backslash :: "$"%char :: t) = "$"%char :: unescape_dollar t.
Proof. reflexivity. Qed.

Lemma unescape_dollar_other c x r :
  Ascii.eqb c backslash && Ascii.eqb x "$" = false ->
  unescape_dollar (c :: x :: r) = c :: unescape_dollar (x :: r).
Proof.
  intros H.
  change (unescape_dollar (c :: x :: r))
    with (if Ascii.eqb c backslash && Ascii.eqb x "$"
          then "$"%char :: unescape_dollar r
          else c :: unescape_dollar (x :: r)).
  now rewrite H.
Qed.

Lemma unescape_dollar_escape s :
  existsb is_brace s = false -> unescape_dollar (escape s) = s.
Proof.
  induction s as [|c s IH]; [reflexivity|]. cbn [existsb].
  intros H. apply orb_false_iff in H. destruct H as [Hc Hs].
  specialize (IH Hs). rewrite escape_cons.
  unfold is_special. unfold is_brace in Hc.
  destruct (Ascii.eqb_spec c "$") as [->|Hd].
  - cbn [orb app]. now rewrite unescape_dollar_pair, IH.
  - cbn [orb]. rewrite Hc. cbn [app].
    pose proof (escape_head s) as Hh.
    destruct (escape s) as [|x r] eqn:E.
    + rewrite <- IH. reflexivity.
    + cbn [stops] in Hh. rewrite unescape_dollar_other, IH; [reflexivity|].
      destruct (Ascii.eqb_spec x "$") as [->|_]; [discriminate Hh|].
      apply andb_false_r.
Qed.

(** For a text without braces, in particular an identifier with its [$],
    the width [alignTags] measures after [escape] is the length of the text
    itself: the replacement of [outputWidth] undoes the one of [escape]. *)
Theorem outputWidth_escape (s : str) :
  existsb is_brace s = false ->
  unescape_dollar (escape s) = s /\ outputWidth (escape s) = length s.
Proof.
  intros H. split; [now apply unescape_dollar_escape|].
  unfold outputWidth. rewrite scan_escape, unwrap_text.
  now rewrite unescape_dollar_escape.
Qed.

Lemma outputWidth_escape_witness :
  unescape_dollar (escape "$scope") = "$scope"
  /\ outputWidth (escape "$scope") = 6.
Proof. apply (outputWidth_escape "$scope"). reflexivity. Defined.

(** ** splitByCommas: the tokens *)

Lemma dropWhile_idem p s : dropWhile p (dropWhile p s) = dropWhile p s.
Proof.
  induction s as [|c s IH]; [reflexivity|]. cbn [dropWhile].
  destruct (p c) eqn:E; [assumption|]. cbn [dropWhile]. now rewrite E.
Qed.

Lemma rstrip_snoc a c :
  rstrip (a ++ [c]) = if is_space c then rstrip a else a ++ [c].
Proof.
  unfold rstrip. rewrite rev_app_distr. cbn [rev app dropWhile].
  destruct (is_space c); [reflexivity|].
  cbn [rev]. now rewrite rev_involutive.
Qed.

Lemma rstrip_idem s : rstrip (rstrip s) = rstrip s.
Proof.
  unfold rstrip. now rewrite rev_involutive, dropWhile_idem.
Qed.

Lemma lstrip_fixed s : lstrip s = s <-> stops is_space s = true.
Proof.
  destruct s as [|c s]; [split; reflexivity|].
  unfold lstrip. cbn [dropWhile stops]. destruct (is_space c) eqn:E.
  - split; [|discriminate]. intros H.
    assert (L : forall t, length (dropWhile is_space t) <= length t).
    { induction t as [|x t IH]; cbn [dropWhile]; [lia|].
      destruct (is_space x); cbn [length]; lia. }
    specialize (L s). rewrite H in L. cbn [length] in L. lia.
  - split; reflexivity.
Qed.

Lemma rstrip_keeps_head s :
  stops is_space s = true -> stops is_space (rstrip s) = true.
Proof.
  induction s as [|c a IH] using rev_ind; [reflexivity|].
  intros H. rewrite rstrip_snoc. destruct (is_space c) eqn:E; [|assumption].
  apply IH. destruct a as [|x a]; [|exact H].
  cbn [app stops] in H. now rewrite E in H.
Qed.

Lemma lstrip_stops s : stops is_space (lstrip s) = true.
Proof.
  unfold lstrip. induction s as [|c s IH]; [reflexivity|].
  cbn [dropWhile]. destruct (is_space c) eqn:E; [assumption|].
  cbn [stops]. now rewrite E.
Qed.

Lemma strip_idem s : strip (strip s) = strip s.
Proof.
  unfold strip.
  assert (H : lstrip (rstrip (lstrip s)) = rstrip (lstrip s)).
  { apply lstrip_fixed, rstrip_keeps_head, lstrip_stops. }
  now rewrite H, rstrip_idem.
Qed.

Lemma rawOut_commas st s : length (rawOut st s) <= count_occ ascii_dec s ","%char.
Proof.
  revert st. induction s as [|c s IH]; intros st; [apply Nat.le_refl|].
  cbn [rawOut]. rewrite length_app. specialize (IH (splitStep st c)).
  unfold at_boundary.
  destruct (Ascii.eqb_spec c ",") as [->|Hc].
  - rewrite count_occ_cons_eq by reflexivity.
    destruct (negb (nextIsLiteral st) && negb (insideQuotes st));
      cbn [andb length]; lia.
  - rewrite andb_false_r. cbn [length].
    rewrite count_occ_cons_neq by assumption. lia.
Qed.

(** The tokens of [splitByCommas]: there is none exactly for the empty
    string; every token is trimmed; and there is at most one token more than
    the string has commas. *)
Theorem splitByCommas_tokens (s : str) :
  (splitByCommas s = [] <-> s = [])
  /\ Forall (fun t => strip t = t) (splitByCommas s)
  /\ length (splitByCommas s) <= S (count_occ ascii_dec s ","%char).
Proof.
  destruct s as [|c s].
  - split; [split; reflexivity|]. split; [constructor | cbn; lia].
  - unfold splitByCommas. cbv zeta. rewrite splitRun_out.
    change (out splitInit) with (@nil str). rewrite app_nil_l.
    split; [|split].
    + split; [|discriminate]. intros H.
      destruct (map strip (rawOut splitInit (c :: s))); discriminate H.
    + apply Forall_app. split.
      * apply Forall_forall. intros t Ht. apply in_map_iff in Ht.
        destruct Ht as (x & <- & _). apply strip_idem.
      * constructor; [apply strip_idem | constructor].
    + rewrite length_app, length_map. cbn [length].
      pose proof (rawOut_commas splitInit (c :: s)). lia.
Qed.

(** ** splitByCommas after join *)

Lemma splitRun_plain o cur mq b :
  forallb is_plain b = true ->
  splitRun (mkSplit o cur mq false false) b
  = mkSplit o (cur ++ b) mq false false.
Proof.
  revert cur. induction b as [|c b IH]; intros cur H.
  - cbn. now rewrite app_nil_r.
  - cbn [forallb] in H. apply andb_true_iff in H. destruct H as [Hc Hb].
    change (splitRun ?st (c :: b)) with (splitRun (splitStep st c) b).
    unfold is_plain in Hc. apply negb_true_iff, orb_false_iff in Hc.
    destruct Hc as [Hc1 Hc2].
    assert (Hf : find_char c openQuotes = None).
    { revert Hc2. generalize openQuotes. intros q.
      induction q as [|x q IHq]; [reflexivity|]. cbn [existsb find_char].
      intros Hq. apply orb_false_iff in Hq. destruct Hq as [Hx Hq].
      rewrite Ascii.eqb_sym, Hx. now rewrite IHq. }
    unfold splitStep.
    cbn [nextIsLiteral insideQuotes out current matchingQuote].
    rewrite Hc1, Hf, IH by assumption. now rewrite <- app_assoc.
Qed.

Lemma strip_after_space t : strip (" " ++ t) = strip t.
Proof. reflexivity. Qed.

Lemma splitStep_comma_space o cur mq :
  splitStep (splitStep (mkSplit o cur mq false false) ",") " "
  = mkSplit (o ++ [strip cur]) " " mq false false.
Proof. reflexivity. Qed.

Lemma splitRun_join o cur mq t ts :
  Forall plain_token (t :: ts) ->
  let st := splitRun (mkSplit o cur mq false false) (join ", " (t :: ts)) in
  out st ++ [strip (current st)] = o ++ strip (cur ++ t) :: ts.
Proof.
  revert o cur t. induction ts as [|t' ts IH]; intros o cur t H st; subst st.
  - inversion H as [|? ? [_ Ht] _]; subst. cbn [join].
    now rewrite splitRun_plain.
  - inversion H as [|? ? [_ Ht] H']; subst.
    rewrite join_cons by discriminate.
    rewrite splitRun_app, splitRun_plain by assumption.
    change (splitRun ?st (", " ++ ?r))
      with (splitRun (splitStep (splitStep st ",") " ") r).
    rewrite splitStep_comma_space.
    rewrite (IH _ _ _ H'), strip_after_space, <- app_assoc. cbn [app].
    inversion H' as [|? ? [Hs _] _]; subst. now rewrite Hs.
Qed.

Lemma splitByCommas_after_join (ts : list str) :
  Forall plain_token ts -> join ", " ts <> [] ->
  splitByCommas (join ", " ts) = ts.
Proof.
  intros H Hne. destruct ts as [|t ts]; [now elim Hne|].
  unfold splitByCommas.
  destruct (join ", " (t :: ts)) as [|c r] eqn:E; [now elim Hne|].
  rewrite <- E. cbv zeta. unfold splitInit.
  rewrite (splitRun_join [] [] None t ts H). cbn [app].
  inversion H as [|? ? [Hs _] _]; subst. now rewrite Hs.
Qed.

(** Splitting undoes joining: for tokens that are trimmed and hold neither
    a comma nor an opening character, [splitByCommas] gives back the tokens
    joined with [", "]; the single empty token apart, whose text is the
    empty string that splits into no token. *)
Theorem splitByCommas_join (ts : list str) :
  Forall plain_token ts -> join ", " ts <> [] ->
  splitByCommas (join ", " ts) = ts.
Proof. apply splitByCommas_after_join. Qed.

Lemma splitByCommas_join_witness :
  splitByCommas (join ", " ["foo"; "bar = 1"; "baz"])
  = ["foo"; "bar = 1"; "baz"].
Proof.
  apply (splitByCommas_join ["foo"; "bar = 1"; "baz"]).
  - repeat constructor.
  - discriminate.
Defined.

(** ** getDocBlockRegion *)

Lemma block_start_spec v point :
  block_start v point <= point
  /\ (forall p, block_start v point <= p < point ->
                in_comment_block v p = true)
  /\ (block_start v point = 0
      \/ in_comment_block v (block_start v point - 1) = false).
Proof.
  induction point as [|p IH]; cbn [block_start].
  - split; [lia|]. split; [intros p Hp; lia | now left].
  - destruct (in_comment_block v p) eqn:E.
    + destruct IH as (H1 & H2 & H3). split; [lia|]. split; [|exact H3].
      intros q Hq. destruct (Nat.eq_dec q p) as [->|Hne]; [exact E|].
      apply H2. lia.
    + split; [lia|]. split; [intros q Hq; lia|]. right.
      now replace (S p - 1) with p by lia.
Qed.

Lemma block_end_spec v n e :
  e <= block_end v n e <= e + n
  /\ (forall p, e <= p < block_end v n e -> in_comment_block v p = true)
  /\ (block_end v n e = e + n
      \/ in_comment_block v (block_end v n e) = false).
Proof.
  revert e. induction n as [|n IH]; intros e; cbn [block_end].
  - split; [lia|]. split; [intros p Hp; lia | left; lia].
  - destruct (in_comment_block v e) eqn:E.
    + destruct (IH (S e)) as (H1 & H2 & H3). split; [lia|]. split.
      * intros q Hq. destruct (Nat.eq_dec q e) as [->|Hne]; [exact E|].
        apply H2. lia.
      * destruct H3 as [H3|H3]; [left; lia | now right].
    + split; [lia|]. split; [intros q Hq; lia | now right].
Qed.

(** The region of [getDocBlockRegion] is the longest run of points in a
    block comment around the starting point: it holds the point, every
    point of it is in a block comment, the point before it (if any) is not,
    and it ends at the end of the buffer or before a point that is not. *)
Theorem getDocBlockRegion_longest_run (v : view) (point : nat) :
  let (a, b) := getDocBlockRegion v point in
  a <= point <= b
  /\ (forall p, a <= p < b -> in_comment_block v p = true)
  /\ (a = 0 \/ in_comment_block v (a - 1) = false)
  /\ (Nat.max point (view_size v) <= b \/ in_comment_block v b = false)
  /\ b <= Nat.max point (view_size v).
Proof.
  unfold getDocBlockRegion.
  destruct (block_start_spec v point) as (S1 & S2 & S3).
  destruct (block_end_spec v (view_size v - point) point) as (E1 & E2 & E3).
  split; [lia|]. split; [|split; [exact S3|split]].
  - intros p Hp. destruct (Nat.lt_ge_cases p point).
    + apply S2. lia.
    + apply E2. lia.
  - destruct E3 as [E3|E3]; [left; lia | now right].
  - lia.
Qed.

(** ** fixTabStops, once more *)

Lemma renumber_again count ps :
  renumber count (fst (renumber count ps)) = renumber count ps.
Proof.
  revert count. induction ps as [|p ps IH]; intros count; [reflexivity|].
  destruct p as [c|ix body]; cbn [renumber].
  - specialize (IH count). destruct (renumber count ps) as [r n'].
    cbn [fst] in *. cbn [renumber]. now rewrite IH.
  - specialize (IH (S count)). destruct (renumber (S count) ps) as [r n'].
    cbn [fst] in *. cbn [renumber]. now rewrite IH.
Qed.

Lemma fixTabStops_from_again count out :
  fixTabStops_from count (fixTabStops_from count out)
  = fixTabStops_from count out.
Proof.
  revert count. induction out as [|l out IH]; intros count; [reflexivity|].
  cbn [fixTabStops_from].
  pose proof (renumber_renumbered l count) as Hr.
  pose proof (renumber_again count (scan l)) as Ha.
  destruct (renumber count (scan l)) as [ps n'] eqn:E. cbn [fst] in *.
  cbn [fixTabStops_from]. rewrite (rescan l ps Hr), Ha.
  now rewrite IH.
Qed.

Lemma renumber_text count p :
  renumber count (map Text p) = (map Text p, count).
Proof.
  induction p as [|c p IH]; [reflexivity|]. cbn [map renumber].
  now rewrite IH.
Qed.

Lemma render_text p : render (map Text p) = p.
Proof.
  unfold render. induction p as [|c p IH]; [reflexivity|].
  cbn [map flat_map render_piece app]. now rewrite IH.
Qed.

(** [fixTabStops] is idempotent: a second pass finds the tab stops the first
    one wrote and gives them the same numbers.  It keeps the number of
    lines, and a line without [$] is left untouched wherever it stands. *)
Theorem fixTabStops_idempotent (out : list str) :
  fixTabStops (fixTabStops out) = fixTabStops out
  /\ length (fixTabStops out) = length out
  /\ (forall i line,
        nth_error out i = Some line ->
        existsb (fun c => Ascii.eqb c "$") line = false ->
        nth_error (fixTabStops out) i = Some line).
Proof.
  split; [apply fixTabStops_from_again|].
  split; [apply fixTabStops_from_length|].
  unfold fixTabStops. generalize 0 as count.
  induction out as [|l out IH]; intros count i line Hi Hp.
  - destruct i; discriminate Hi.
  - cbn [fixTabStops_from]. destruct i as [|i]; cbn [nth_error] in Hi.
    + injection Hi as ->.
      pose proof (scan_plain line [] Hp) as Hs. rewrite app_nil_r in Hs.
      change (scan []) with (@nil piece) in Hs. rewrite app_nil_r in Hs.
      rewrite Hs, renumber_text. cbn [nth_error]. now rewrite render_text.
    + destruct (renumber count (scan l)) as [ps n']. cbn [nth_error].
      now apply IH.
Qed.

(** ** The blank lines between sections *)

Lemma spacer_all_lines_length no_description todo lastTag :
  length todo <= length (spacer_all_lines no_description todo lastTag)
  <= 2 * length todo.
Proof.
  revert lastTag. induction todo as [|line rest IH]; intros lastTag;
    [cbn; lia|].
  cbn [spacer_all_lines].
  destruct (tag_of line) as [tag|].
  - destruct (negb (same_tag lastTag tag)).
    + specialize (IH (Some tag)).
      destruct (if no_description then is_some lastTag else true);
        cbn [app length]; lia.
    + cbn [length]. specialize (IH lastTag). lia.
  - cbn [length]. specialize (IH lastTag). lia.
Qed.

Lemma spacer_after_lines_length todo lastLineIsTag :
  length todo <= length (spacer_after_lines todo lastLineIsTag)
  <= length todo + (if lastLineIsTag then 0 else 1)
  /\ length (spacer_after_lines todo lastLineIsTag) <= 2 * length todo.
Proof.
  revert lastLineIsTag. induction todo as [|line rest IH];
    intros lastLineIsTag; [destruct lastLineIsTag; cbn; lia|].
  cbn [spacer_after_lines]. destruct (tag_of line) as [tag|].
  - specialize (IH true). cbn beta iota in IH.
    destruct lastLineIsTag; cbn [app length]; lia.
  - cbn [length]. specialize (IH lastLineIsTag). lia.
Qed.

(** The spacing of [createSnippet] only adds empty lines: the lines that
    are not empty stay, in their order; a line gets at most one empty line
    before it; and the mode [after_description] adds at most one empty line
    in all. *)
Theorem spaced_adds_blank_lines (st : pluginSettings) (out : list str) :
  filter nonempty (spaced st out) = filter nonempty out
  /\ length out <= length (spaced st out) <= 2 * length out
  /\ (spacer_between_sections st = SpacerAfterDescription ->
      length (spaced st out) <= S (length out))
  /\ (spacer_between_sections st = SpacerOff -> spaced st out = out).
Proof.
  split; [apply spaced_filter|].
  assert (A : forall nd, length out
                <= length (spacer_all (rounds out) nd [] out None)
                <= 2 * length out).
  { intros nd. unfold rounds. rewrite spacer_all_enough by lia.
    apply spacer_all_lines_length. }
  assert (B : length out <= length (spacer_after (rounds out) [] out false)
              <= S (length out)
              /\ length (spacer_after (rounds out) [] out false)
                 <= 2 * length out).
  { unfold rounds. rewrite spacer_after_enough by lia. cbn [app].
    pose proof (spacer_after_lines_length out false) as L.
    cbn beta iota in L. lia. }
  unfold spaced. destruct (spacer_between_sections st).
  - split; [lia|]. split; [discriminate | reflexivity].
  - split; [apply A|]. split; discriminate.
  - destruct (is_true (function_description st)).
    + split; [lia|]. split; [intros _; apply B | discriminate].
    + split; [lia|]. split; [intros _; lia | discriminate].
Qed.

(** ** More facts about the matcher *)

Lemma orelse_none_r {A} (a : option A) : Re.orelse a None = a.
Proof. now destruct a. Qed.

(** A repetition whose continuation refuses every character of the class
    takes the longest run. *)
Lemma greedy_chr_committed p k bef rst cp :
  (forall b c r, p c = true -> k (Re.mkM b (c :: r) cp) = None) ->
  greedy_chr p k bef rst cp
  = k (Re.mkM (rev (takeWhile p rst) ++ bef) (dropWhile p rst) cp).
Proof.
  intros Hk. revert bef. induction rst as [|c t IH]; intros bef.
  - reflexivity.
  - cbn [greedy_chr takeWhile dropWhile]. destruct (p c) eqn:E; [|reflexivity].
    rewrite IH, (Hk bef c t E), orelse_none_r. cbn [rev].
    now rewrite <- app_assoc.
Qed.

Lemma match_here_bol r m :
  Re.before m <> [] -> Re.match_here (Re.Seq Re.Bol r) m = None.
Proof.
  intros H. unfold Re.match_here. cbn [Re.rmatch Re.before].
  destruct (Re.before m); [now elim H | reflexivity].
Qed.

Lemma search_from_bol n r m :
  Re.before m <> [] -> Re.search_from n (Re.Seq Re.Bol r) m = None.
Proof.
  revert m. induction n as [|n IH]; intros m H; cbn [Re.search_from];
    rewrite match_here_bol by assumption.
  - reflexivity.
  - unfold Re.step_over. destruct (Re.rest m); [reflexivity|].
    apply IH. discriminate.
Qed.

(** A pattern anchored at the start is only tried there. *)
Lemma search_bol r s :
  Re.search (Re.Seq Re.Bol r) s = Re.rematch (Re.Seq Re.Bol r) s.
Proof.
  unfold Re.search, Re.rematch.
  destruct s as [|c s]; cbn [length Re.search_from];
    destruct (Re.match_here _ _); try reflexivity.
  unfold Re.step_over, Re.start. cbn [Re.rest].
  apply search_from_bol. discriminate.
Qed.

(** No match starts inside [a]: the search moves past it. *)
Lemma search_from_skip r a : forall n b s cp,
  (forall a1 a2, a = a1 ++ a2 -> a2 <> [] ->
     Re.match_here r (Re.mkM (rev a1 ++ b) (a2 ++ s) cp) = None) ->
  length a <= n ->
  Re.search_from n r (Re.mkM b (a ++ s) cp)
  = Re.search_from (n - length a) r (Re.mkM (rev a ++ b) s cp).
Proof.
  induction a as [|c a IH]; intros n b s cp H Hn.
  - now rewrite Nat.sub_0_r.
  - destruct n as [|n]; [cbn in Hn; lia|].
    cbn [Re.search_from app].
    pose proof (H [] (c :: a) eq_refl ltac:(discriminate)) as H0.
    cbn [rev app] in H0. rewrite H0.
    unfold Re.step_over. cbn [Re.rest Re.before Re.caps length Nat.sub].
    rewrite IH.
    + cbn [rev]. now rewrite <- app_assoc.
    + intros a1 a2 -> Ha2.
      specialize (H (c :: a1) a2 eq_refl Ha2).
      cbn [rev] in H. now rewrite <- app_assoc in H.
    + cbn [length] in Hn. lia.
Qed.

Lemma search_from_none r n m :
  (forall a1 a2, Re.rest m = a1 ++ a2 ->
     Re.match_here r (Re.mkM (rev a1 ++ Re.before m) a2 (Re.caps m)) = None) ->
  Re.search_from n r m = None.
Proof.
  revert m. induction n as [|n IH]; intros [b rst cp] H;
    cbn [Re.rest Re.before Re.caps] in H; cbn [Re.search_from].
  - pose proof (H [] rst eq_refl) as H0. cbn [rev app] in H0.
    now rewrite H0.
  - pose proof (H [] rst eq_refl) as H0. cbn [rev app] in H0.
    rewrite H0. unfold Re.step_over. cbn [Re.rest].
    destruct rst as [|c t]; [reflexivity|].
    apply IH. cbn [Re.rest Re.before Re.caps]. intros a1 a2 ->.
    specialize (H (c :: a1) a2 eq_refl). cbn [rev] in H.
    now rewrite <- app_assoc in H.
Qed.

Lemma rmatch_seq r1 r2 m k :
  Re.rmatch (Re.Seq r1 r2) m k
  = Re.rmatch r1 m (fun m' => Re.rmatch r2 m' k).
Proof. reflexivity. Qed.

Lemma rmatch_bol_start s cp k :
  Re.rmatch Re.Bol (Re.mkM [] s cp) k = k (Re.mkM [] s cp).
Proof. reflexivity. Qed.

Lemma match_here_caps r b rst cp :
  Re.match_here r (Re.mkM b rst cp) = Re.match_here r (Re.mkM b rst []).
Proof. reflexivity. Qed.

(** ** isExistingComment *)

Lemma comment_opener K line :
  greedy_chr is_space (fun m' => Re.rmatch (Re.lit "*") m' K) [] line []
  = if startswith "*" (lstrip line)
    then K (Re.mkM ("*"%char :: rev (takeWhile is_space line))
                   (skipn 1 (lstrip line)) [])
    else None.
Proof.
  rewrite greedy_chr_committed.
  - rewrite rmatch_lit. cbn [Re.rest Re.before Re.caps].
    unfold lstrip. rewrite app_nil_r. reflexivity.
  - intros b c r Hc. rewrite rmatch_lit. cbn [Re.rest startswith].
    destruct (Ascii.eqb_spec "*" c) as [<-|_]; [discriminate Hc | reflexivity].
Qed.

Lemma isExistingComment_lstrip (line : str) :
  isExistingComment line = startswith "*" (lstrip line).
Proof.
  unfold isExistingComment, existing_comment_re. cbn [Re.seq].
  rewrite search_bol, is_some_rematch.
  rewrite rmatch_seq, rmatch_bol_start, rmatch_seq. unfold Re.ws.
  rewrite rmatch_star_chr. cbn [Re.before Re.rest Re.caps].
  rewrite (comment_opener Some).
  now destruct (startswith "*" (lstrip line)).
Qed.

(** [isExistingComment] holds exactly of the lines whose first character
    after the leading white space is [*]. *)
Theorem isExistingComment_star (line : str) :
  isExistingComment line = startswith "*" (lstrip line).
Proof. apply isExistingComment_lstrip. Qed.

(** ** getParser *)

Lemma forallb_existsb_false {A} (p : A -> bool) l :
  existsb p l = false <-> forallb (fun x => negb (p x)) l = true.
Proof.
  induction l as [|x l IH]; [split; reflexivity|]. cbn [existsb forallb].
  rewrite orb_false_iff, andb_true_iff, negb_true_iff, IH. reflexivity.
Qed.

Lemma match_here_none_rmatch r m :
  Re.rmatch r (Re.mkM (Re.before m) (Re.rest m) []) Some = None ->
  Re.match_here r m = None.
Proof. intros H. unfold Re.match_here. now rewrite H. Qed.

(** The parser is the CoffeeScript one exactly when the first language the
    scope names after [source.] is [coffee]: a scope that starts with
    [source.] and a language gives the parser of that language, and a scope in
    which [source.] does not occur gives the JavaScript one. *)
Theorem getParser_language (scope : str) :
  (forall lang rest,
     scope = "source." ++ lang ++ rest ->
     lang <> [] -> forallb lang_char lang = true ->
     stops lang_char rest = true ->
     getParser scope = if str_eqb lang "coffee" then Coffee else Javascript)
  /\ (~ contains "source." scope -> getParser scope = Javascript).
Proof.
  split.
  - intros lang rest -> Hne Hl Hr. unfold getParser.
    assert (H : exists f,
               Re.rematch source_re ("source." ++ lang ++ rest) = Some f
               /\ Re.group f "1" = Some lang).
    { unfold Re.rematch, Re.match_here, source_re, Re.start.
      cbn [Re.seq Re.before Re.rest Re.rmatch].
      change (xorb (Re.word_at []) (Re.word_at ("source." ++ lang ++ rest)))
        with true. cbn iota.
      rewrite rmatch_lit. cbn [Re.rest Re.before Re.caps].
      rewrite startswith_app, skipn_app_exact.
      destruct lang as [|c cs]; [now elim Hne|].
      cbn [forallb] in Hl. apply andb_true_iff in Hl. destruct Hl as [Hc Hcs].
      change (Re.plus (Re.Chr lang_char))
        with (Re.Seq (Re.Chr lang_char) (Re.star (Re.Chr lang_char))).
      cbn [Re.rmatch Re.rest app]. rewrite Hc.
      rewrite rmatch_star_chr. cbn [Re.before Re.rest Re.caps].
      rewrite greedy_chr_total by discriminate.
      rewrite takeWhile_stop, dropWhile_stop by assumption.
      eexists. split; [reflexivity|].
      unfold Re.group, Re.pos.
      cbn [Re.m_after Re.caps Re.before Re.rest Re.lookup].
      change (str_eqb "1" "1") with true. cbn iota.
      rewrite app_nil_r, length_app, length_rev. cbn [length].
      replace (length cs + S (length (rev "source.")) - length (rev "source."))
        with (length (c :: cs)) by (cbn [length]; lia).
      f_equal. exact (firstn_app_exact (c :: cs) rest). }
    destruct H as (f & Hf & Hg).
    rewrite is_some_search_here by (now rewrite Hf).
    rewrite Hf. unfold group_or_empty. now rewrite Hg.
  - intros Hn. unfold getParser.
    assert (H : Re.search source_re scope = None).
    { unfold Re.search. apply search_from_none.
      unfold Re.start. cbn [Re.rest Re.before Re.caps].
      intros a1 a2 ->. apply match_here_none_rmatch.
      unfold source_re. cbn [Re.seq Re.before Re.rest Re.rmatch].
      destruct (xorb _ _); [|reflexivity].
      rewrite rmatch_lit. cbn [Re.rest].
      destruct (startswith "source." a2) eqn:E; [|reflexivity].
      exfalso. apply Hn. apply startswith_spec in E. destruct E as [r ->].
      now exists a1, r. }
    now rewrite H.
Qed.

Lemma getParser_language_witness :
  getParser "source.coffee meta.function.coffee" = Coffee.
Proof.
  destruct (getParser_language "source.coffee meta.function.coffee") as [H _].
  apply (H "coffee" " meta.function.coffee"); reflexivity || discriminate.
Defined.

(** ** The trailing text *)

Lemma dropWhile_all p (s : str) :
  forallb p s = true -> dropWhile p s = [].
Proof.
  induction s as [|c s IH]; [reflexivity|]. cbn [forallb dropWhile].
  intros H. apply andb_true_iff in H. destruct H as [-> H]. now apply IH.
Qed.

Lemma takeWhile_all p (s : str) :
  forallb p s = true -> takeWhile p s = s.
Proof.
  induction s as [|c s IH]; [reflexivity|]. cbn [forallb takeWhile].
  intros H. apply andb_true_iff in H. destruct H as [-> H]. now rewrite IH.
Qed.

Lemma takeWhile_dropWhile p (s : str) : takeWhile p s ++ dropWhile p s = s.
Proof.
  induction s as [|c s IH]; [reflexivity|]. cbn [takeWhile dropWhile].
  destruct (p c); [cbn [app]; now rewrite IH | reflexivity].
Qed.

Lemma dropWhile_nil_all p (s : str) :
  dropWhile p s = [] -> forallb p s = true.
Proof.
  induction s as [|c s IH]; [reflexivity|]. cbn [forallb dropWhile].
  destruct (p c); [exact IH | discriminate].
Qed.

(** White space, then the end of the text. *)
Lemma spaces_to_end bef rst cp :
  greedy_chr is_space (fun m => Re.rmatch Re.Eol m Some) bef rst cp
  = if forallb is_space rst then Some (Re.mkM (rev rst ++ bef) [] cp)
    else None.
Proof.
  revert bef. induction rst as [|c t IH]; intros bef; [reflexivity|].
  cbn [greedy_chr forallb]. destruct (is_space c) eqn:E; cbn [andb].
  - rewrite IH. destruct (forallb is_space t) eqn:F.
    + cbn [Re.orelse rev]. now rewrite <- app_assoc.
    + cbn [Re.orelse Re.rmatch Re.rest].
      destruct t as [|x t]; [discriminate F | reflexivity].
  - cbn [Re.rmatch Re.rest]. destruct t as [|x t]; [|reflexivity].
    destruct (Ascii.eqb_spec c newline) as [->|_]; [discriminate E|reflexivity].
Qed.

Lemma trailing_closer_here b rst cp :
  Re.match_here trailing_closer_re (Re.mkM b rst cp)
  = if closes rst
    then Some (Re.mkFound (length b) (length b + length rst) rst
                 (Re.mkM (rev rst ++ b) [] []))
    else None.
Proof.
  unfold Re.match_here, trailing_closer_re, closes.
  cbn [Re.seq Re.before Re.rest]. unfold Re.ws.
  rewrite rmatch_seq, rmatch_star_chr. cbn [Re.before Re.rest Re.caps].
  rewrite greedy_chr_committed.
  2:{ intros b0 c r Hc. rewrite rmatch_seq, rmatch_lit.
      cbn [Re.rest startswith].
      destruct (Ascii.eqb_spec "*" c) as [<-|_]; [discriminate Hc|reflexivity]. }
  rewrite rmatch_seq, rmatch_lit. cbn [Re.rest Re.before Re.caps].
  fold (lstrip rst).
  destruct (startswith "*/" (lstrip rst)) eqn:E; [|reflexivity].
  cbn [andb]. rewrite rmatch_seq, rmatch_star_chr.
  cbn [Re.before Re.rest Re.caps]. rewrite spaces_to_end.
  change (length "*/") with 2.
  destruct (forallb is_space (skipn 2 (lstrip rst))) eqn:F; [|reflexivity].
  apply startswith_spec in E. destruct E as [r E].
  assert (R : rst = takeWhile is_space rst ++ "*/" ++ r).
  { rewrite <- E. symmetry. apply takeWhile_dropWhile. }
  rewrite E. change (skipn 2 ("*/" ++ r)) with r.
  assert (X : rev r ++ rev "*/" ++ rev (takeWhile is_space rst) ++ b
              = rev rst ++ b).
  { rewrite R at 2. rewrite !rev_app_distr, <- !app_assoc. reflexivity. }
  rewrite X. unfold Re.pos. cbn [Re.before].
  rewrite length_app, length_rev.
  replace (length rst + length b - length b) with (length rst) by lia.
  rewrite firstn_all. f_equal. f_equal. lia.
Qed.

Lemma closes_ends rst :
  closes rst = true -> exists w1 w2, rst = w1 ++ "*/" ++ w2
    /\ forallb is_space w1 = true /\ forallb is_space w2 = true.
Proof.
  unfold closes. intros H. apply andb_true_iff in H. destruct H as [E F].
  apply startswith_spec in E. destruct E as [r E].
  exists (takeWhile is_space rst), r. rewrite E in F.
  split; [|split].
  - rewrite <- E. symmetry. apply takeWhile_dropWhile.
  - clear. induction rst as [|c t IH]; [reflexivity|]. cbn [takeWhile].
    destruct (is_space c) eqn:X; [cbn [forallb]; now rewrite X|reflexivity].
  - exact F.
Qed.

Lemma rstrip_fixed_last s c : rstrip (s ++ [c]) = s ++ [c] -> is_space c = false.
Proof.
  rewrite rstrip_snoc. destruct (is_space c); [|reflexivity].
  intros H. exfalso.
  assert (L : forall t, length (rstrip t) <= length t).
  { intros t. unfold rstrip. rewrite length_rev.
    rewrite <- (length_rev t). generalize (rev t). clear.
    induction l as [|x l IH]; cbn [dropWhile]; [lia|].
    destruct (is_space x); cbn [length]; lia. }
  specialize (L s). rewrite H, length_app in L. cbn [length] in L. lia.
Qed.

Lemma strip_fixed_right s : rstrip (strip s) = strip s.
Proof. unfold strip. apply rstrip_idem. Qed.

Lemma rstrip_app_spaces s w : forallb is_space w = true -> rstrip (s ++ w) = rstrip s.
Proof.
  induction w as [|c w IH] using rev_ind; intros H.
  - now rewrite app_nil_r.
  - rewrite forallb_app in H. apply andb_true_iff in H. destruct H as [Hw Hc].
    cbn [forallb] in Hc. rewrite andb_true_r in Hc.
    rewrite app_assoc, rstrip_snoc, Hc. now apply IH.
Qed.

Lemma rstrip_split s :
  exists w, s = rstrip s ++ w /\ forallb is_space w = true
            /\ rstrip (rstrip s) = rstrip s.
Proof.
  induction s as [|c s IH] using rev_ind.
  - exists []. repeat split.
  - rewrite rstrip_snoc. destruct (is_space c) eqn:E.
    + destruct IH as (w & H1 & H2 & H3). exists (w ++ [c]).
      split; [|split].
      * rewrite app_assoc. now rewrite <- H1.
      * rewrite forallb_app, H2. cbn. now rewrite E.
      * exact H3.
    + exists []. rewrite app_nil_r. split; [reflexivity|].
      split; [reflexivity|]. now rewrite rstrip_snoc, E.
Qed.

Lemma sub_from_end n r repl b cp :
  Re.match_here r (Re.mkM b [] cp) = None ->
  Re.sub_from n r repl (Re.mkM b [] cp) = [].
Proof.
  intros H. destruct n as [|n]; [reflexivity|].
  cbn [Re.sub_from Re.rest length Re.search_from]. now rewrite H.
Qed.

Lemma search_from_here n r m f :
  Re.match_here r m = Some f -> Re.search_from n r m = Some f.
Proof. intros H. destruct n; cbn [Re.search_from]; now rewrite H. Qed.

Lemma last_closer (s : str) d : last (s ++ "*/") d = "/"%char.
Proof.
  change (s ++ "*/") with (s ++ "*" ++ "/"). rewrite app_assoc.
  apply last_last.
Qed.

Lemma closes_suffix a2 w :
  a2 <> [] -> rstrip a2 = a2 -> closes (a2 ++ w ++ "*/") = false.
Proof.
  intros Hne Hr.
  destruct (closes (a2 ++ w ++ "*/")) eqn:C; [|reflexivity]. exfalso.
  destruct (closes_ends _ C) as (w1 & w2 & E & H1 & H2).
  (* the text ends in the closer, so nothing follows the closer found *)
  assert (W2 : w2 = []).
  { destruct w2 as [|x w2] using rev_ind; [reflexivity|].
    rewrite forallb_app in H2. apply andb_true_iff in H2.
    destruct H2 as [_ Hx]. cbn [forallb] in Hx. rewrite andb_true_r in Hx.
    pose proof (last_closer (a2 ++ w) " "%char) as L.
    rewrite <- app_assoc, E in L. rewrite !app_assoc in L.
    rewrite last_last in L. subst x. discriminate Hx. }
  subst w2. rewrite app_nil_r in E.
  assert (E' : a2 ++ w = w1).
  { apply (app_inv_tail "*/"). now rewrite <- app_assoc. }
  destruct a2 as [|c a2] using rev_ind; [now elim Hne|].
  apply rstrip_fixed_last in Hr.
  rewrite <- E' in H1. rewrite !forallb_app in H1.
  apply andb_true_iff in H1. destruct H1 as [H1 _].
  apply andb_true_iff in H1. destruct H1 as [_ H1].
  cbn [forallb] in H1. rewrite Hr in H1. discriminate H1.
Qed.

(** The trailing text loses its closing [*/] with the white space before it,
    once, and is escaped; a text that does not end in the closer is only
    trimmed and escaped. *)
Theorem trailingString_closer (trailing : str) :
  (forall body, strip trailing = body ++ "*/" ->
     trailingString trailing = escape (rstrip body))
  /\ ((forall body, strip trailing <> body ++ "*/") ->
      trailingString trailing = escape (strip trailing)).
Proof.
  unfold trailingString. split.
  - intros body E. rewrite E. f_equal.
    destruct (rstrip_split body) as (w & Hb & Hw & Hr).
    set (a := rstrip body) in *.
    unfold Re.sub, Re.start. cbn [Re.sub_from Re.rest].
    assert (S : Re.search_from (length (body ++ "*/")) trailing_closer_re
                  (Re.mkM [] (body ++ "*/") [])
                = Some (Re.mkFound (length a) (length a + length (w ++ "*/"))
                          (w ++ "*/")
                          (Re.mkM (rev (w ++ "*/") ++ rev a ++ []) [] []))).
    { rewrite Hb at 2. rewrite <- app_assoc.
      rewrite search_from_skip.
      - apply search_from_here. rewrite trailing_closer_here.
        unfold closes, lstrip.
        rewrite (dropWhile_stop is_space w "*/" Hw eq_refl).
        cbn [startswith forallb skipn andb Ascii.eqb Bool.eqb].
        rewrite app_nil_r, length_rev. reflexivity.
      - intros a1 a2 Ha Hne. rewrite trailing_closer_here.
        rewrite closes_suffix; [reflexivity | assumption |].
        (* a suffix of a trimmed text is trimmed *)
        destruct a2 as [|c a2] using rev_ind; [now elim Hne|].
        rewrite rstrip_snoc.
        assert (Hc : is_space c = false).
        { apply (rstrip_fixed_last (a1 ++ a2) c).
          rewrite <- app_assoc, <- Ha. exact Hr. }
        now rewrite Hc.
      - assert (L : length body = length a + length w)
          by (rewrite Hb at 1; apply length_app).
        rewrite length_app. lia. }
    rewrite S. cbn [Re.m_start Re.m_end Re.m_after Re.pos Re.before length].
    rewrite Nat.sub_0_r.
    replace (length a <? length a + length (w ++ "*/")) with true
      by (symmetry; apply Nat.ltb_lt; rewrite length_app; cbn [length]; lia).
    rewrite sub_from_end by reflexivity.
    rewrite Hb at 1. rewrite <- app_assoc, firstn_app_exact.
    now rewrite app_nil_r.
  - intros H. f_equal. unfold Re.sub, Re.start. cbn [Re.sub_from Re.rest].
    rewrite search_from_none; [reflexivity|].
    cbn [Re.rest Re.before Re.caps]. intros a1 a2 E.
    rewrite trailing_closer_here.
    destruct (closes a2) eqn:C; [|reflexivity]. exfalso.
    destruct (closes_ends _ C) as (w1 & w2 & -> & H1 & H2).
    assert (W2 : w2 = []).
    { destruct w2 as [|x w2] using rev_ind; [reflexivity|].
      rewrite forallb_app in H2. apply andb_true_iff in H2.
      destruct H2 as [_ Hx]. cbn [forallb] in Hx. rewrite andb_true_r in Hx.
      pose proof (strip_fixed_right trailing) as R. rewrite E in R.
      replace (a1 ++ w1 ++ "*/" ++ w2 ++ [x])
        with ((a1 ++ w1 ++ "*/" ++ w2) ++ [x]) in R
        by (now rewrite <- !app_assoc).
      apply rstrip_fixed_last in R. congruence. }
    subst w2. apply (H (a1 ++ w1)). rewrite E, app_nil_r.
    now rewrite <- app_assoc.
Qed.

Lemma trailingString_closer_witness :
  trailingString " The $total */ " = escape "The $total".
Proof.
  destruct (trailingString_closer " The $total */ ") as [H _].
  apply (H "The $total "). reflexivity.
Defined.

(** ** BespokeDocsTrimAutoWhitespace *)

Lemma sub_anchored r repl s :
  Re.sub (Re.Seq Re.Bol r) repl s
  = match Re.rematch (Re.Seq Re.Bol r) s with
    | Some f =>
        if Re.m_start f <? Re.m_end f
        then firstn (Re.m_start f) s ++ repl f ++ Re.rest (Re.m_after f)
        else s
    | None => s
    end.
Proof.
  unfold Re.sub. cbn [Re.sub_from]. unfold Re.start at 1 3 4.
  cbn [Re.rest Re.pos Re.before length].
  change (Re.search_from (length s) (Re.Seq Re.Bol r) (Re.start s))
    with (Re.search (Re.Seq Re.Bol r) s).
  rewrite search_bol. destruct (Re.rematch _ s) as [f|] eqn:E;
    [|reflexivity].
  rewrite !Nat.sub_0_r.
  destruct (Re.m_start f <? Re.m_end f) eqn:L.
  - f_equal. f_equal.
    destruct (length s) as [|n]; [reflexivity|]. cbn [Re.sub_from].
    assert (B : Re.before (Re.m_after f) <> []).
    { unfold Re.rematch, Re.match_here in E.
      destruct (Re.rmatch _ _ _) as [m'|]; [|discriminate E].
      injection E as <-. cbn [Re.m_start Re.m_end Re.m_after] in *.
      unfold Re.pos, Re.start in L. cbn [Re.before length] in L.
      apply Nat.ltb_lt in L. destruct (Re.before m'); [cbn in L; lia|].
      discriminate. }
    now rewrite search_from_bol.
  - rewrite <- (firstn_skipn (Re.m_start f) s) at 3. reflexivity.
Qed.

Lemma lstrip_split line : line = takeWhile is_space line ++ lstrip line.
Proof. symmetry. apply takeWhile_dropWhile. Qed.

(** A line that holds only the star of a comment is broken after the star
    and the new line gets the same leader and the indentation; every other
    line is left as it is. *)
Theorem trimAutoWhitespace_blank (st : pluginSettings) (line : str) :
  BespokeDocsTrimAutoWhitespace.run st line
  = if blank_comment line
    then let leader := takeWhile is_space line ++ "*" in
         leader ++ [newline] ++ leader ++ indentSpaces st
    else line.
Proof.
  unfold BespokeDocsTrimAutoWhitespace.run,
    BespokeDocsTrimAutoWhitespace.blank_re.
  cbn [Re.seq]. rewrite sub_anchored.
  unfold Re.rematch, Re.match_here, Re.start. cbn [Re.before Re.rest].
  rewrite rmatch_seq, rmatch_bol_start.
  rewrite rmatch_seq.
  change (Re.rmatch (Re.Grp "1" ?r) ?m ?k)
    with (Re.rmatch r m (fun m' =>
            k (Re.mkM (Re.before m') (Re.rest m')
                 (("1", firstn (Re.pos m' - Re.pos m) (Re.rest m))
                  :: Re.caps m')))).
  rewrite rmatch_seq. unfold Re.ws. rewrite rmatch_star_chr.
  cbn [Re.before Re.rest Re.caps]. rewrite comment_opener.
  unfold blank_comment.
  destruct (startswith "*" (lstrip line)) eqn:E; [|reflexivity].
  cbn [andb Re.before Re.rest Re.caps].
  rewrite rmatch_seq, rmatch_star_chr. cbn [Re.before Re.rest Re.caps].
  rewrite spaces_to_end.
  destruct (forallb is_space (skipn 1 (lstrip line))) eqn:F; [|reflexivity].
  cbn [Re.m_start Re.m_end Re.m_after Re.rest Re.pos Re.before length].
  cbn [Nat.ltb Nat.leb firstn app]. rewrite length_app. cbn [length].
  replace (length (rev (skipn 1 (lstrip line))) + S (length (rev (takeWhile is_space line)))) with
    (S (length (rev (skipn 1 (lstrip line))) + length (rev (takeWhile is_space line)))) by lia.
  cbn [Nat.ltb Nat.leb]. rewrite app_nil_r.
  unfold group_or_empty, Re.group.
  cbn [Re.m_after Re.caps Re.lookup].
  change (str_eqb "1" "1") with true. cbn iota.
  rewrite length_rev, Nat.sub_0_r.
  apply startswith_spec in E. destruct E as [r E].
  assert (G : firstn (S (length (takeWhile is_space line))) line
              = takeWhile is_space line ++ "*").
  { rewrite (lstrip_split line) at 2. rewrite E.
    change ("*" ++ r) with ("*" ++ r). 
    replace (takeWhile is_space line ++ "*" ++ r)
      with ((takeWhile is_space line ++ "*") ++ r)
      by (now rewrite <- app_assoc).
    replace (S (length (takeWhile is_space line)))
      with (length (takeWhile is_space line ++ "*"))
      by (rewrite length_app; cbn [length]; lia).
    apply firstn_app_exact. }
  rewrite G. cbv zeta. unfold indentSpaces. reflexivity.
Qed.

(** ** BespokeDocsDeindent *)

(** A repetition that has to give one character back: the continuation
    refuses the longest run and every run shorter by two or more. *)
Lemma greedy_chr_give_back p K w r cp : forall bef,
  forallb p w = true -> stops p r = true ->
  (forall b x y t, p y = true -> K (Re.mkM b (x :: y :: t) cp) = None) ->
  (forall b, K (Re.mkM b r cp) = None) ->
  greedy_chr p K bef (w ++ r) cp
  = match rev w with
    | c :: w' => K (Re.mkM (w' ++ bef) (c :: r) cp)
    | [] => None
    end.
Proof.
  induction w as [|a w IH]; intros bef Hw Hr H2 H1.
  - cbn [app rev]. destruct r as [|x t]; cbn [greedy_chr]; [apply H1|].
    cbn [stops] in Hr. apply negb_true_iff in Hr. rewrite Hr. apply H1.
  - cbn [forallb] in Hw. apply andb_true_iff in Hw. destruct Hw as [Ha Hw].
    cbn [app greedy_chr]. rewrite Ha, IH by assumption.
    destruct w as [|b w] using rev_ind.
    + cbn [rev app Re.orelse]. reflexivity.
    + clear IHw. cbn [rev]. rewrite !rev_app_distr. cbn [rev app].
      assert (X : exists y t, (w ++ [b]) ++ r = y :: t /\ p y = true).
      { rewrite forallb_app in Hw. apply andb_true_iff in Hw.
        destruct Hw as [Hw Hb]. cbn [forallb] in Hb.
        rewrite andb_true_r in Hb.
        destruct w as [|y w]; cbn [app].
        - now exists b, r.
        - cbn [forallb] in Hw. apply andb_true_iff in Hw.
          exists y, ((w ++ [b]) ++ r). now split. }
      destruct X as (y & t & -> & Hy). rewrite (H2 bef a y t Hy).
      rewrite orelse_none_r.
      rewrite <- !app_assoc. reflexivity.
Qed.

Lemma takeWhile_forallb p (s : str) : forallb p (takeWhile p s) = true.
Proof.
  induction s as [|c s IH]; [reflexivity|]. cbn [takeWhile].
  destruct (p c) eqn:E; [cbn [forallb]; now rewrite E | reflexivity].
Qed.

Lemma dropWhile_stops p (s : str) : stops p (dropWhile p s) = true.
Proof.
  induction s as [|c s IH]; [reflexivity|]. cbn [dropWhile].
  destruct (p c) eqn:E; [assumption|]. cbn [stops]. now rewrite E.
Qed.

Lemma deindent_here w r :
  forallb is_space w = true -> stops is_space r = true ->
  Re.rematch BespokeDocsDeindent.closer_re (w ++ r)
  = if nonempty w && startswith "*/" r
    then Some (Re.mkFound 0
                 (length (w ++ "*/" ++ takeWhile not_newline (skipn 2 r)))
                 (firstn (length (w ++ "*/"
                                    ++ takeWhile not_newline (skipn 2 r)))
                         (w ++ r))
                 (Re.mkM (rev (w ++ "*/" ++ takeWhile not_newline (skipn 2 r)))
                         (dropWhile not_newline (skipn 2 r))
                         [("1", removelast w)]))
    else None.
Proof.
  intros Hw Hr.
  unfold Re.rematch, Re.match_here, BespokeDocsDeindent.closer_re, Re.start.
  cbn [Re.seq Re.before Re.rest].
  rewrite rmatch_seq, rmatch_bol_start, rmatch_seq.
  change (Re.rmatch (Re.Grp "1" ?x) ?m ?k)
    with (Re.rmatch x m (fun m' =>
            k (Re.mkM (Re.before m') (Re.rest m')
                 (("1", firstn (Re.pos m' - Re.pos m) (Re.rest m))
                  :: Re.caps m')))).
  unfold Re.ws. rewrite rmatch_star_chr. cbn [Re.before Re.rest Re.caps].
  rewrite greedy_chr_give_back; try assumption.
  - destruct w as [|c w] using rev_ind; [reflexivity|]. clear IHw.
    rewrite rev_app_distr. cbn [rev app Re.before Re.rest Re.caps].
    assert (Hc : is_space c = true).
    { rewrite forallb_app in Hw. apply andb_true_iff in Hw.
      destruct Hw as [_ Hc]. cbn in Hc. now rewrite andb_true_r in Hc. }
    rewrite rmatch_seq. cbn [Re.rmatch Re.rest Re.before Re.caps].
    rewrite Hc. rewrite rmatch_lit. cbn [Re.rest Re.before Re.caps].
    assert (N : nonempty (w ++ [c]) = true) by (now destruct w).
    rewrite N. cbn [andb].
    destruct (startswith "*/" r) eqn:E; [|reflexivity].
    change Re.dot with (Re.Chr not_newline).
    rewrite rmatch_star_chr. cbn [Re.before Re.rest Re.caps].
    rewrite greedy_chr_total by discriminate.
    change (length "*/") with 2.
    unfold Re.pos. cbn [Re.before length].
    rewrite app_nil_r, length_rev, !Nat.sub_0_r.
    assert (G : firstn (length w) ((w ++ [c]) ++ r) = w).
    { rewrite <- app_assoc. apply firstn_app_exact. }
    rewrite G, removelast_last.
    assert (B : rev (takeWhile not_newline (skipn 2 r))
                ++ rev "*/" ++ c :: rev w
                = rev ((w ++ [c]) ++ "*/" ++ takeWhile not_newline (skipn 2 r))).
    { rewrite !rev_app_distr. cbn [rev app]. rewrite <- !app_assoc.
      reflexivity. }
    rewrite B, length_rev. reflexivity.
  - intros b x y t Hy. rewrite rmatch_seq.
    cbn [Re.rmatch Re.rest Re.before Re.caps].
    destruct (is_space x); [|reflexivity].
    rewrite rmatch_lit. cbn [Re.rest startswith].
    destruct (Ascii.eqb_spec "*" y) as [<-|_]; [discriminate Hy|reflexivity].
  - intros b. rewrite rmatch_seq. cbn [Re.rmatch Re.rest Re.before Re.caps].
    destruct r as [|x t]; [reflexivity|]. cbn [stops] in Hr.
    apply negb_true_iff in Hr. now rewrite Hr.
Qed.

(** On the line of the closer [ */], with white space before it, the
    command inserts a line break and the leading white space less one
    character (and whatever follows the line); on every other line it
    inserts the line itself. *)
Theorem deindent_closer (line : str) :
  BespokeDocsDeindent.run line
  = if deindents line
    then newline :: removelast (takeWhile is_space line)
         ++ dropWhile not_newline (skipn 2 (lstrip line))
    else line.
Proof.
  unfold BespokeDocsDeindent.run.
  change BespokeDocsDeindent.closer_re
    with (Re.Seq Re.Bol
            (Re.seq [Re.Grp "1" (Re.star Re.ws); Re.ws; Re.lit "*/";
                     Re.star Re.dot])).
  rewrite sub_anchored.
  change (Re.Seq Re.Bol
            (Re.seq [Re.Grp "1" (Re.star Re.ws); Re.ws; Re.lit "*/";
                     Re.star Re.dot]))
    with BespokeDocsDeindent.closer_re.
  pose proof (deindent_here (takeWhile is_space line) (lstrip line)
                (takeWhile_forallb _ _) (dropWhile_stops _ _)) as H.
  rewrite <- lstrip_split in H. rewrite H. unfold deindents.
  destruct (nonempty (takeWhile is_space line)
            && startswith "*/" (lstrip line)) eqn:E; [|reflexivity].
  cbn [Re.m_start Re.m_end Re.m_after Re.rest firstn app].
  unfold group_or_empty, Re.group. cbn [Re.m_after Re.caps Re.lookup].
  change (str_eqb "1" "1") with true. cbn iota.
  apply andb_true_iff in E. destruct E as [E _].
  destruct (takeWhile is_space line) as [|c w]; [discriminate E|].
  cbn [app length Nat.ltb Nat.leb]. reflexivity.
Qed.

(** ** BespokeDocsIndentCommand *)

Lemma comment_pattern R line :
  Re.search (Re.Seq Re.Bol (Re.Seq (Re.star Re.ws) (Re.Seq (Re.lit "*") R)))
            line
  = if startswith "*" (lstrip line)
    then Re.match_here
           (Re.Seq Re.Bol (Re.Seq (Re.star Re.ws) (Re.Seq (Re.lit "*") R)))
           (Re.start line)
    else None.
Proof.
  rewrite search_bol. unfold Re.rematch.
  destruct (startswith "*" (lstrip line)) eqn:E; [reflexivity|].
  apply match_here_none_rmatch. unfold Re.start. cbn [Re.before Re.rest].
  rewrite rmatch_seq, rmatch_bol_start, rmatch_seq. unfold Re.ws.
  rewrite rmatch_star_chr. cbn [Re.before Re.rest Re.caps].
  change (fun m' => Re.rmatch (Re.Seq (Re.lit "*") R) m' Some)
    with (fun m' => Re.rmatch (Re.lit "*") m'
                      (fun m'' => Re.rmatch R m'' Some)).
  rewrite comment_opener. now rewrite E.
Qed.

Lemma star_pattern_some line :
  is_some (Re.search BespokeDocsIndentCommand.star_re line)
  = startswith "*" (lstrip line).
Proof.
  unfold BespokeDocsIndentCommand.star_re. cbn [Re.seq].
  rewrite comment_pattern.
  destruct (startswith "*" (lstrip line)) eqn:E; [|reflexivity].
  rewrite is_some_match_here. unfold Re.start. cbn [Re.before Re.rest].
  rewrite rmatch_seq, rmatch_bol_start, rmatch_seq. unfold Re.ws.
  rewrite rmatch_star_chr. cbn [Re.before Re.rest Re.caps].
  change (fun m' => Re.rmatch (Re.Seq (Re.lit "*") ?R) m' Some)
    with (fun m' => Re.rmatch (Re.lit "*") m'
                      (fun m'' => Re.rmatch R m'' Some)).
  rewrite comment_opener, E.
  change (Re.rmatch (Re.Grp "fromStar" ?r) ?m ?k)
    with (Re.rmatch r m (fun m' =>
            k (Re.mkM (Re.before m') (Re.rest m')
                 (("fromStar", firstn (Re.pos m' - Re.pos m) (Re.rest m))
                  :: Re.caps m')))).
  rewrite rmatch_star_chr. cbn [Re.before Re.rest Re.caps].
  now rewrite greedy_chr_total by discriminate.
Qed.

Lemma is_some_orelse_l {A} (a b : option A) :
  is_some a = true -> Re.orelse a b = a.
Proof. now destruct a. Qed.

Lemma getIndentSpaces_some (d : dialect) (line : str) :
  is_some (BespokeDocsIndentCommand.getIndentSpaces d line)
  = isExistingComment line.
Proof.
  rewrite isExistingComment_lstrip.
  unfold BespokeDocsIndentCommand.getIndentSpaces.
  set (A := Re.search (BespokeDocsIndentCommand.param_re d) line).
  set (B := Re.search (BespokeDocsIndentCommand.return_re d) line).
  set (C := Re.search BespokeDocsIndentCommand.tag_re line).
  set (D := Re.search BespokeDocsIndentCommand.star_re line).
  assert (HA : is_some A = true -> startswith "*" (lstrip line) = true).
  { subst A. unfold BespokeDocsIndentCommand.param_re,
      BespokeDocsIndentCommand.columns_re.
    cbn [Re.seq]. rewrite comment_pattern.
    now destruct (startswith "*" (lstrip line)). }
  assert (HB : is_some B = true -> startswith "*" (lstrip line) = true).
  { subst B. unfold BespokeDocsIndentCommand.return_re,
      BespokeDocsIndentCommand.columns_re.
    cbn [Re.seq]. rewrite comment_pattern.
    now destruct (startswith "*" (lstrip line)). }
  assert (HC : is_some C = true -> startswith "*" (lstrip line) = true).
  { subst C. unfold BespokeDocsIndentCommand.tag_re.
    cbn [Re.seq]. rewrite comment_pattern.
    now destruct (startswith "*" (lstrip line)). }
  assert (HD : is_some D = startswith "*" (lstrip line))
    by apply star_pattern_some.
  destruct A; [symmetry; now apply HA|].
  destruct B; [symmetry; now apply HB|].
  destruct C; [symmetry; now apply HC|].
  cbn [Re.orelse]. rewrite <- HD. now destruct D.
Qed.

(** [getIndentSpaces] gives a width exactly for the lines of a comment,
    those on which [isExistingComment] holds. *)
Theorem getIndentSpaces_comment_line (d : dialect) (line : str) :
  is_some (BespokeDocsIndentCommand.getIndentSpaces d line)
  = isExistingComment line.
Proof. apply getIndentSpaces_some. Qed.

Lemma to_star_some line :
  startswith "*" (lstrip line) = true ->
  exists res, Re.search BespokeDocsIndentCommand.to_star_re line = Some res
    /\ group_or_empty res "1" = takeWhile is_space line ++ "*".
Proof.
  intros E. unfold BespokeDocsIndentCommand.to_star_re. cbn [Re.seq].
  rewrite search_bol. unfold Re.rematch, Re.match_here, Re.start.
  cbn [Re.before Re.rest]. rewrite rmatch_seq, rmatch_bol_start.
  change (Re.rmatch (Re.Grp "1" ?r) ?m ?k)
    with (Re.rmatch r m (fun m' =>
            k (Re.mkM (Re.before m') (Re.rest m')
                 (("1", firstn (Re.pos m' - Re.pos m) (Re.rest m))
                  :: Re.caps m')))).
  rewrite rmatch_seq. unfold Re.ws. rewrite rmatch_star_chr.
  cbn [Re.before Re.rest Re.caps]. rewrite comment_opener, E.
  eexists. split; [reflexivity|].
  unfold group_or_empty, Re.group.
  cbn [Re.m_after Re.caps Re.lookup Re.before Re.rest Re.pos length].
  change (str_eqb "1" "1") with true. cbn iota.
  rewrite length_rev, Nat.sub_0_r.
  apply startswith_spec in E. destruct E as [r E].
  rewrite (lstrip_split line) at 2. rewrite E.
  replace (takeWhile is_space line ++ "*" ++ r)
    with ((takeWhile is_space line ++ "*") ++ r)
    by (now rewrite <- app_assoc).
  replace (S (length (takeWhile is_space line)))
    with (length (takeWhile is_space line ++ "*"))
    by (rewrite length_app; cbn [length]; lia).
  apply firstn_app_exact.
Qed.

Lemma indent_run_spec (d : dialect) (prevLine : str) (currCol : nat) :
  BespokeDocsIndentCommand.run d prevLine currCol
  = match BespokeDocsIndentCommand.getIndentSpaces d prevLine with
    | Some (S n) =>
        let column := S (length (takeWhile is_space prevLine)) + S n in
        if column <=? currCol then Ok (InsertSnippet [tab])
        else Ok (Insert (repeat " "%char (column - currCol)))
    | _ => Ok (Insert [tab])
    end.
Proof.
  unfold BespokeDocsIndentCommand.run.
  pose proof (getIndentSpaces_some d prevLine) as H.
  rewrite isExistingComment_lstrip in H.
  destruct (BespokeDocsIndentCommand.getIndentSpaces d prevLine) as [[|n]|];
    try reflexivity.
  cbn [is_some] in H. symmetry in H.
  destruct (to_star_some prevLine H) as (res & -> & ->).
  cbn [bind]. cbv zeta. rewrite length_app. cbn [length].
  set (w := length (takeWhile is_space prevLine)).
  destruct (Z.leb_spec (Z.of_nat (S n) - Z.of_nat currCol + Z.of_nat (w + 1)) 0);
    destruct (Nat.leb_spec (S w + S n) currCol); try lia; try reflexivity.
  unfold spaces.
  replace (Z.to_nat (Z.of_nat (S n) - Z.of_nat currCol + Z.of_nat (w + 1)))
    with (S w + S n - currCol) by lia.
  reflexivity.
Qed.

(** [run] never raises: whenever [getIndentSpaces] gives a width the line
    has a star to measure from.  The cursor is brought to the column that
    stands that width after the star of the previous line; when it is
    already there or beyond, or there is no width, a tab is inserted. *)
Theorem indent_run_column (d : dialect) (prevLine : str) (currCol : nat) :
  BespokeDocsIndentCommand.run d prevLine currCol
  = match BespokeDocsIndentCommand.getIndentSpaces d prevLine with
    | Some (S n) =>
        let column := S (length (takeWhile is_space prevLine)) + S n in
        if column <=? currCol then Ok (InsertSnippet [tab])
        else Ok (Insert (repeat " "%char (column - currCol)))
    | _ => Ok (Insert [tab])
    end.
Proof. apply indent_run_spec. Qed.

Lemma rmatch_star_committed p K b w r cp :
  forallb p w = true -> stops p r = true -> refuses p K ->
  Re.rmatch (Re.star (Re.Chr p)) (Re.mkM b (w ++ r) cp) K
  = K (Re.mkM (rev w ++ b) r cp).
Proof.
  intros Hw Hr HK. rewrite rmatch_star_chr. cbn [Re.before Re.rest Re.caps].
  rewrite greedy_chr_committed by (intros; now apply HK).
  now rewrite takeWhile_stop, dropWhile_stop.
Qed.

Lemma rmatch_plus_committed p K b w r cp :
  w <> [] -> forallb p w = true -> stops p r = true -> refuses p K ->
  Re.rmatch (Re.plus (Re.Chr p)) (Re.mkM b (w ++ r) cp) K
  = K (Re.mkM (rev w ++ b) r cp).
Proof.
  intros Hne Hw Hr HK. destruct w as [|c w]; [now elim Hne|].
  cbn [forallb] in Hw. apply andb_true_iff in Hw. destruct Hw as [Hc Hw].
  change (Re.plus (Re.Chr p)) with (Re.Seq (Re.Chr p) (Re.star (Re.Chr p))).
  rewrite rmatch_seq. cbn [Re.rmatch Re.rest Re.before Re.caps app].
  rewrite Hc, rmatch_star_committed by assumption.
  cbn [rev]. now rewrite <- app_assoc.
Qed.

Lemma refuses_plus p q K :
  (forall c, p c = true -> q c = false) ->
  refuses p (fun m => Re.rmatch (Re.plus (Re.Chr q)) m K).
Proof.
  intros H b c r cp Hc.
  change (Re.plus (Re.Chr q)) with (Re.Seq (Re.Chr q) (Re.star (Re.Chr q))).
  rewrite rmatch_seq. cbn [Re.rmatch Re.rest]. now rewrite (H c Hc).
Qed.

Lemma refuses_lit p x K :
  p x = false ->
  refuses p (fun m => Re.rmatch (Re.lit [x]) m K).
Proof.
  intros H b c r cp Hc. rewrite rmatch_lit. cbn [Re.rest startswith].
  destruct (Ascii.eqb_spec x c) as [<-|_]; [congruence | reflexivity].
Qed.

Lemma capture_text (g b r : str) :
  firstn (length (rev g ++ b) - length b) (g ++ r) = g.
Proof.
  rewrite length_app, length_rev.
  replace (length g + length b - length b) with (length g) by lia.
  apply firstn_app_exact.
Qed.

Lemma orelse_some_l {A} (a b : option A) v :
  a = Some v -> Re.orelse a b = Some v.
Proof. now intros ->. Qed.

Lemma space_not_word c : is_space c = true -> not_space c = false.
Proof. unfold not_space. now intros ->. Qed.

Lemma word_not_space c : not_space c = true -> is_space c = false.
Proof. unfold not_space. now destruct (is_space c). Qed.

Lemma refuses_word K :
  refuses is_space (fun m =>
    Re.rmatch (Re.Chr not_space)
      (Re.mkM (Re.before m) (Re.rest m) (K m)) Some).
Proof.
  intros b c r cp Hc. cbn [Re.rmatch Re.rest].
  now rewrite (space_not_word c Hc).
Qed.

Lemma param_match d ind ws1 ws2 ty ws3 nm ws4 c desc :
  forallb is_space ind = true -> forallb is_space ws1 = true ->
  blank_run ws2 -> word_run ty -> blank_run ws3 -> word_run nm ->
  blank_run ws4 -> is_space c = false ->
  exists M,
    Re.rmatch (BespokeDocsIndentCommand.param_re d)
      (Re.start (ind ++ "*" ++ ws1 ++ "@param" ++ ws2 ++ ty ++ ws3 ++ nm
                 ++ ws4 ++ c :: desc)) Some = Some M
    /\ Re.lookup "fromStar" (Re.caps M)
       = Some (ws1 ++ "@param" ++ ws2 ++ ty ++ ws3 ++ nm ++ ws4).
Proof.
  intros Hind Hws1 [N2 H2] [Nt Ht] [N3 H3] [Nn Hn] [N4 H4] Hc.
  assert (S2 : stops not_space (ws3 ++ nm ++ ws4 ++ c :: desc) = true).
  { destruct ws3 as [|x ws3]; [now elim N3|]. cbn [forallb] in H3.
    apply andb_true_iff in H3. destruct H3 as [Hx _]. cbn [app stops].
    unfold not_space. now rewrite Hx. }
  assert (S4 : stops not_space (ws4 ++ c :: desc) = true).
  { destruct ws4 as [|x ws4]; [now elim N4|]. cbn [forallb] in H4.
    apply andb_true_iff in H4. destruct H4 as [Hx _]. cbn [app stops].
    unfold not_space. now rewrite Hx. }
  assert (S1 : stops is_space (ty ++ ws3 ++ nm ++ ws4 ++ c :: desc) = true).
  { destruct ty as [|x ty]; [now elim Nt|]. cbn [forallb] in Ht.
    apply andb_true_iff in Ht. destruct Ht as [Hx _]. cbn [app stops].
    now rewrite (word_not_space _ Hx). }
  assert (S3 : stops is_space (nm ++ ws4 ++ c :: desc) = true).
  { destruct nm as [|x nm]; [now elim Nn|]. cbn [forallb] in Hn.
    apply andb_true_iff in Hn. destruct Hn as [Hx _]. cbn [app stops].
    now rewrite (word_not_space _ Hx). }
  assert (S5 : stops is_space (c :: desc) = true)
    by (cbn [stops]; now rewrite Hc).
  unfold BespokeDocsIndentCommand.param_re,
    BespokeDocsIndentCommand.columns_re,
    BespokeDocsIndentCommand.extraIndent, typeInfo, Re.start.
  cbn [Re.seq]. unfold Re.ws, nonspace.
  change (fun c0 => negb (is_space c0)) with not_space.
  rewrite rmatch_seq, rmatch_bol_start, rmatch_seq.
  rewrite rmatch_star_committed; [|assumption|reflexivity|].
  2:{ intros b x r cp Hx. rewrite rmatch_seq.
      now apply (refuses_lit is_space "*"%char). }
  rewrite rmatch_seq, rmatch_lit. cbn [Re.rest Re.before Re.caps].
  rewrite startswith_app, skipn_app_exact.
  rewrite rmatch_seq.
  change (Re.rmatch (Re.Grp "fromStar" ?r) ?m ?k)
    with (Re.rmatch r m (fun m' =>
            k (Re.mkM (Re.before m') (Re.rest m')
                 (("fromStar", firstn (Re.pos m' - Re.pos m) (Re.rest m))
                  :: Re.caps m')))).
  rewrite rmatch_seq.
  rewrite rmatch_star_committed; [|assumption|reflexivity|].
  2:{ intros b x r cp Hx. rewrite rmatch_seq.
      now apply (refuses_lit is_space "@"%char). }
  rewrite rmatch_seq, rmatch_lit. cbn [Re.rest Re.before Re.caps].
  change (startswith "@" ("@param" ++ ?x)) with true. cbn iota.
  change (skipn (length "@") ("@param" ++ ?x)) with ("param" ++ x).
  rewrite rmatch_seq.
  change (Re.rmatch (Re.Alt ?a ?b) ?m ?k)
    with (Re.orelse (Re.rmatch a m k) (Re.rmatch b m k)).
  eexists. split.
  - apply orelse_some_l.
    rewrite rmatch_lit. cbn [Re.rest Re.before Re.caps].
    rewrite startswith_app, skipn_app_exact.
    rewrite rmatch_seq, rmatch_seq.
    rewrite rmatch_plus_committed; [|assumption..|].
    2:{ apply refuses_plus. apply space_not_word. }
    rewrite rmatch_plus_committed; [|assumption..|].
    2:{ intros b x r cp Hx. rewrite rmatch_seq.
        now apply (refuses_plus not_space is_space _ word_not_space). }
    rewrite rmatch_seq.
    rewrite rmatch_plus_committed; [|assumption..|].
    2:{ intros b x r cp Hx. rewrite rmatch_seq.
        now apply (refuses_plus is_space not_space _ space_not_word). }
    rewrite rmatch_seq.
    rewrite rmatch_plus_committed; [|assumption..|].
    2:{ apply refuses_plus. apply word_not_space. }
    rewrite rmatch_plus_committed; [|assumption..|].
    2:{ apply refuses_word. }
    cbn [Re.rmatch Re.rest Re.before Re.caps]. unfold not_space at 1.
    rewrite Hc. cbn [negb]. reflexivity.
  - cbn [Re.caps Re.lookup]. change (str_eqb "fromStar" "fromStar") with true.
    cbn iota. f_equal. unfold Re.pos. cbn [Re.before].
    set (B := rev "*" ++ rev ind ++ []).
    set (g := ws1 ++ "@param" ++ ws2 ++ ty ++ ws3 ++ nm ++ ws4).
    replace (rev ws4 ++ rev nm ++ rev ws3 ++ rev ty ++ rev ws2
             ++ rev "param" ++ rev "@" ++ rev ws1 ++ B)
      with (rev g ++ B).
    2:{ subst g. change "@param" with ("@" ++ "param").
        rewrite !rev_app_distr, <- !app_assoc. reflexivity. }
    replace (ws1 ++ "@param" ++ ws2 ++ ty ++ ws3 ++ nm ++ ws4 ++ c :: desc)
      with (g ++ c :: desc)
      by (subst g; rewrite <- !app_assoc; reflexivity).
    apply capture_text.
Qed.

(** On the line after a [@param] line with its type, its name and a
    description, the width is the one from the star to the description, so
    that the cursor is brought under the first character of the
    description. *)
Theorem indent_under_description (d : dialect)
  (ind ws1 ws2 ty ws3 nm ws4 : str) (c : ascii) (desc : str) (currCol : nat) :
  forallb is_space ind = true -> forallb is_space ws1 = true ->
  blank_run ws2 -> word_run ty -> blank_run ws3 -> word_run nm ->
  blank_run ws4 -> is_space c = false ->
  let lead := ind ++ "*" ++ ws1 ++ "@param" ++ ws2 ++ ty ++ ws3 ++ nm ++ ws4 in
  BespokeDocsIndentCommand.getIndentSpaces d (lead ++ c :: desc)
  = Some (length (ws1 ++ "@param" ++ ws2 ++ ty ++ ws3 ++ nm ++ ws4))
  /\ (currCol < length lead ->
      BespokeDocsIndentCommand.run d (lead ++ c :: desc) currCol
      = Ok (Insert (repeat " "%char (length lead - currCol)))).
Proof.
  intros Hind Hws1 B2 Wt B3 Wn B4 Hc lead.
  set (g := ws1 ++ "@param" ++ ws2 ++ ty ++ ws3 ++ nm ++ ws4).
  assert (L : lead ++ c :: desc
              = ind ++ "*" ++ ws1 ++ "@param" ++ ws2 ++ ty ++ ws3 ++ nm
                ++ ws4 ++ c :: desc)
    by (subst lead; rewrite <- !app_assoc; reflexivity).
  assert (G : BespokeDocsIndentCommand.getIndentSpaces d (lead ++ c :: desc)
              = Some (length g)).
  { destruct (param_match d ind ws1 ws2 ty ws3 nm ws4 c desc
                Hind Hws1 B2 Wt B3 Wn B4 Hc) as (M & HM & HG).
    rewrite <- L in HM.
    unfold BespokeDocsIndentCommand.getIndentSpaces.
    assert (S : exists f,
               Re.search (BespokeDocsIndentCommand.param_re d)
                 (lead ++ c :: desc) = Some f
               /\ Re.m_after f = M).
    { rewrite is_some_search_here.
      - unfold Re.rematch, Re.match_here.
        unfold Re.start in *. cbn [Re.before Re.rest]. rewrite HM.
        eexists. split; reflexivity.
      - rewrite is_some_rematch. unfold Re.start in HM. now rewrite HM. }
    destruct S as (f & -> & Hf). cbn [Re.orelse].
    unfold group_or_empty, Re.group. now rewrite Hf, HG. }
  split; [exact G|].
  intros Hcol. rewrite indent_run_spec, G.
  assert (E : takeWhile is_space (lead ++ c :: desc) = ind).
  { rewrite L. now apply takeWhile_stop. }
  rewrite E.
  assert (Hg : length g <> 0).
  { subst g. rewrite !length_app. cbn [length]. lia. }
  destruct (length g) as [|n] eqn:Eg; [now elim Hg|].
  cbv zeta.
  assert (LL : length lead = S (length ind) + S n).
  { subst lead. fold g. rewrite !length_app, Eg. cbn [length]. lia. }
  rewrite <- LL.
  destruct (Nat.leb_spec (length lead) currCol); [lia | reflexivity].
Qed.

Lemma indent_under_description_witness :
  BespokeDocsIndentCommand.run Javascript
    (" * @param {String} name  the name") 3
  = Ok (Insert (repeat " "%char 22)).
Proof.
  refine (proj2 (indent_under_description Javascript " " " " " " "{String}"
                   " " "name" "  " "t"%char "he name" 3
                   eq_refl eq_refl _ _ _ _ _ eq_refl) _).
  1-5: split; [discriminate | reflexivity].
  cbn. lia.
Defined.

(** ** The name and the default value of an argument *)

Lemma dropWhile_app_stop p (a r : str) :
  dropWhile p a <> [] -> dropWhile p (a ++ r) = dropWhile p a ++ r.
Proof.
  induction a as [|c a IH]; [now intros H|]. cbn [app dropWhile].
  destruct (p c); [exact IH | reflexivity].
Qed.

Lemma dropWhile_In p (a : str) c t :
  dropWhile p a = c :: t -> In c a /\ p c = false.
Proof.
  induction a as [|x a IH]; [discriminate|]. cbn [dropWhile].
  destruct (p x) eqn:E.
  - intros H. destruct (IH H). split; [now right | assumption].
  - intros H. injection H as -> ->. split; [now left | assumption].
Qed.

Lemma dropWhile_last p (a : str) c :
  p c = false -> dropWhile p (a ++ [c]) <> [].
Proof.
  intros Hc. induction a as [|x a IH]; cbn [app dropWhile].
  - now rewrite Hc.
  - destruct (p x); [exact IH | discriminate].
Qed.

Lemma equals_here_none b a r cp :
  a <> [] -> rstrip a = a -> ~ In "="%char a ->
  Re.match_here equals_re (Re.mkM b (a ++ r) cp) = None.
Proof.
  intros Hne Hr Hn. apply match_here_none_rmatch.
  cbn [Re.before Re.rest]. unfold equals_re. cbn [Re.seq]. unfold Re.ws.
  rewrite rmatch_seq, rmatch_star_chr. cbn [Re.before Re.rest Re.caps].
  rewrite greedy_chr_committed.
  2:{ intros b0 c r0 Hc. rewrite rmatch_seq.
      now apply (refuses_lit is_space "="%char). }
  rewrite rmatch_seq, rmatch_lit. cbn [Re.rest].
  destruct a as [|c a] using rev_ind; [now elim Hne|]. clear IHa.
  apply rstrip_fixed_last in Hr.
  pose proof (dropWhile_last is_space a c Hr) as D.
  rewrite dropWhile_app_stop by assumption.
  destruct (dropWhile is_space (a ++ [c])) as [|y t] eqn:E; [now elim D|].
  destruct (dropWhile_In _ _ _ _ E) as [Hy _].
  cbn [app startswith].
  destruct (Ascii.eqb_spec "=" y) as [<-|_]; [contradiction | reflexivity].
Qed.

Lemma suffix_trimmed (a1 a2 : str) :
  a2 <> [] -> rstrip (a1 ++ a2) = a1 ++ a2 -> rstrip a2 = a2.
Proof.
  intros Hne H. destruct a2 as [|c a2] using rev_ind; [now elim Hne|].
  rewrite app_assoc in H. apply rstrip_fixed_last in H.
  now rewrite rstrip_snoc, H.
Qed.

(** The split at the first [=]: the name before it and the value after it,
    without the white space around the sign. *)
Lemma split1_equals name w1 w2 val :
  rstrip name = name -> ~ In "="%char name ->
  forallb is_space w1 = true -> forallb is_space w2 = true ->
  stops is_space val = true ->
  Re.split1 equals_re (name ++ w1 ++ "=" ++ w2 ++ val) = [name; val].
Proof.
  intros Hr Hn H1 H2 Hv. unfold Re.split1, Re.search, Re.start.
  rewrite search_from_skip.
  2:{ intros a1 a2 -> Hne. apply equals_here_none; [assumption| |].
      - now apply (suffix_trimmed a1).
      - intros X. apply Hn. apply in_or_app. now right. }
  2:{ rewrite length_app. lia. }
  assert (M : Re.match_here equals_re
                (Re.mkM (rev name ++ []) (w1 ++ "=" ++ w2 ++ val) [])
              = Some (Re.mkFound (length name)
                        (length (name ++ w1 ++ "=" ++ w2))
                        (firstn (length (name ++ w1 ++ "=" ++ w2)
                                 - length (rev name ++ []))
                                (w1 ++ "=" ++ w2 ++ val))
                        (Re.mkM (rev w2 ++ rev "=" ++ rev w1 ++ rev name ++ [])
                                val []))).
  { unfold Re.match_here, equals_re. cbn [Re.seq Re.before Re.rest].
    unfold Re.ws. rewrite rmatch_seq.
    rewrite rmatch_star_committed; [|assumption|reflexivity|].
    2:{ intros b0 c r0 cp Hc. rewrite rmatch_seq.
        now apply (refuses_lit is_space "="%char). }
    rewrite rmatch_seq, rmatch_lit. cbn [Re.rest Re.before Re.caps].
    rewrite startswith_app, skipn_app_exact.
    rewrite rmatch_star_chr. cbn [Re.before Re.rest Re.caps].
    rewrite greedy_chr_total by discriminate.
    rewrite takeWhile_stop, dropWhile_stop by assumption.
    unfold Re.pos. cbn [Re.before].
    rewrite !length_app, !length_rev. cbn [length].
    f_equal. f_equal; [lia | lia | f_equal; lia]. }
  rewrite (search_from_here _ _ _ _ M).
  cbn [Re.m_start Re.m_end]. rewrite firstn_app_exact.
  replace (name ++ w1 ++ "=" ++ w2 ++ val)
    with ((name ++ w1 ++ "=" ++ w2) ++ val)
    by (now rewrite <- !app_assoc).
  now rewrite skipn_app_exact.
Qed.

Lemma split1_no_equals arg :
  ~ In "="%char arg -> Re.split1 equals_re arg = [arg].
Proof.
  intros Hn. unfold Re.split1, Re.search.
  rewrite search_from_none; [reflexivity|].
  unfold Re.start. cbn [Re.rest Re.before Re.caps]. intros a1 a2 ->.
  apply match_here_none_rmatch. cbn [Re.before Re.rest].
  unfold equals_re. cbn [Re.seq]. unfold Re.ws.
  rewrite rmatch_seq, rmatch_star_chr. cbn [Re.before Re.rest Re.caps].
  rewrite greedy_chr_committed.
  2:{ intros b0 c r0 Hc. rewrite rmatch_seq.
      now apply (refuses_lit is_space "="%char). }
  rewrite rmatch_seq, rmatch_lit. cbn [Re.rest].
  destruct (startswith "=" (dropWhile is_space a2)) eqn:E; [|reflexivity].
  exfalso. apply startswith_spec in E. destruct E as [r E].
  destruct (dropWhile_In is_space a2 "="%char r E) as [Hin _].
  apply Hn. apply in_or_app. now right.
Qed.

(** An argument [name = value] is read at its first [=], the white space
    around the sign left out: the name is the text before it (without the
    marker of a rest parameter) and the type is guessed from the text after
    it, except for a rest parameter, whose type is fixed.  An argument
    without [=] is its own name and has no type, the rest parameter
    apart. *)
Theorem getArg_default (st : pluginSettings) (arg : str) :
  (forall name w1 w2 val,
     arg = name ++ w1 ++ "=" ++ w2 ++ val ->
     rstrip name = name -> ~ In "="%char name ->
     forallb is_space w1 = true -> forallb is_space w2 = true ->
     stops is_space val = true ->
     getArgName Javascript arg = without_rest name
     /\ getArgType Javascript st arg
        = if is_rest name then Ok (PStr "...[type]")
          else guessTypeFromValue Javascript st val)
  /\ (~ In "="%char arg ->
      getArgName Javascript arg = without_rest arg
      /\ getArgType Javascript st arg
         = if is_rest arg then Ok (PStr "...[type]") else Ok PNone).
Proof.
  split.
  - intros name w1 w2 val -> Hr Hn H1 H2 Hv.
    unfold getArgName, getArgType.
    rewrite split1_equals by assumption. cbn [hd].
    split; reflexivity.
  - intros Hn. unfold getArgName, getArgType.
    rewrite split1_no_equals by assumption. cbn [hd].
    split; reflexivity.
Qed.

Lemma getArg_default_witness :
  getArgName Javascript "limit = 10" = "limit"
  /\ getArgType Javascript test_settings "limit = 10" = Ok (PStr "Number").
Proof.
  destruct (getArg_default test_settings "limit = 10") as [H _].
  apply (H "limit" " " " " "10"); try reflexivity.
  intros [E|[E|[E|[E|[E|[]]]]]]; discriminate E.
Defined.

(** ** The arguments of a function *)

(** What the characters of an identifier are not. *)
Lemma id_char_class c :
  id_char c = true ->
  is_space c = false /\ is_plain c = true /\ c <> "="%char /\ c <> "{"%char
  /\ c <> "."%char /\ c <> "/"%char /\ c <> "*"%char.
Proof.
  destruct c as [[] [] [] [] [] [] [] []]; intros H;
    try discriminate H; repeat split; try reflexivity; discriminate.
Qed.

Lemma identifier_chars s :
  is_identifier s -> s <> [] /\ forallb id_char s = true.
Proof.
  intros (c & cs & -> & Hc & Hcs). split; [discriminate|].
  cbn [forallb]. unfold id_char at 1. now rewrite Hc, Hcs.
Qed.

Lemma forallb_In {A} (p : A -> bool) l x :
  forallb p l = true -> In x l -> p x = true.
Proof. intros H. now apply forallb_forall. Qed.

Lemma rstrip_no_space s :
  forallb (fun c => negb (is_space c)) s = true -> rstrip s = s.
Proof.
  intros H. destruct s as [|c s] using rev_ind; [reflexivity|].
  rewrite forallb_app in H. apply andb_true_iff in H. destruct H as [_ H].
  cbn [forallb] in H. rewrite andb_true_r in H. apply negb_true_iff in H.
  now rewrite rstrip_snoc, H.
Qed.

Lemma lstrip_no_space s :
  forallb (fun c => negb (is_space c)) s = true -> lstrip s = s.
Proof.
  intros H. destruct s as [|c s]; [reflexivity|]. cbn [forallb] in H.
  apply andb_true_iff in H. destruct H as [H _]. apply negb_true_iff in H.
  unfold lstrip. cbn [dropWhile]. now rewrite H.
Qed.

Lemma identifier_plain s : is_identifier s -> plain_token s.
Proof.
  intros H. destruct (identifier_chars s H) as [_ Hs]. split.
  - unfold strip. rewrite lstrip_no_space, rstrip_no_space; try reflexivity;
      (apply forallb_forall; intros c Hc; apply negb_true_iff;
       now apply id_char_class, (forallb_In _ _ _ Hs)).
  - apply forallb_forall. intros c Hc.
    now apply id_char_class, (forallb_In _ _ _ Hs).
Qed.

Lemma identifier_not_in s x :
  is_identifier s -> id_char x = false -> ~ In x s.
Proof.
  intros H Hx Hin. destruct (identifier_chars s H) as [_ Hs].
  rewrite (forallb_In _ _ _ Hs Hin) in Hx. discriminate Hx.
Qed.

Lemma getArgInfo_identifier d st n :
  is_identifier n -> getArgInfo d st n = Ok [(PNone, n)].
Proof.
  intros H. destruct d.
  - assert (Hb : Re.search braced_re n = None).
    { unfold braced_re. cbn [Re.seq]. rewrite search_bol.
      unfold Re.rematch. apply match_here_none_rmatch.
      unfold Re.start. cbn [Re.before Re.rest].
      rewrite rmatch_seq, rmatch_bol_start, rmatch_seq, rmatch_lit.
      cbn [Re.rest]. destruct H as (c & cs & -> & Hc & _).
      cbn [startswith].
      destruct (Ascii.eqb_spec "{" c) as [<-|_]; [discriminate Hc|reflexivity]. }
    assert (He : ~ In "="%char n) by (now apply identifier_not_in).
    assert (Hr : is_rest n = false).
    { destruct H as (c & cs & -> & Hc & _). unfold is_rest.
      cbn [find startswith].
      destruct (Ascii.eqb_spec "." c) as [<-|_]; [discriminate Hc|].
      cbn [andb]. now destruct (find "..." cs). }
    unfold getArgInfo, subItems. rewrite Hb. cbn [is_some mapM].
    unfold getArgType, getArgName.
    rewrite split1_no_equals by assumption. cbn [hd]. rewrite Hr.
    reflexivity.
  - reflexivity.
Qed.

Lemma mapM_ok {A B} (f : A -> result B) (g : A -> B) l :
  (forall x, In x l -> f x = Ok (g x)) -> mapM f l = Ok (map g l).
Proof.
  intros H. induction l as [|x l IH]; [reflexivity|].
  cbn [mapM map]. rewrite (H x) by now left. cbn [bind].
  rewrite IH by (intros y Hy; apply H; now right). reflexivity.
Qed.

Lemma concat_singletons {A B} (g : A -> B) l :
  concat (map (fun x => [g x]) l) = map g l.
Proof. induction l as [|x l IH]; [reflexivity|]. cbn. now rewrite IH. Qed.

Lemma join_head_nonempty sep (x : str) l :
  x <> [] -> join sep (x :: l) <> [].
Proof.
  intros Hx. destruct x as [|c x]; [now elim Hx|].
  destruct l; cbn [join app]; discriminate.
Qed.

Lemma parseArgs_identifier_list d st names :
  names <> [] -> Forall is_identifier names ->
  parseArgs d st (join ", " names) = Ok (map (fun n => (PNone, n)) names).
Proof.
  intros Hne Hid. unfold parseArgs.
  rewrite splitByCommas_after_join.
  - rewrite (mapM_ok _ (fun n => [(PNone, n)])).
    + cbn [bind]. now rewrite concat_singletons.
    + intros n Hn. apply getArgInfo_identifier.
      now apply (proj1 (Forall_forall _ _) Hid).
  - apply Forall_forall. intros n Hn. apply identifier_plain.
    now apply (proj1 (Forall_forall _ _) Hid).
  - destruct names as [|n names]; [now elim Hne|].
    apply join_head_nonempty.
    inversion Hid as [|? ? Hn _]; subst.
    now destruct (identifier_chars n Hn).
Qed.

(** A list of identifiers separated by [", "] gives one argument for each
    identifier, in their order, with its name and no type, in both
    dialects. *)
Theorem parseArgs_identifiers (d : dialect) (st : pluginSettings)
  (names : list str) :
  names <> [] -> Forall is_identifier names ->
  parseArgs d st (join ", " names) = Ok (map (fun n => (PNone, n)) names).
Proof. apply parseArgs_identifier_list. Qed.

Lemma parseArgs_identifiers_witness :
  parseArgs Javascript test_settings "bar, baz, $quux"
  = Ok [(PNone, "bar"); (PNone, "baz"); (PNone, "$quux")].
Proof.
  apply (parseArgs_identifiers Javascript test_settings
           ["bar"; "baz"; "$quux"]).
  - discriminate.
  - repeat constructor; eexists; eexists; (split; [reflexivity|]);
      split; reflexivity.
Defined.

(** ** The lines of the arguments *)

Lemma join_chars sep (l : list str) c :
  In c (join sep l) -> In c sep \/ exists x, In x l /\ In c x.
Proof.
  induction l as [|x l IH]; [intros []|].
  destruct l as [|y l].
  - cbn [join]. intros H. right. exists x. split; [now left | assumption].
  - rewrite join_cons by discriminate. intros H.
    apply in_app_or in H. destruct H as [H|H].
    + right. exists x. split; [now left | assumption].
    + apply in_app_or in H. destruct H as [H|H]; [now left|].
      destruct (IH H) as [H'|(z & Hz & Hc)]; [now left|].
      right. exists z. split; [now right | assumption].
Qed.

Lemma sub_no_match r repl s :
  Re.search r s = None -> Re.sub r repl s = s.
Proof.
  intros H. unfold Re.sub. cbn [Re.sub_from]. unfold Re.start at 1.
  cbn [Re.rest]. unfold Re.search in H. now rewrite H.
Qed.

Lemma inline_comment_none s :
  ~ In "/"%char s -> Re.search inline_comment_re s = None.
Proof.
  intros Hn. unfold Re.search. apply search_from_none.
  unfold Re.start. cbn [Re.rest Re.before Re.caps]. intros a1 a2 ->.
  apply match_here_none_rmatch. cbn [Re.before Re.rest].
  unfold inline_comment_re. cbn [Re.seq]. rewrite rmatch_seq, rmatch_lit.
  cbn [Re.rest]. destruct (startswith "/*" a2) eqn:E; [|reflexivity].
  exfalso. apply startswith_spec in E. destruct E as [r ->].
  apply Hn. apply in_or_app. right. now left.
Qed.

Lemma identifier_no_generator n : is_identifier n -> is_generator n = false.
Proof.
  intros (c & cs & -> & Hc & _). cbn [is_generator].
  destruct (Ascii.eqb_spec c "*") as [->|_]; [discriminate Hc | reflexivity].
Qed.

Lemma guessTypeFromName_plain d st name :
  notation_map st = [] -> is_generator name = false ->
  guessTypeFromName d st name = Ok (name_heuristics d st name).
Proof.
  intros Hm Hg. unfold guessTypeFromName.
  rewrite getMatchingNotations_plain, Hm by assumption. reflexivity.
Qed.

Lemma name_heuristics_type d st name :
  exists s, or_unknown (name_heuristics d st name) = PStr s.
Proof.
  unfold name_heuristics.
  destruct (is_some (Re.rematch is_has_re name)).
  - exists "Boolean". now destruct d.
  - destruct (is_some (Re.rematch callback_re name)).
    + exists "Function". now destruct d.
    + now exists "[type]".
Qed.

Lemma param_line_identifier d st n :
  notation_map st = [] -> is_identifier n ->
  (typeInfo <- getTypeInfo d st PNone n ;;
   Ok ((if prefer_param st then "@param " else "@arg ")
       ++ typeInfo
       ++ (if param_name st then escape n else [])
       ++ (if param_description st then " ${1:[description]}" else [])))
  = Ok (param_line d st n).
Proof.
  intros Hm Hn. unfold getTypeInfo, typeInfo, por. cbn [truthy].
  rewrite guessTypeFromName_plain
    by (assumption || now apply identifier_no_generator).
  cbn [bind]. unfold param_line.
  destruct (name_heuristics_type d st n) as [s Hs]. rewrite Hs.
  cbn [escape_val bind fmt]. unfold open_curly, close_curly, curlyTypes.
  rewrite <- !app_assoc. reflexivity.
Qed.

Lemma getFunctionReturnType_total d st name :
  notation_map st = [] -> is_generator name = false ->
  exists t, getFunctionReturnType d st name = Ok t.
Proof.
  intros Hm Hg.
  assert (B : exists t, getFunctionReturnType_base d st name = Ok t).
  { unfold getFunctionReturnType_base.
    destruct (is_some (Re.rematch (Re.Chr is_upper) name)); [now eexists|].
    destruct (is_some (Re.rematch (keyword_re "set" "add") name));
      [now eexists|].
    destruct (is_some (Re.rematch (keyword_re "is" "has") name));
      [now eexists|].
    rewrite guessTypeFromName_plain by assumption. now eexists. }
  unfold getFunctionReturnType. rewrite Hg. now destruct d.
Qed.

Lemma formatFunction_identifier_args (d : dialect) (st : pluginSettings)
  (nameOverride : option str) (name : str) (names : list str) :
  names <> [] -> Forall is_identifier names ->
  notation_map st = [] -> is_generator name = false ->
  exists ret,
    formatFunction d st nameOverride false name (join ", " names)
    = Ok ((if is_true (function_description st)
           then ["${1:"
                 ++ str_or nameOverride
                      ("[" ++ escape name
                       ++ (if nonempty name then " " else [])
                       ++ "description]")
                 ++ "}"]
           else [])
          ++ (if autoadd_method_tag st then ["@method " ++ escape name]
              else [])
          ++ (if extra_tags_go_after st then [] else extra_tags st)
          ++ map (param_line d st) names
          ++ ret
          ++ (if extra_tags_go_after st then extra_tags st else []))
    /\ length ret <= 1.
Proof.
  intros Hne Hid Hm Hg.
  assert (Hargs : nonempty (join ", " names) = true).
  { destruct names as [|n names]; [now elim Hne|].
    inversion Hid as [|? ? Hn _]; subst.
    destruct (identifier_chars n Hn) as [Hn' _].
    pose proof (join_head_nonempty ", " n names Hn') as X.
    now destruct (join ", " (n :: names)). }
  assert (Hsub : Re.sub inline_comment_re (fun _ => []) (join ", " names)
                 = join ", " names).
  { apply sub_no_match, inline_comment_none. intros Hin.
    apply join_chars in Hin. destruct Hin as [Hin|(x & Hx & Hin)].
    - destruct Hin as [E|[E|[]]]; discriminate E.
    - apply (identifier_not_in x "/"%char);
        [now apply (proj1 (Forall_forall _ _) Hid) | reflexivity | assumption]. }
  destruct (getFunctionReturnType_total d st name Hm Hg) as [t Ht].
  assert (HP : mapM
                 (fun '(argType, argName) =>
                    typeInfo <- getTypeInfo d st argType argName ;;
                    Ok ((if prefer_param st then "@param " else "@arg ")
                        ++ typeInfo
                        ++ (if param_name st then escape argName else [])
                        ++ (if param_description st
                            then " ${1:[description]}" else [])))
                 (map (fun n => (PNone, n)) names)
               = Ok (map (param_line d st) names)).
  { rewrite (mapM_ok _ (fun p => param_line d st (snd p))).
    - now rewrite map_map.
    - intros x Hx. apply in_map_iff in Hx. destruct Hx as (n & <- & Hn).
      apply param_line_identifier; [assumption|].
      now apply (proj1 (Forall_forall _ _) Hid). }
  unfold formatFunction. cbv zeta. rewrite Hargs, Hsub, Hargs.
  rewrite parseArgs_identifier_list by assumption. cbn [bind].
  rewrite HP, Ht, getMatchingNotations_plain, Hm by assumption.
  cbn [bind filter flat_map app].
  eexists. split; [reflexivity|].
  destruct t; [|cbn; lia].
  destruct (is_true (return_description st)); cbn [length]; lia.
Qed.

(** For a function that is no generator, with identifiers as its arguments
    and no notation rule configured, [formatFunction] never raises, and it
    writes one line for each argument, in their order, between the lines
    before the arguments (description, method tag, leading extra tags) and
    at most one return line with the trailing extra tags; the type of each
    argument is the one its name suggests. *)
Theorem formatFunction_param_lines (d : dialect) (st : pluginSettings)
  (nameOverride : option str) (name : str) (names : list str) :
  names <> [] -> Forall is_identifier names ->
  notation_map st = [] -> is_generator name = false ->
  exists ret,
    formatFunction d st nameOverride false name (join ", " names)
    = Ok ((if is_true (function_description st)
           then ["${1:"
                 ++ str_or nameOverride
                      ("[" ++ escape name
                       ++ (if nonempty name then " " else [])
                       ++ "description]")
                 ++ "}"]
           else [])
          ++ (if autoadd_method_tag st then ["@method " ++ escape name]
              else [])
          ++ (if extra_tags_go_after st then [] else extra_tags st)
          ++ map (param_line d st) names
          ++ ret
          ++ (if extra_tags_go_after st then extra_tags st else []))
    /\ length ret <= 1.
Proof. apply formatFunction_identifier_args. Qed.

Lemma formatFunction_param_lines_witness :
  exists ret,
    formatFunction Javascript test_settings None false "foo" "bar, baz"
    = Ok ("${1:[foo description]}"
          :: "@param {${1:[type]}} bar ${1:[description]}"
          :: "@param {${1:[type]}} baz ${1:[description]}"
          :: ret ++ [])
    /\ length ret <= 1.
Proof.
  apply (formatFunction_param_lines Javascript test_settings None "foo"
           ["bar"; "baz"]).
  - discriminate.
  - repeat constructor; eexists; eexists; (split; [reflexivity|]);
      split; reflexivity.
  - reflexivity.
  - reflexivity.
Defined.

(** ** Continuing a comment *)

Lemma search_from_start n r m f :
  Re.search_from n r m = Some f -> Re.pos m <= Re.m_start f.
Proof.
  revert m. induction n as [|n IH]; intros m; cbn [Re.search_from];
    unfold Re.match_here;
    destruct (Re.rmatch r _ Some) as [m'|].
  - intros H. injection H as <-. cbn. apply Nat.le_refl.
  - discriminate.
  - intros H. injection H as <-. cbn. apply Nat.le_refl.
  - unfold Re.step_over. destruct (Re.rest m) as [|c t]; [discriminate|].
    intros H. apply IH in H. unfold Re.pos in *. cbn [Re.before length] in H.
    lia.
Qed.

(** No match starts inside [p]: the substitution keeps it. *)
Lemma sub_keeps_prefix r repl (p s : str) :
  (forall a1 a2, p = a1 ++ a2 -> a2 <> [] ->
     Re.match_here r (Re.mkM (rev a1 ++ []) (a2 ++ s) []) = None) ->
  exists t, Re.sub r repl (p ++ s) = p ++ t.
Proof.
  intros H. unfold Re.sub. cbn [Re.sub_from]. unfold Re.start.
  cbn [Re.rest Re.pos Re.before length].
  rewrite search_from_skip by (assumption || (rewrite length_app; lia)).
  destruct (Re.search_from _ r _) as [f|] eqn:E; [|now exists s].
  apply search_from_start in E. unfold Re.pos in E.
  cbn [Re.before] in E. rewrite app_nil_r, length_rev in E.
  rewrite Nat.sub_0_r.
  replace (Re.m_start f) with (length p + (Re.m_start f - length p)) by lia.
  rewrite firstn_app_2. rewrite <- app_assoc. eexists. reflexivity.
Qed.

Lemma lit_head_none c l R b a s cp :
  ~ In c a -> a <> [] ->
  Re.match_here (Re.Seq (Re.lit (c :: l)) R) (Re.mkM b (a ++ s) cp) = None.
Proof.
  intros Hn Hne. apply match_here_none_rmatch. cbn [Re.before Re.rest].
  rewrite rmatch_seq, rmatch_lit. cbn [Re.rest].
  destruct a as [|x a]; [now elim Hne|]. cbn [app startswith].
  destruct (Ascii.eqb_spec c x) as [<-|_]; [|reflexivity].
  exfalso. apply Hn. now left.
Qed.

Lemma strip_comments_prefix p s :
  ~ In "/"%char p -> exists t, strip_comments (p ++ s) = p ++ t.
Proof.
  intros Hn. unfold strip_comments.
  destruct (sub_keeps_prefix line_comment_re (fun _ => []) p s) as [t1 ->].
  { intros a1 a2 -> Hne. apply lit_head_none; [|assumption].
    intros X. apply Hn. apply in_or_app. now right. }
  apply sub_keeps_prefix.
  intros a1 a2 -> Hne. apply (lit_head_none "/"%char "*"); [|assumption].
  intros X. apply Hn. apply in_or_app. now right.
Qed.

Lemma gathered_first b l ls : exists k, gathered b (l :: ls) = S k.
Proof. cbn [gathered]. destruct (_ =? _)%Z; now eexists. Qed.

Lemma getDefinition_first d buffer pos raw :
  read_line buffer pos = Some raw ->
  exists t, getDefinition d buffer pos = strip_comments raw ++ t.
Proof.
  intros H. destruct (getDefinition_prefix d buffer pos) as [_ ->].
  change (lines_from maxLines buffer pos)
    with (match read_line buffer pos with
          | None => []
          | Some raw =>
              raw :: lines_from 24 buffer (pos + length raw + 1)
          end).
  rewrite H. cbn [map counted].
  destruct (gathered_first 0 (after_opener d (strip_comments raw))
              (map strip_comments
                 (lines_from 24 buffer (pos + length raw + 1)))) as [k ->].
  cbn [firstn concat]. now eexists.
Qed.

Lemma line_at_start before line after :
  ~ In newline line ->
  line_at (before ++ [newline] ++ line ++ after)
          (length (before ++ [newline]))
  = line ++ takeWhile not_newline after.
Proof.
  intros Hn. unfold line_at.
  replace (before ++ [newline] ++ line ++ after)
    with ((before ++ [newline]) ++ line ++ after)
    by (now rewrite <- app_assoc).
  rewrite firstn_app_exact, skipn_app_exact.
  rewrite rev_app_distr. cbn [rev app takeWhile].
  change (not_newline newline) with false. cbn iota. cbn [rev app].
  clear before. induction line as [|c line IH]; [reflexivity|].
  cbn [app takeWhile]. unfold not_newline at 1.
  destruct (Ascii.eqb_spec c newline) as [->|_].
  - exfalso. apply Hn. now left.
  - cbn [negb]. f_equal. apply IH. intros X. apply Hn. now right.
Qed.

(** When the line below the cursor's line is a line of a comment (white
    space, then a star), [run] only continues the comment: it writes a line
    break, the star and the indentation, whatever the settings, the scope
    and the text after the cursor. *)
Theorem run_continues_comment (st : pluginSettings) (clk : clock)
  (inline : bool) (scope before trailing w rest : str) :
  ~ In newline trailing ->
  forallb (fun c => is_space c && not_newline c) w = true ->
  BespokeDocsCommand.run st clk inline scope
    (before ++ trailing ++ [newline] ++ w ++ "*" ++ rest) (length before)
  = newline :: " *" ++ indentSpaces st.
Proof.
  intros Ht Hw. unfold BespokeDocsCommand.run, BespokeDocsCommand.initialize.
  cbv zeta. rewrite skipn_app_exact.
  assert (T : takeWhile not_newline
                (trailing ++ [newline] ++ w ++ "*" ++ rest) = trailing).
  { apply takeWhile_stop; [|reflexivity].
    apply forallb_forall. intros c Hc. unfold not_newline.
    destruct (Ascii.eqb_spec c newline) as [->|_]; [contradiction|reflexivity]. }
  rewrite T.
  set (buffer := before ++ trailing ++ [newline] ++ w ++ "*" ++ rest).
  set (pos := length before + length trailing + 1).
  assert (Hws : forallb is_space w = true /\ ~ In newline (w ++ "*")
                /\ ~ In "/"%char (w ++ "*")).
  { split; [|split].
    - apply forallb_forall. intros c Hc.
      apply (forallb_In _ _ _ Hw) in Hc. now apply andb_true_iff in Hc.
    - intros X. apply in_app_or in X. destruct X as [X|[X|[]]];
        [|discriminate X].
      apply (forallb_In _ _ _ Hw) in X. now rewrite andb_false_r in X.
    - intros X. apply in_app_or in X. destruct X as [X|[X|[]]];
        [|discriminate X].
      apply (forallb_In _ _ _ Hw) in X. discriminate X. }
  destruct Hws as (Hsp & Hnl & Hsl).
  assert (R : read_line buffer pos
              = Some ((w ++ "*") ++ takeWhile not_newline rest)).
  { unfold read_line.
    assert (B : buffer = (before ++ trailing) ++ [newline]
                         ++ (w ++ "*") ++ rest)
      by (subst buffer; now rewrite <- !app_assoc).
    assert (P : pos = length ((before ++ trailing) ++ [newline]))
      by (subst pos; rewrite !length_app; cbn [length]; lia).
    replace (length buffer <=? pos) with false.
    - rewrite B, P. f_equal. now apply line_at_start.
    - symmetry. apply Nat.leb_gt. rewrite B, P, !length_app.
      cbn [length]. lia. }
  destruct (getDefinition_first (getParser scope) buffer pos _ R) as [t1 ->].
  destruct (strip_comments_prefix (w ++ "*") (takeWhile not_newline rest) Hsl)
    as [t2 ->].
  rewrite isExistingComment_lstrip.
  replace (lstrip (((w ++ "*") ++ t2) ++ t1)) with ("*" ++ t2 ++ t1).
  - reflexivity.
  - unfold lstrip. rewrite <- !app_assoc. symmetry.
    now apply dropWhile_stop.
Qed.

Lemma run_continues_comment_witness :
  BespokeDocsCommand.run test_settings noon false "source.js"
    ("/**" ++ [newline] ++ " * old text") 3
  = newline :: " * ".
Proof.
  apply (run_continues_comment test_settings noon false "source.js"
           "/**" [] " " " old text").
  - intros [].
  - reflexivity.
Defined.

Example run_on_the_tests :
  BespokeDocsCommand.run test_settings noon false "source.js"
    ("/**" ++ [newline] ++ "function foo (bar, baz) {") 3
  = newline :: " * ${1:[foo description]}"
    ++ newline :: " * @param  {${2:[type]}} bar ${3:[description]}"
    ++ newline :: " * @param  {${4:[type]}} baz ${5:[description]}"
    ++ newline :: " * @return {${6:[type]}}     ${7:[description]}"
    ++ newline :: " */"
  /\ BespokeDocsCommand.run test_settings noon false "source.js"
       ([newline] ++ "/**" ++ [newline] ++ "basic") 4
     = newline :: " * ${0:}" ++ newline :: " */".
Proof. split; vm_compute; reflexivity. Qed.

(** ** alignTags: the columns *)

Lemma unescape_dollar_space s :
  unescape_dollar (" "%char :: s) = " "%char :: unescape_dollar s.
Proof. destruct s; reflexivity. Qed.

Lemma unescape_dollar_spaces n s :
  unescape_dollar (repeat " "%char n ++ s)
  = repeat " "%char n ++ unescape_dollar s.
Proof.
  induction n as [|n IH]; [reflexivity|]. cbn [repeat app].
  now rewrite unescape_dollar_space, IH.
Qed.

Lemma unescape_dollar_before_space (a s : str) :
  unescape_dollar (a ++ " "%char :: s)
  = unescape_dollar a ++ " "%char :: unescape_dollar s.
Proof.
  induction a as [a IH] using str_length_ind.
  destruct a as [|c [|c' a]].
  - apply unescape_dollar_space.
  - cbn [app]. rewrite unescape_dollar_other by apply andb_false_r.
    now rewrite unescape_dollar_space.
  - cbn [app].
    destruct (Ascii.eqb c backslash && Ascii.eqb c' "$") eqn:E.
    + apply andb_true_iff in E. destruct E as [E1 E2].
      apply Ascii.eqb_eq in E1, E2. subst.
      rewrite !unescape_dollar_pair. cbn [app]. f_equal.
      apply IH. cbn [length]. lia.
    + rewrite (unescape_dollar_other c c' (a ++ " "%char :: s) E).
      rewrite (unescape_dollar_other c c' a E). cbn [app]. f_equal.
      apply (IH (c' :: a)). cbn [length]. lia.
Qed.

Lemma no_dollar_repeat n :
  existsb (fun c => Ascii.eqb c "$") (repeat " "%char n) = false.
Proof. induction n; [reflexivity | assumption]. Qed.

(** The width of a closed text followed by spaces and more text. *)
Lemma outputWidth_padded p n s :
  closed p = true -> 0 < n ->
  outputWidth (p ++ repeat " "%char n ++ s) = outputWidth p + n + outputWidth s.
Proof.
  intros Hp Hn. unfold outputWidth.
  destruct n as [|n]; [lia|]. cbn [repeat app].
  rewrite scan_app by (assumption || reflexivity).
  change (" "%char :: repeat " "%char n ++ s)
    with (repeat " "%char (S n) ++ s).
  rewrite scan_plain by apply no_dollar_repeat.
  rewrite !flat_map_app, unwrap_text. cbn [repeat app].
  rewrite unescape_dollar_before_space, unescape_dollar_spaces.
  rewrite length_app. cbn [length]. rewrite length_app, repeat_length. lia.
Qed.

Lemma spaces_repeat z : spaces z = repeat " "%char (Z.to_nat z).
Proof. reflexivity. Qed.

Lemma pad_parts_column st mw parts : forall i j part,
  (1 <= min_spaces_between_columns st)%Z ->
  nth_error parts j = Some part ->
  (forall k p, k < j -> nth_error parts k = Some p ->
     closed p = true /\ outputWidth p <= nth (i + k) mw 0) ->
  exists pre suf,
    pad_parts st mw i parts = pre ++ part ++ suf
    /\ outputWidth pre
       = j * Z.to_nat (min_spaces_between_columns st)
         + list_sum (map (fun k => nth k mw 0) (seq i j)).
Proof.
  induction parts as [|p parts IH]; intros i j part Hmin Hj Hk.
  - destruct j; discriminate Hj.
  - destruct j as [|j].
    + cbn [nth_error] in Hj. injection Hj as ->.
      exists [], (spaces (min_spaces_between_columns st)
                  ++ spaces (Z.of_nat (nth i mw 0) - Z.of_nat (outputWidth part))
                  ++ pad_parts st mw (S i) parts).
      split; reflexivity.
    + cbn [nth_error] in Hj.
      destruct (IH (S i) j part Hmin Hj) as (pre & suf & HP & HW).
      { intros k q Hlt Hq. specialize (Hk (S k) q).
        rewrite Nat.add_succ_r in Hk. apply Hk; [lia | exact Hq]. }
      destruct (Hk 0 p) as [Hc Hw]; [lia | reflexivity |].
      rewrite Nat.add_0_r in Hw.
      exists (p ++ spaces (min_spaces_between_columns st)
              ++ spaces (Z.of_nat (nth i mw 0) - Z.of_nat (outputWidth p))
              ++ pre), suf.
      split.
      * cbn [pad_parts]. rewrite HP. now rewrite <- !app_assoc.
      * rewrite !spaces_repeat.
        rewrite (app_assoc (repeat _ _)), <- repeat_app.
        rewrite outputWidth_padded by (assumption || lia). rewrite HW.
        unfold list_sum. cbn [seq map fold_right]. lia.
Qed.

Lemma fold_max_acc {A} (f : A -> nat) l acc :
  acc <= fold_left (fun a x => Nat.max a (f x)) l acc
  /\ forall x, In x l -> f x <= fold_left (fun a x => Nat.max a (f x)) l acc.
Proof.
  revert acc. induction l as [|y l IH]; intros acc; cbn [fold_left].
  - split; [apply Nat.le_refl | intros x []].
  - destruct (IH (Nat.max acc (f y))) as [H1 H2]. split; [lia|].
    intros x [->|Hx]; [lia | now apply H2].
Qed.

Lemma maxCols_ge ws w : In w ws -> length w <= maxCols ws.
Proof. intros H. now apply (fold_max_acc (@length nat) ws 0). Qed.

Lemma columnMax_ge ws w k x :
  In w ws -> nth_error w k = Some x -> x <= columnMax ws k.
Proof.
  intros Hin Hk. unfold columnMax.
  assert (E : forall l acc,
            fold_left (fun acc w => match nth_error w k with
                                    | Some x => Nat.max acc x
                                    | None => acc
                                    end) l acc
            = fold_left (fun a w => Nat.max a (match nth_error w k with
                                               | Some x => x
                                               | None => 0
                                               end)) l acc).
  { induction l as [|y l IH]; intros acc; [reflexivity|]. cbn [fold_left].
    rewrite IH. destruct (nth_error y k); [reflexivity|].
    now rewrite Nat.max_0_r. }
  rewrite E.
  destruct (fold_max_acc (fun w => match nth_error w k with
                                   | Some x => x
                                   | None => 0
                                   end) ws 0) as [_ H].
  specialize (H w Hin). now rewrite Hk in H.
Qed.

Lemma nth_map_seq (f : nat -> nat) n k :
  k < n -> nth k (map f (seq 0 n)) 0 = f k.
Proof.
  intros H. rewrite (nth_indep _ 0 (f 0)) by (now rewrite length_map, length_seq).
  rewrite map_nth, seq_nth by assumption. reflexivity.
Qed.

Lemma maxWidths_ge st (out : list str) line k p :
  shallowAlignTags st = false ->
  In line out -> measured st line = true -> aligned_line line = true ->
  nth_error (split_on " " line) k = Some p ->
  outputWidth p <= nth k (maxWidths st out) 0.
Proof.
  intros Hsh Hin Hm Ha Hk. unfold maxWidths. rewrite Hsh.
  assert (Hc : columns line = split_on " " line).
  { unfold columns. unfold aligned_line in Ha.
    apply andb_true_iff in Ha. destruct Ha as [_ Ha].
    apply negb_true_iff in Ha. now rewrite Ha. }
  assert (Hw : In (map outputWidth (split_on " " line)) (widths st out)).
  { unfold widths. rewrite <- Hc.
    apply (in_map (fun l => map outputWidth (columns l))).
    apply filter_In. now split. }
  assert (Hlen : k < maxCols (widths st out)).
  { pose proof (maxCols_ge _ _ Hw) as L. rewrite length_map in L.
    assert (k < length (split_on " " line))
      by (apply nth_error_Some; congruence).
    lia. }
  rewrite nth_map_seq by assumption.
  apply Nat.ltb_lt in Hlen. rewrite Hlen.
  apply (columnMax_ge _ _ _ _ Hw). now rewrite nth_error_map, Hk.
Qed.

Lemma rstrip_keep (pre part suf : str) :
  part <> [] -> rstrip part = part ->
  exists suf', rstrip (pre ++ part ++ suf) = pre ++ part ++ suf'.
Proof.
  intros Hne Hr. induction suf as [|c suf IH] using rev_ind.
  - exists []. rewrite app_nil_r.
    destruct part as [|x part] using rev_ind; [now elim Hne|].
    apply rstrip_fixed_last in Hr.
    now rewrite app_assoc, rstrip_snoc, Hr.
  - rewrite !app_assoc, rstrip_snoc. destruct (is_space c).
    + rewrite <- app_assoc. exact IH.
    + exists (suf ++ [c]). now rewrite <- !app_assoc.
Qed.

Lemma split_on_tag (line : str) :
  startswith "@" line = true ->
  exists x rest, split_on " " line = ("@"%char :: x) :: rest.
Proof.
  intros H. apply startswith_spec in H. destruct H as [r ->].
  cbn [app split_on]. change (Ascii.eqb "@" " ") with false. cbn iota.
  destruct (split_on " " r); now eexists; eexists.
Qed.

(** The columns of the tag lines stand under each other: with deep
    alignment and at least one space between the columns, column [j] of every
    measured tag line starts, in the aligned line, after a text whose
    displayed width depends on [j] and the measured widths only, not on the
    line. *)
Theorem alignTags_columns (st : pluginSettings) (out : list str)
  (i j : nat) (line part : str) :
  shallowAlignTags st = false ->
  (1 <= min_spaces_between_columns st)%Z ->
  nth_error out i = Some line ->
  aligned_line line = true -> measured st line = true ->
  nth_error (split_on " " line) j = Some part ->
  part <> [] -> rstrip part = part ->
  (forall k p, k < j -> nth_error (split_on " " line) k = Some p ->
     closed p = true) ->
  exists pre suf,
    nth_error (alignTags st out) i = Some (pre ++ part ++ suf)
    /\ outputWidth pre
       = column_offset (Z.to_nat (min_spaces_between_columns st))
           (maxWidths st out) j.
Proof.
  intros Hsh Hmin Hi Ha Hm Hj Hne Hr Hc.
  assert (Hin : In line out) by (eapply nth_error_In; eassumption).
  destruct (pad_parts_column st (maxWidths st out) (split_on " " line)
              0 j part Hmin Hj) as (pre & suf & HP & HW).
  { intros k p Hk Hp. split; [now apply (Hc k) |].
    now apply (maxWidths_ge st out line). }
  destruct (rstrip_keep pre part suf Hne Hr) as [suf' Hs].
  exists pre, suf'. split; [|exact HW].
  unfold alignTags. rewrite nth_error_map, Hi. cbn [option_map].
  rewrite Ha, HP. f_equal. unfold strip.
  assert (L : lstrip (pre ++ part ++ suf) = pre ++ part ++ suf).
  { rewrite <- HP. unfold aligned_line in Ha.
    apply andb_true_iff in Ha. destruct Ha as [Ha _].
    destruct (split_on_tag line Ha) as (x & rest & ->).
    reflexivity. }
  now rewrite L.
Qed.

Lemma alignTags_columns_witness :
  exists pre suf,
    nth_error (alignTags test_settings
                 ["@param {${1:[type]}} bar ${1:[description]}";
                  "@return {${1:[type]}}  ${1:[description]}"]) 0
    = Some (pre ++ "bar" ++ suf)
    /\ outputWidth pre = 17.
Proof.
  apply (alignTags_columns test_settings
           ["@param {${1:[type]}} bar ${1:[description]}";
            "@return {${1:[type]}}  ${1:[description]}"]
           0 2 "@param {${1:[type]}} bar ${1:[description]}" "bar");
    try reflexivity; try discriminate.
  intros [|[|k]] p Hk Hp; [| |lia]; injection Hp as <-; reflexivity.
Defined.

(** ** BespokeDocsWrapLines *)

Section WrapPara.

Variable wrapLength : Z.
Variables indentSpaces indentSpacesSamePara : str.
Variable words : list str.

Lemma rstrip_length (s : str) : length (rstrip s) <= length s.
Proof.
  unfold rstrip. rewrite length_rev, <- (length_rev s).
  generalize (rev s). intros l. induction l as [|x l IH]; cbn [dropWhile];
    [lia|]. destruct (is_space x); cbn [length]; lia.
Qed.

Lemma filling_bound l :
  filling wrapLength indentSpaces indentSpacesSamePara words l ->
  wrapped_line wrapLength indentSpaces indentSpacesSamePara words (rstrip l).
Proof.
  intros [->|[(w & Hw & ->)|[Hlen (x & ->)]]].
  - right. now left.
  - right. right. now exists w.
  - left. rewrite rstrip_snoc. change (is_space " ") with true.
    cbn iota. pose proof (rstrip_length x) as L.
    rewrite length_app in Hlen. cbn [length] in Hlen. lia.
Qed.

Lemma lines_text_snoc ls l :
  lines_text (ls ++ [l]) = lines_text ls ++ newline :: l.
Proof.
  unfold lines_text. rewrite map_app, concat_app. cbn [map concat].
  now rewrite app_nil_r.
Qed.

Lemma wrapStep_inv s word :
  wrap_inv wrapLength indentSpaces indentSpacesSamePara words s ->
  In word words ->
  exists s',
    BespokeDocsWrapLines.wrapStep wrapLength indentSpacesSamePara s word
    = Ok s'
    /\ wrap_inv wrapLength indentSpaces indentSpacesSamePara words s'.
Proof.
  intros (Hnew & (emitted & Htext & Hem) & Hline) Hin.
  unfold BespokeDocsWrapLines.wrapStep.
  destruct (negb (nonempty word)
            && negb (BespokeDocsWrapLines.lineTagged s)) eqn:E.
  { exists s. split; [reflexivity|]. repeat split; try assumption.
    now exists emitted. }
  assert (T : exists tagged,
            (if BespokeDocsWrapLines.lineIsNew s
             then c <- first_char word ;; Ok (Ascii.eqb c "@")
             else Ok false) = Ok tagged).
  { destruct (BespokeDocsWrapLines.lineIsNew s) eqn:N; [|now eexists].
    rewrite (Hnew eq_refl) in E. rewrite andb_true_r in E.
    destruct word as [|c word]; [discriminate E|]. now eexists. }
  destruct T as [tagged ->]. cbn [bind]. cbv zeta.
  destruct (wrapLength - 1
            <=? Z.of_nat (length (BespokeDocsWrapLines.line s)
                          + length word))%Z eqn:W.
  - eexists. split; [reflexivity|]. split; [reflexivity|]. split.
    + exists (emitted ++ [rstrip (BespokeDocsWrapLines.line s)]).
      cbn [BespokeDocsWrapLines.text]. split.
      * rewrite Htext, lines_text_snoc. now rewrite <- !app_assoc.
      * apply Forall_app. split; [assumption|].
        constructor; [now apply filling_bound | constructor].
    + cbn [BespokeDocsWrapLines.line]. right. left. now exists word.
  - eexists. split; [reflexivity|]. split; [discriminate|]. split.
    + exists emitted. now split.
    + cbn [BespokeDocsWrapLines.line]. right. right.
      apply Z.leb_gt in W. split.
      * rewrite !length_app. cbn [length]. lia.
      * exists (BespokeDocsWrapLines.line s ++ word).
        now rewrite <- app_assoc.
Qed.

Lemma wrapWords_inv ws : forall s,
  wrap_inv wrapLength indentSpaces indentSpacesSamePara words s ->
  (forall w, In w ws -> In w words) ->
  exists s',
    BespokeDocsWrapLines.wrapWords wrapLength indentSpacesSamePara s ws
    = Ok s'
    /\ wrap_inv wrapLength indentSpaces indentSpacesSamePara words s'.
Proof.
  induction ws as [|w ws IH]; intros s Hs Hin.
  - now exists s.
  - cbn [BespokeDocsWrapLines.wrapWords].
    destruct (wrapStep_inv s w Hs (Hin w (or_introl eq_refl)))
      as (s1 & -> & H1).
    cbn [bind]. apply IH; [assumption|].
    intros x Hx. apply Hin. now right.
Qed.

End WrapPara.

(** [wrapPara] never raises (a word is only asked for its first character
    when it has one), and its text is a sequence of lines, each after a line
    break, of which every one is at most [wrapLength - 2] characters long
    unless it holds a single word or only the leader of the first line. *)
Theorem wrapPara_lines (wrapLength : Z)
  (indentSpaces indentSpacesSamePara para : str) :
  exists r ls,
    BespokeDocsWrapLines.wrapPara wrapLength indentSpaces
      indentSpacesSamePara para = Ok r
    /\ BespokeDocsWrapLines.p_text r = lines_text ls
    /\ ls <> []
    /\ Forall (wrapped_line wrapLength indentSpaces indentSpacesSamePara
                 (BespokeDocsWrapLines.words_of para)) ls.
Proof.
  unfold BespokeDocsWrapLines.wrapPara.
  destruct (wrapWords_inv wrapLength indentSpaces indentSpacesSamePara
              (BespokeDocsWrapLines.words_of para)
              (BespokeDocsWrapLines.words_of para)
              (BespokeDocsWrapLines.mkWrap [newline] (" *" ++ indentSpaces)
                 false false true []))
    as (s & -> & _ & (emitted & Htext & Hem) & Hline).
  - split; [reflexivity|]. split.
    + exists []. split; [reflexivity | constructor].
    + now left.
  - auto.
  - cbn [bind]. eexists. exists (emitted ++ [rstrip (BespokeDocsWrapLines.line s)]).
    split; [reflexivity|]. cbn [BespokeDocsWrapLines.p_text].
    split; [|split].
    + rewrite Htext, lines_text_snoc. now rewrite <- app_assoc.
    + now destruct emitted.
    + apply Forall_app. split; [assumption|].
      constructor; [|constructor].
      now apply (filling_bound wrapLength indentSpaces indentSpacesSamePara).
Qed.

(** ** parseVar *)

(** A lazy repetition stops at the first place where the continuation
    succeeds. *)
Lemma lazy_chr_first p K (a r : str) cp x : forall n bef,
  forallb p a = true ->
  (forall a1 a2, a = a1 ++ a2 -> a2 <> [] ->
     K (Re.mkM (rev a1 ++ bef) (a2 ++ r) cp) = None) ->
  K (Re.mkM (rev a ++ bef) r cp) = Some x ->
  length (a ++ r) < n ->
  Re.star_loop (Re.rmatch (Re.Chr p)) false K n (Re.mkM bef (a ++ r) cp)
  = Some x.
Proof.
  induction a as [|c a IH]; intros n bef Hp Hfail Hend Hn.
  - destruct n as [|n]; [lia|]. cbn [Re.star_loop app rev] in *.
    now rewrite Hend.
  - destruct n as [|n]; [cbn in Hn; lia|].
    cbn [forallb] in Hp. apply andb_true_iff in Hp. destruct Hp as [Hc Hp].
    cbn [Re.star_loop app].
    pose proof (Hfail [] (c :: a) eq_refl ltac:(discriminate)) as H0.
    cbn [rev app] in H0. rewrite H0. cbn [Re.orelse].
    cbn [Re.rmatch Re.rest Re.before Re.caps]. rewrite Hc.
    unfold Re.pos. cbn [Re.before length].
    replace (length bef <? S (length bef)) with true
      by (symmetry; apply Nat.ltb_lt; lia).
    apply IH; [assumption| | |cbn [length app] in Hn; lia].
    + intros a1 a2 -> Hne. specialize (Hfail (c :: a1) a2 eq_refl Hne).
      cbn [rev] in Hfail. now rewrite <- app_assoc in Hfail.
    + cbn [rev] in Hend. now rewrite <- app_assoc in Hend.
Qed.

Lemma refuses_assign K :
  refuses id_char (fun m =>
    Re.rmatch (Re.star (Re.Chr is_space)) m
      (fun m' => Re.rmatch (Re.oneof "=:") m' K)).
Proof.
  intros b c r cp Hc. rewrite rmatch_star_chr.
  cbn [Re.before Re.rest Re.caps greedy_chr].
  destruct (id_char_class c Hc) as (Hs & _ & He & _).
  rewrite Hs. unfold Re.oneof. cbn [Re.rmatch Re.rest existsb].
  destruct c as [[] [] [] [] [] [] [] []]; try reflexivity;
    discriminate Hc.
Qed.

Lemma refuses_oneof p s K :
  (forall c, p c = true -> existsb (Ascii.eqb c) s = false) ->
  refuses p (fun m => Re.rmatch (Re.oneof s) m K).
Proof.
  intros H b c r cp Hc. unfold Re.oneof. cbn [Re.rmatch Re.rest].
  now rewrite (H c Hc).
Qed.

Lemma space_not_assign c : is_space c = true -> existsb (Ascii.eqb c) "=:" = false.
Proof.
  destruct c as [[] [] [] [] [] [] [] []]; intros H; try reflexivity;
    discriminate H.
Qed.

Lemma id_start_not_assign c :
  id_start c = true -> existsb (Ascii.eqb c) "=:" = false /\ is_space c = false.
Proof.
  destruct c as [[] [] [] [] [] [] [] []]; intros H; try discriminate H;
    split; reflexivity.
Qed.

Lemma id_start_char c : id_start c = true -> id_char c = true.
Proof. unfold id_char. now intros ->. Qed.

Lemma greedy_chr_longest p K (w r : str) cp x : forall bef,
  forallb p w = true -> stops p r = true ->
  K (Re.mkM (rev w ++ bef) r cp) = Some x ->
  greedy_chr p K bef (w ++ r) cp = Some x.
Proof.
  induction w as [|a w IH]; intros bef Hw Hr HK.
  - cbn [app rev] in *. destruct r as [|c t]; cbn [greedy_chr]; [exact HK|].
    cbn [stops] in Hr. apply negb_true_iff in Hr. now rewrite Hr.
  - cbn [forallb] in Hw. apply andb_true_iff in Hw. destruct Hw as [Ha Hw].
    cbn [app greedy_chr]. rewrite Ha.
    rewrite (IH (a :: bef)); [reflexivity | assumption | assumption |].
    cbn [rev] in HK. now rewrite <- app_assoc in HK.
Qed.

Lemma assign_class c :
  is_assign c = true ->
  existsb (Ascii.eqb c) "=:" = true /\ is_space c = false
  /\ id_char c = false.
Proof.
  unfold is_assign. intros H. apply orb_true_iff in H.
  destruct H as [H|H]; apply Ascii.eqb_eq in H; subst; repeat split.
Qed.

Lemma value_class c :
  ends_value c = false ->
  not_newline c = true /\ existsb (Ascii.eqb c) ";," = false.
Proof.
  unfold ends_value, not_newline. intros H.
  apply orb_false_iff in H. destruct H as [H H3].
  apply orb_false_iff in H. destruct H as [H1 H2].
  cbn [existsb]. now rewrite H1, H2, H3.
Qed.

(** The value ends here: at the end of the text, or before [;] or [,]. *)
Lemma value_end K b (tail : str) cp :
  (tail = [] \/ exists c t, tail = c :: t
                            /\ existsb (Ascii.eqb c) ";," = true) ->
  Re.rmatch (Re.Alt (Re.oneof ";,") Re.Eol) (Re.mkM b tail cp) K
  = match tail with
    | [] => K (Re.mkM b [] cp)
    | c :: t => K (Re.mkM (c :: b) t cp)
    end.
Proof.
  intros [->|(c & t & -> & Hc)].
  - reflexivity.
  - unfold Re.oneof. cbn [Re.rmatch Re.rest Re.before Re.caps].
    rewrite Hc. destruct (K (Re.mkM (c :: b) t cp)); [reflexivity|].
    cbn [Re.orelse]. destruct t as [|c' t]; [|reflexivity].
    destruct (Ascii.eqb_spec c newline) as [->|_];
      [discriminate Hc | reflexivity].
Qed.

Lemma value_no_end K b a2 (tail : str) cp :
  a2 <> [] -> forallb (fun c => negb (ends_value c)) a2 = true ->
  Re.rmatch (Re.Alt (Re.oneof ";,") Re.Eol) (Re.mkM b (a2 ++ tail) cp) K
  = None.
Proof.
  intros Hne Ha. destruct a2 as [|c a2]; [now elim Hne|].
  cbn [forallb] in Ha. apply andb_true_iff in Ha. destruct Ha as [Hc _].
  apply negb_true_iff in Hc. destruct (value_class c Hc) as [Hn Hs].
  unfold Re.oneof. cbn [app Re.rmatch Re.rest Re.before Re.caps].
  rewrite Hs. cbn [Re.orelse].
  destruct (a2 ++ tail); [|reflexivity].
  unfold not_newline in Hn. apply negb_true_iff in Hn. now rewrite Hn.
Qed.

Lemma firstn_exact n (g r : str) :
  n = length g -> firstn n (g ++ r) = g.
Proof. intros ->. apply firstn_app_exact. Qed.

Lemma rmatch_grp name r m k :
  Re.rmatch (Re.Grp name r) m k
  = Re.rmatch r m (fun m' =>
      k (Re.mkM (Re.before m') (Re.rest m')
           ((name, firstn (Re.pos m' - Re.pos m) (Re.rest m))
            :: Re.caps m'))).
Proof. reflexivity. Qed.

Lemma rmatch_oneof s bef c t cp k :
  Re.rmatch (Re.oneof s) (Re.mkM bef (c :: t) cp) k
  = if existsb (Ascii.eqb c) s then k (Re.mkM (c :: bef) t cp) else None.
Proof. reflexivity. Qed.

Lemma rmatch_lazy_dot m k :
  Re.rmatch (Re.lazy Re.dot) m k
  = Re.star_loop (Re.rmatch (Re.Chr not_newline)) false k
      (S (length (Re.rest m))) m.
Proof. reflexivity. Qed.

Lemma var_match b name w1 op w2 val tail :
  is_identifier name ->
  forallb is_space w1 = true -> is_assign op = true ->
  forallb is_space w2 = true -> stops is_space (val ++ tail) = true ->
  forallb (fun c => negb (ends_value c)) val = true ->
  (tail = [] \/ exists c t, tail = c :: t
                            /\ existsb (Ascii.eqb c) ";," = true) ->
  exists M,
    Re.rmatch var_re
      (Re.mkM b (name ++ w1 ++ op :: w2 ++ val ++ tail) []) Some = Some M
    /\ Re.lookup "name" (Re.caps M) = Some name
    /\ Re.lookup "val" (Re.caps M) = Some val.
Proof.
  intros (c & cs & -> & Hc & Hcs) H1 Hop H2 Hv Hval Htail.
  destruct (assign_class op Hop) as (Ho1 & Ho2 & Ho3).
  unfold var_re. cbn [Re.seq]. unfold Re.ws, identifier.
  rewrite rmatch_seq, rmatch_grp, rmatch_seq. cbn [app].
  rewrite rmatch_chr, Hc.
  assert (S1 : stops id_char (w1 ++ op :: w2 ++ val ++ tail) = true).
  { destruct w1 as [|x w1]; cbn [app stops]; [now rewrite Ho3|].
    cbn [forallb] in H1. apply andb_true_iff in H1. destruct H1 as [Hx _].
    destruct (id_char x) eqn:E; [|reflexivity].
    destruct (id_char_class x E) as [F _]. congruence. }
  rewrite rmatch_star_committed; [|assumption..|].
  2:{ intros b0 x r cp Hx. cbn [Re.before Re.rest Re.caps].
      rewrite rmatch_seq.
      exact (refuses_assign _ b0 x r _ Hx). }
  cbn [Re.before Re.rest Re.caps]. rewrite rmatch_seq.
  rewrite rmatch_star_committed; [|assumption| |].
  2:{ cbn [stops]. now rewrite Ho2. }
  2:{ intros b0 x r cp Hx. rewrite rmatch_seq.
      exact (refuses_oneof is_space "=:" _ space_not_assign b0 x r cp Hx). }
  rewrite rmatch_seq, rmatch_oneof, Ho1, rmatch_seq.
  rewrite rmatch_star_chr. cbn [Re.before Re.rest Re.caps].
  assert (Hdot : forallb not_newline val = true).
  { apply forallb_forall. intros x Hx.
    rewrite forallb_forall in Hval. specialize (Hval x Hx).
    apply negb_true_iff in Hval. now destruct (value_class x Hval). }
  assert (Hmid : forall a1 a2 K bef cp, val = a1 ++ a2 -> a2 <> [] ->
            Re.rmatch (Re.Alt (Re.oneof ";,") Re.Eol)
              (Re.mkM bef (a2 ++ tail) cp) K = None).
  { intros a1 a2 K bef cp -> Hne.
    rewrite forallb_app in Hval. apply andb_true_iff in Hval.
    now apply value_no_end. }
  pose proof Htail as Ht.
  destruct Htail as [->|(c0 & t & -> & Hc0)]; eexists; (split; [|split]).
  1,4: apply greedy_chr_longest; [assumption..|];
       rewrite rmatch_seq, rmatch_grp, rmatch_lazy_dot;
       cbn [Re.before Re.rest Re.caps];
       apply lazy_chr_first;
       [ assumption
       | intros a1 a2 E Hne; cbn [Re.before Re.rest Re.caps];
         now apply (Hmid a1 a2)
       | cbn [Re.before Re.rest Re.caps]; rewrite value_end by assumption;
         reflexivity
       | lia ].
  all: cbn [Re.caps Re.lookup]; unfold Re.pos; cbn [Re.before];
       apply f_equal.
  all: try (change (c :: cs ++ ?r) with ((c :: cs) ++ r)).
  all: apply firstn_exact; rewrite ?length_app, ?length_rev;
       cbn [length]; rewrite ?length_app, ?length_rev; cbn [length]; lia.
Qed.

Lemma assign_oneof c : existsb (Ascii.eqb c) "=:" = is_assign c.
Proof. unfold is_assign. cbn [existsb]. now rewrite orb_false_r. Qed.

(** Whitespace that leads to no sign: the match is refused. *)
Lemma spaces_no_assign K (a : str) n0 rest cp : forall bef,
  (forall b x r cp', is_assign x = false -> K (Re.mkM b (x :: r) cp') = None) ->
  forallb (fun c => negb (is_assign c)) a = true ->
  is_space n0 = false -> is_assign n0 = false ->
  greedy_chr is_space K bef (a ++ n0 :: rest) cp = None.
Proof.
  intros bef HK. revert bef.
  induction a as [|x a IH]; intros bef Ha Hs Hn; cbn [app greedy_chr].
  - rewrite Hs. now apply HK.
  - cbn [forallb] in Ha. apply andb_true_iff in Ha. destruct Ha as [Hx Ha].
    apply negb_true_iff in Hx.
    rewrite (HK _ _ _ _ Hx). destruct (is_space x); [|reflexivity].
    now rewrite IH.
Qed.

(** A word before the name that is followed by no sign: the match is
    refused wherever the word is cut. *)
Lemma word_no_assign K (a : str) n0 rest cp : forall bef,
  refuses id_char K ->
  (forall b a' cp', forallb (fun c => negb (is_assign c)) a' = true ->
     K (Re.mkM b (a' ++ n0 :: rest) cp') = None) ->
  forallb (fun c => negb (is_assign c)) a = true ->
  forallb id_char a = false ->
  greedy_chr id_char K bef (a ++ n0 :: rest) cp = None.
Proof.
  intros bef HK HA. revert bef.
  induction a as [|x a IH]; intros bef Ha Hi; [discriminate Hi|].
  cbn [app greedy_chr].
  pose proof Ha as Ha'. cbn [forallb] in Ha'.
  apply andb_true_iff in Ha'. destruct Ha' as [_ Ha'].
  destruct (id_char x) eqn:Ex.
  - cbn [forallb] in Hi. rewrite Ex in Hi. cbn [andb] in Hi.
    rewrite IH by assumption. cbn [Re.orelse]. now apply HK.
  - exact (HA bef (x :: a) cp Ha).
Qed.

Lemma var_no_match b (a : str) n0 rest :
  a <> [] -> forallb (fun c => negb (is_assign c)) a = true ->
  forallb id_char a = false -> id_start n0 = true ->
  Re.rmatch var_re (Re.mkM b (a ++ n0 :: rest) []) Some = None.
Proof.
  intros Hne Ha Hi Hn. destruct a as [|x a]; [now elim Hne|].
  destruct (id_start_not_assign n0 Hn) as [Hn1 Hn2].
  rewrite assign_oneof in Hn1.
  unfold var_re. cbn [Re.seq]. unfold Re.ws, identifier.
  rewrite rmatch_seq, rmatch_grp, rmatch_seq. cbn [app].
  rewrite rmatch_chr. destruct (id_start x) eqn:Ex; [|reflexivity].
  rewrite rmatch_star_chr. cbn [Re.before Re.rest Re.caps].
  cbn [forallb] in Ha, Hi. rewrite (id_start_char x Ex) in Hi.
  apply andb_true_iff in Ha. destruct Ha as [_ Ha]. cbn [andb] in Hi.
  apply word_no_assign; [| |assumption..].
  - intros b0 y r cp Hy. cbn [Re.before Re.rest Re.caps].
    rewrite rmatch_seq. exact (refuses_assign _ b0 y r _ Hy).
  - intros b0 a' cp' Ha'. cbn [Re.before Re.rest Re.caps].
    rewrite rmatch_seq, rmatch_star_chr. cbn [Re.before Re.rest Re.caps].
    apply spaces_no_assign; [|assumption..].
    intros b1 y r cp1 Hy. rewrite rmatch_seq, rmatch_oneof, assign_oneof.
    now rewrite Hy.
Qed.

Lemma parseVar_found (before name w1 w2 val tail : str) (op : ascii) :
  forallb (fun c => negb (is_assign c)) before = true ->
  (forall p x, before = p ++ [x] -> id_char x = false) ->
  is_identifier name ->
  forallb is_space w1 = true -> is_assign op = true ->
  forallb is_space w2 = true ->
  forallb (fun c => negb (ends_value c)) val = true ->
  (tail = [] \/ exists c t, tail = c :: t /\ (c = ";" \/ c = ",")%char) ->
  parseVar (before ++ name ++ w1 ++ op :: w2 ++ val ++ tail)
  = Some (name, strip val).
Proof.
  intros Hb Hlast Hname H1 Hop H2 Hval Htail.
  assert (Ht : tail = [] \/ exists c t, tail = c :: t
                 /\ existsb (Ascii.eqb c) ";," = true).
  { destruct Htail as [->|(c & t & -> & [->| ->])]; [now left|right..];
      eexists _, _; split; reflexivity. }
  set (sp := takeWhile is_space val). set (v := dropWhile is_space val).
  assert (Ev : val = sp ++ v) by (symmetry; apply takeWhile_dropWhile).
  assert (Hsp : forallb is_space (w2 ++ sp) = true).
  { rewrite forallb_app, H2. apply takeWhile_forallb. }
  assert (Hv : forallb (fun c => negb (ends_value c)) v = true).
  { rewrite Ev, forallb_app in Hval. now apply andb_true_iff in Hval. }
  assert (Hst : stops is_space (v ++ tail) = true).
  { pose proof (dropWhile_stops is_space val) as Hd. fold v in Hd.
    destruct v as [|x v']; [|exact Hd].
    destruct Ht as [->|(c & t & -> & Hc)]; [reflexivity|].
    cbn [app stops]. destruct c as [[] [] [] [] [] [] [] []];
      try reflexivity; discriminate Hc. }
  destruct (var_match (rev before) name w1 op (w2 ++ sp) v tail
              Hname H1 Hop Hsp Hst Hv Ht) as (M & HM & Gn & Gv).
  assert (El : before ++ name ++ w1 ++ op :: w2 ++ val ++ tail
               = before ++ name ++ w1 ++ op :: (w2 ++ sp) ++ v ++ tail).
  { rewrite Ev, <- !app_assoc. reflexivity. }
  unfold parseVar, Re.search, Re.start. rewrite El.
  destruct Hname as (c & cs & En & Hc & Hcs).
  rewrite search_from_skip.
  2:{ intros a1 a2 E Hne. unfold Re.match_here.
      cbn [Re.before Re.rest Re.caps]. rewrite En. cbn [app].
      rewrite var_no_match; [reflexivity|assumption| | |assumption].
      - rewrite E, forallb_app in Hb. now apply andb_true_iff in Hb.
      - destruct (exists_last Hne) as (l & x & ->).
        rewrite forallb_app. cbn [forallb].
        rewrite (Hlast (a1 ++ l) x) by (rewrite E; apply app_assoc).
        cbn [andb]. apply andb_false_r. }
  2:{ rewrite !length_app. lia. }
  rewrite app_nil_r.
  erewrite search_from_here.
  2:{ unfold Re.match_here. cbn [Re.before Re.rest Re.caps].
      rewrite HM. reflexivity. }
  unfold group_or_empty, Re.group. cbn [Re.m_after].
  rewrite Gn, Gv. f_equal. f_equal.
  unfold strip, lstrip. subst v. now rewrite dropWhile_idem.
Qed.

(** [parseVar] on a line that holds an assignment, [name], whitespace, [=]
    or [:], whitespace, a value with no [;], [,] or line break in it, and
    then the end of the text or a [;] or [,]: when nothing before the name
    is a [=] or [:] and the text before the name is empty or ends with a
    character that cannot be part of an identifier, the result is the name
    and the value with the whitespace at both its ends taken off. *)
Theorem parseVar_assignment (before name w1 w2 val tail : str) (op : ascii) :
  forallb (fun c => negb (is_assign c)) before = true ->
  (forall p x, before = p ++ [x] -> id_char x = false) ->
  is_identifier name ->
  forallb is_space w1 = true -> is_assign op = true ->
  forallb is_space w2 = true ->
  forallb (fun c => negb (ends_value c)) val = true ->
  (tail = [] \/ exists c t, tail = c :: t /\ (c = ";" \/ c = ",")%char) ->
  parseVar (before ++ name ++ w1 ++ op :: w2 ++ val ++ tail)
  = Some (name, strip val).
Proof. apply parseVar_found. Qed.


Lemma parseVar_assignment_witness :
  parseVar "var foo = 1;" = Some ("foo", "1").
Proof.
  apply (parseVar_assignment "var " "foo" " " " " "1" ";" "="%char);
    try reflexivity.
  - intros p x E. change "var " with ("var" ++ [" "%char]) in E.
    apply app_inj_tail in E. destruct E as [_ <-]. reflexivity.
  - exists "f"%char, "oo". repeat split.
  - right. exists ";"%char, []. split; [reflexivity | now left].
Defined.

(** ** parseFunction *)

Lemma rmatch_alt r1 r2 m k :
  Re.rmatch (Re.Alt r1 r2) m k
  = Re.orelse (Re.rmatch r1 m k) (Re.rmatch r2 m k).
Proof. reflexivity. Qed.

Lemma rmatch_opt r m k :
  Re.rmatch (Re.opt r) m k = Re.orelse (Re.rmatch r m k) (k m).
Proof. reflexivity. Qed.

Lemma find_one c (s : str) : is_some (find [c] s) = existsb (Ascii.eqb c) s.
Proof.
  induction s as [|a s IH]; [reflexivity|].
  cbn [find startswith existsb]. rewrite andb_true_r.
  destruct (Ascii.eqb c a); [reflexivity|]. cbn [orb]. rewrite <- IH.
  now destruct (find [c] s).
Qed.

(** A name and whitespace that lead to no [=] or [:]: the first part of
    [function_re], [var_re] and the like is refused. *)
Lemma assign_no_match g s R K b x (a : str) n0 rest cp :
  (forall c, existsb (Ascii.eqb c) s = is_assign c) ->
  forallb (fun c => negb (is_assign c)) a = true ->
  forallb id_char a = false -> is_space n0 = false -> is_assign n0 = false ->
  Re.rmatch (Re.Seq (Re.Grp g identifier)
               (Re.Seq (Re.star Re.ws) (Re.Seq (Re.oneof s) R)))
    (Re.mkM b (x :: a ++ n0 :: rest) cp) K = None.
Proof.
  intros Hs Ha Hi Hn1 Hn2. unfold Re.ws, identifier.
  rewrite rmatch_seq, rmatch_grp, rmatch_seq.
  rewrite rmatch_chr. destruct (id_start x) eqn:Ex; [|reflexivity].
  rewrite rmatch_star_chr. cbn [Re.before Re.rest Re.caps].
  apply word_no_assign; [| |assumption..].
  - intros b0 y r cp0 Hy. cbn [Re.before Re.rest Re.caps].
    rewrite rmatch_seq, rmatch_star_chr.
    cbn [Re.before Re.rest Re.caps greedy_chr].
    destruct (id_char_class y Hy) as (Hsp & _ & He & _).
    rewrite Hsp, rmatch_seq, rmatch_oneof, Hs.
    replace (is_assign y) with false; [reflexivity|].
    symmetry. unfold is_assign.
    destruct y as [[] [] [] [] [] [] [] []]; try reflexivity;
      discriminate Hy.
  - intros b0 a' cp' Ha'. cbn [Re.before Re.rest Re.caps].
    rewrite rmatch_seq, rmatch_star_chr. cbn [Re.before Re.rest Re.caps].
    apply spaces_no_assign; [|assumption..].
    intros b1 y r cp1 Hy. rewrite rmatch_seq, rmatch_oneof, Hs.
    now rewrite Hy.
Qed.

(** A greedy repetition that ran past the place where the continuation
    succeeds gives the characters back, down to the last such place. *)
Lemma greedy_chr_refused p q K (u r2 : str) cp : forall bef,
  forallb q u = true -> stops p r2 = true ->
  (forall b' u2, forallb q u2 = true ->
     K (Re.mkM b' (u2 ++ r2) cp) = None) ->
  greedy_chr p K bef (u ++ r2) cp = None.
Proof.
  induction u as [|y u IH]; intros bef Hq Hr HK.
  - cbn [app]. pose proof (HK bef [] eq_refl) as H0. cbn [app] in H0.
    destruct r2 as [|z r2]; cbn [greedy_chr]; [exact H0|].
    cbn [stops] in Hr. apply negb_true_iff in Hr. now rewrite Hr.
  - pose proof (HK bef (y :: u) Hq) as H0. cbn [app] in H0.
    cbn [app greedy_chr]. rewrite H0.
    cbn [forallb] in Hq. apply andb_true_iff in Hq. destruct Hq as [_ Hq].
    rewrite IH by assumption. now destruct (p y).
Qed.

Lemma greedy_chr_back p q K (a : str) c (u r2 : str) cp x : forall bef,
  forallb p a = true -> p c = true -> stops p r2 = true ->
  forallb q u = true ->
  (forall b' u2, forallb q u2 = true ->
     K (Re.mkM b' (u2 ++ r2) cp) = None) ->
  K (Re.mkM (rev a ++ bef) (c :: u ++ r2) cp) = Some x ->
  greedy_chr p K bef (a ++ c :: u ++ r2) cp = Some x.
Proof.
  induction a as [|y a IH]; intros bef Ha Hc Hr Hq HK Hx.
  - cbn [app rev] in *. cbn [greedy_chr]. rewrite Hc.
    rewrite (greedy_chr_refused p q) by assumption. exact Hx.
  - cbn [forallb] in Ha. apply andb_true_iff in Ha. destruct Ha as [Hy Ha].
    cbn [app greedy_chr]. rewrite Hy.
    rewrite (IH (y :: bef)); [reflexivity|assumption..|].
    cbn [rev] in Hx. now rewrite <- app_assoc in Hx.
Qed.

(** A character that is not the closing parenthesis. *)
Lemma no_closer_refused (u r2 : str) :
  forallb (fun c => negb (Ascii.eqb c ")")) u = true ->
  stops not_newline r2 = true ->
  startswith ")" (u ++ r2) = false.
Proof.
  intros Hu Hr. destruct u as [|y u]; cbn [app].
  - destruct r2 as [|z r2]; [reflexivity|]. cbn [stops] in Hr.
    unfold not_newline in Hr. rewrite negb_involutive in Hr.
    apply Ascii.eqb_eq in Hr. now subst.
  - cbn [forallb] in Hu. apply andb_true_iff in Hu. destruct Hu as [Hy _].
    apply negb_true_iff in Hy. cbn [startswith].
    rewrite Ascii.eqb_sym, Hy. reflexivity.
Qed.

Lemma space_or_star_class c :
  space_or_star c = true -> is_assign c = false /\ id_char c = false.
Proof.
  destruct c as [[] [] [] [] [] [] [] []]; intros H; try discriminate H;
    split; reflexivity.
Qed.

Lemma id_start_not_star c : id_start c = true -> space_or_star c = false.
Proof.
  destruct c as [[] [] [] [] [] [] [] []]; intros H; try discriminate H;
    reflexivity.
Qed.

Lemma rmatch_lit_app p b (r : str) cp k :
  Re.rmatch (Re.lit p) (Re.mkM b (p ++ r) cp) k
  = k (Re.mkM (rev p ++ b) r cp).
Proof.
  rewrite rmatch_lit. cbn [Re.before Re.rest Re.caps].
  now rewrite startswith_app, skipn_app_exact.
Qed.

Lemma rmatch_lit1 x b (r : str) cp k :
  Re.rmatch (Re.lit [x]) (Re.mkM b (x :: r) cp) k = k (Re.mkM (x :: b) r cp).
Proof. apply (rmatch_lit_app [x]). Qed.

Lemma function_match b gen name w args rest :
  gen <> [] -> forallb space_or_star gen = true ->
  is_identifier name -> forallb is_space w = true ->
  forallb not_newline args = true ->
  forallb (fun c => negb (Ascii.eqb c ")")) rest = true ->
  exists M,
    Re.rmatch function_re
      (Re.mkM b ("function" ++ gen ++ name ++ w ++ "(" ++ args ++ ")" ++ rest)
         []) Some = Some M
    /\ Re.caps M
       = [("args", lstrip args); ("name2", name); ("generator", gen)].
Proof.
  intros Hg Hgen (c & cs & -> & Hc & Hcs) Hw Hargs Hrest.
  destruct gen as [|g0 gen]; [now elim Hg|]. clear Hg.
  pose proof Hgen as Hgen'. cbn [forallb] in Hgen'.
  apply andb_true_iff in Hgen'. destruct Hgen' as [Hg0 Hgen'].
  destruct (id_start_not_assign c Hc) as [Hc1 Hc2].
  rewrite assign_oneof in Hc1.
  set (sp := takeWhile is_space args). set (v := dropWhile is_space args).
  assert (Ev : args = sp ++ v) by (symmetry; apply takeWhile_dropWhile).
  assert (Hsp : forallb is_space sp = true) by apply takeWhile_forallb.
  assert (Hv : forallb not_newline v = true).
  { rewrite Ev, forallb_app in Hargs. now apply andb_true_iff in Hargs. }
  set (r1 := takeWhile not_newline rest).
  set (r2 := dropWhile not_newline rest).
  assert (Er : rest = r1 ++ r2) by (symmetry; apply takeWhile_dropWhile).
  assert (Hr1 : forallb not_newline r1 = true) by apply takeWhile_forallb.
  assert (Hr2 : stops not_newline r2 = true) by apply dropWhile_stops.
  assert (Hq : forallb (fun c => negb (Ascii.eqb c ")")) r1 = true).
  { rewrite Er, forallb_app in Hrest. now apply andb_true_iff in Hrest. }
  assert (Hst : stops is_space (v ++ ")"%char :: r1 ++ r2) = true).
  { pose proof (dropWhile_stops is_space args) as Hd. fold v in Hd.
    destruct v as [|x v']; [reflexivity | exact Hd]. }
  unfold lstrip. fold v. rewrite Ev, Er. clearbody sp v r1 r2.
  clear Ev Er Hargs Hrest.
  unfold function_re. cbn [Re.seq].
  rewrite rmatch_seq, rmatch_opt. cbn [Re.seq].
  replace (Re.rmatch _ _ _) with (@None Re.mstate).
  2:{ symmetry. cbn [app].
      change ("f"%char :: "u"%char :: "n"%char :: "c"%char :: "t"%char
              :: "i"%char :: "o"%char :: "n"%char :: g0 :: gen ++ ?r)
        with ("f"%char :: ("unction" ++ g0 :: gen) ++ r).
      apply assign_no_match; [| | |assumption..].
      - intros x. unfold is_assign. cbn [existsb].
        rewrite orb_false_r. apply orb_comm.
      - rewrite forallb_app. cbn [forallb].
        destruct (space_or_star_class g0 Hg0) as [-> _]. cbn [negb andb].
        apply forallb_forall. intros x Hx.
        rewrite forallb_forall in Hgen'.
        now destruct (space_or_star_class x (Hgen' x Hx)) as [-> _].
      - rewrite forallb_app. cbn [forallb].
        destruct (space_or_star_class g0 Hg0) as [_ ->].
        cbn [andb]. apply andb_false_r. }
  cbn [Re.orelse].
  eexists. split.
  - rewrite rmatch_seq, rmatch_lit_app.
    rewrite rmatch_seq, rmatch_opt. apply orelse_some_l.
    rewrite rmatch_grp.
    change (Re.plus (Re.Chr space_or_star))
      with (Re.Seq (Re.Chr space_or_star) (Re.star (Re.Chr space_or_star))).
    rewrite rmatch_seq. cbn [app]. rewrite rmatch_chr, Hg0, rmatch_star_chr.
    cbn [Re.before Re.rest Re.caps].
    apply greedy_chr_longest; [assumption| |].
    { cbn [stops]. now rewrite (id_start_not_star c Hc). }
    cbn [Re.before Re.rest Re.caps].
    rewrite rmatch_seq, rmatch_opt. apply orelse_some_l.
    rewrite rmatch_grp. unfold identifier.
    rewrite rmatch_seq, rmatch_chr, Hc, rmatch_star_chr.
    cbn [Re.before Re.rest Re.caps].
    apply greedy_chr_longest; [assumption| |].
    { destruct w as [|x w]; [reflexivity|]. cbn [app stops].
      cbn [forallb] in Hw. apply andb_true_iff in Hw. destruct Hw as [Hx _].
      destruct (id_char x) eqn:E; [|reflexivity].
      destruct (id_char_class x E) as [F _]. congruence. }
    cbn [Re.before Re.rest Re.caps].
    unfold Re.ws. rewrite rmatch_seq, rmatch_star_chr.
    cbn [Re.before Re.rest Re.caps].
    apply greedy_chr_longest; [assumption|reflexivity|].
    rewrite rmatch_seq, rmatch_lit1, rmatch_seq, rmatch_star_chr.
    cbn [Re.before Re.rest Re.caps]. rewrite <- app_assoc.
    apply greedy_chr_longest; [assumption|assumption|].
    rewrite rmatch_seq, rmatch_grp.
    change Re.dot with (Re.Chr not_newline). rewrite rmatch_star_chr.
    cbn [Re.before Re.rest Re.caps].
    apply (greedy_chr_back not_newline (fun c => negb (Ascii.eqb c ")")));
      [assumption|reflexivity|assumption|assumption| |].
    + intros b' u2 Hu. cbn [Re.before Re.rest Re.caps].
      rewrite rmatch_lit. cbn [Re.rest].
      now rewrite no_closer_refused.
    + cbn [Re.before Re.rest Re.caps]. rewrite rmatch_lit1. reflexivity.
  - cbn [Re.caps]. unfold Re.pos. cbn [Re.before Re.rest].
    change (g0 :: gen ++ ?r) with ((g0 :: gen) ++ r).
    change (c :: cs ++ ?r) with ((c :: cs) ++ r).
    rewrite !firstn_exact
      by (rewrite !length_app; cbn [length];
          rewrite ?length_app, !length_rev; cbn; lia).
    reflexivity.
Qed.

Lemma function_no_match b x (s : str) cp :
  is_space x = true ->
  Re.match_here function_re (Re.mkM b (x :: s) cp) = None.
Proof.
  intros Hx. apply match_here_none_rmatch. cbn [Re.before Re.rest].
  unfold function_re. cbn [Re.seq].
  rewrite rmatch_seq, rmatch_opt.
  rewrite rmatch_seq, rmatch_grp. unfold identifier.
  rewrite rmatch_seq, rmatch_chr.
  replace (id_start x) with false.
  2:{ destruct x as [[] [] [] [] [] [] [] []]; try reflexivity;
        discriminate Hx. }
  cbn [Re.orelse]. rewrite rmatch_seq, rmatch_lit.
  cbn [Re.rest startswith].
  destruct (Ascii.eqb_spec "f" x) as [<-|_]; [discriminate Hx|reflexivity].
Qed.

Lemma parseFunction_plain (indent gen name w args rest : str) :
  forallb is_space indent = true ->
  gen <> [] -> forallb space_or_star gen = true ->
  is_identifier name -> forallb is_space w = true ->
  forallb not_newline args = true -> ~ In ")"%char rest ->
  parseFunction Javascript
    (indent ++ "function" ++ gen ++ name ++ w ++ "(" ++ args ++ ")" ++ rest)
  = Some ((if existsb (Ascii.eqb "*") gen then "*" else []) ++ name,
          lstrip args).
Proof.
  intros Hi Hg Hgen Hname Hw Hargs Hrest.
  assert (Hr : forallb (fun c => negb (Ascii.eqb c ")")) rest = true).
  { apply forallb_forall. intros x Hx. apply negb_true_iff.
    destruct (Ascii.eqb_spec x ")") as [->|_]; [now elim Hrest|reflexivity]. }
  destruct (function_match (rev indent) gen name w args rest
              Hg Hgen Hname Hw Hargs Hr) as (M & HM & Hcaps).
  unfold parseFunction, Re.search, Re.start.
  rewrite search_from_skip.
  2:{ intros a1 a2 E Hne. destruct a2 as [|x a2]; [now elim Hne|].
      cbn [app]. apply function_no_match.
      rewrite E, forallb_app in Hi. apply andb_true_iff in Hi.
      destruct Hi as [_ Hi]. cbn [forallb] in Hi.
      apply andb_true_iff in Hi. exact (proj1 Hi). }
  2:{ rewrite !length_app. lia. }
  rewrite app_nil_r.
  erewrite search_from_here.
  2:{ unfold Re.match_here. cbn [Re.before Re.rest Re.caps].
      rewrite HM. reflexivity. }
  cbn [Re.orelse]. unfold group_or_empty, Re.group. cbn [Re.m_after].
  rewrite Hcaps.
  change (Re.lookup "generator" _) with (Some gen).
  change (Re.lookup "name1" _) with (@None str).
  change (Re.lookup "name2" _) with (Some name).
  change (Re.lookup "args" _) with (Some (lstrip args)).
  change (Re.lookup "args2" _) with (@None str).
  rewrite find_one. cbn [sor]. f_equal. f_equal.
  now destruct (lstrip args).
Qed.

(** [parseFunction] on a function declaration: after the indentation, the
    word [function], whitespace and stars, the name, whitespace, and the
    arguments in parentheses, with no line break in them and no closing
    parenthesis after them.  The result is the name, after a star when one
    stands before it, and the text between the parentheses without the
    whitespace at its start. *)
Theorem parseFunction_declaration (indent gen name w args rest : str) :
  forallb is_space indent = true ->
  gen <> [] -> forallb space_or_star gen = true ->
  is_identifier name -> forallb is_space w = true ->
  forallb not_newline args = true -> ~ In ")"%char rest ->
  parseFunction Javascript
    (indent ++ "function" ++ gen ++ name ++ w ++ "(" ++ args ++ ")" ++ rest)
  = Some ((if existsb (Ascii.eqb "*") gen then "*" else []) ++ name,
          lstrip args).
Proof. apply parseFunction_plain. Qed.

Lemma parseFunction_declaration_witness :
  parseFunction Javascript "  function* foo (a, b) {" = Some ("*foo", "a, b").
Proof.
  apply (parseFunction_declaration "  " "* " "foo" " " "a, b" " {");
    try reflexivity.
  - discriminate.
  - exists "f"%char, "oo". repeat split.
  - cbn. intuition discriminate.
Defined.

(** ** parse, from the declaration to the lines of the comment *)

Lemma join_forallb (p : ascii -> bool) (l : list str) :
  p ","%char = true -> p " "%char = true ->
  Forall (fun n => forallb p n = true) l ->
  forallb p (join ", " l) = true.
Proof.
  intros Hc Hs H. induction H as [|n l Hn Hl IH]; [reflexivity|].
  destruct l as [|n' l]; [exact Hn|].
  change (join ", " (n :: n' :: l)) with (n ++ ", " ++ join ", " (n' :: l)).
  rewrite !forallb_app, Hn, IH. cbn [forallb]. now rewrite Hc, Hs.
Qed.

Lemma id_char_not_newline c : id_char c = true -> not_newline c = true.
Proof.
  destruct c as [[] [] [] [] [] [] [] []]; intros H; try discriminate H;
    reflexivity.
Qed.

Lemma space_is_space_or_star c : is_space c = true -> space_or_star c = true.
Proof. unfold space_or_star. now intros ->. Qed.

Lemma space_not_star c : is_space c = true -> Ascii.eqb "*" c = false.
Proof.
  destruct c as [[] [] [] [] [] [] [] []]; intros H; try discriminate H;
    reflexivity.
Qed.

Lemma lstrip_join_identifier n (l : list str) :
  is_identifier n -> lstrip (join ", " (n :: l)) = join ", " (n :: l).
Proof.
  intros (c & cs & -> & Hc & _).
  destruct (id_start_not_assign c Hc) as [_ Hsp].
  assert (E : exists t, join ", " ((c :: cs : str) :: l) = c :: t).
  { destruct l; cbn [join app]; eexists; reflexivity. }
  destruct E as (t & ->). unfold lstrip. cbn [dropWhile].
  now rewrite Hsp.
Qed.

(** [parse] on a JavaScript function declaration whose arguments are
    identifiers separated by [", "], with no notation rule configured and
    outside the simple mode: the comment has one line for each argument, in
    their order, after the description and tag lines and before at most one
    return line. *)
Theorem parse_declaration (st : pluginSettings) (inline : bool)
  (nameOverride : option str) (indent gen name w : str) (names : list str)
  (rest : str) :
  simple_mode st = false -> notation_map st = [] ->
  forallb is_space indent = true ->
  gen <> [] -> forallb is_space gen = true ->
  is_identifier name -> forallb is_space w = true ->
  names <> [] -> Forall is_identifier names -> ~ In ")"%char rest ->
  exists ret,
    parse Javascript st inline nameOverride
      (indent ++ "function" ++ gen ++ name ++ w
       ++ "(" ++ join ", " names ++ ")" ++ rest)
    = Some ((if is_true (function_description st)
             then ["${1:"
                   ++ str_or nameOverride
                        ("[" ++ escape name
                         ++ (if nonempty name then " " else [])
                         ++ "description]")
                   ++ "}"]
             else [])
            ++ (if autoadd_method_tag st then ["@method " ++ escape name]
                else [])
            ++ (if extra_tags_go_after st then [] else extra_tags st)
            ++ map (param_line Javascript st) names
            ++ ret
            ++ (if extra_tags_go_after st then extra_tags st else []))
    /\ length ret <= 1.
Proof.
  intros Hsm Hmap Hi Hg Hgen Hname Hw Hne Hid Hrest.
  assert (Hgs : forallb space_or_star gen = true).
  { apply forallb_forall. intros x Hx. apply space_is_space_or_star.
    now apply (forallb_In is_space gen). }
  assert (Hstar : existsb (Ascii.eqb "*") gen = false).
  { clear Hg Hgs. induction gen as [|x gen IH]; [reflexivity|].
    cbn [forallb] in Hgen. apply andb_true_iff in Hgen.
    destruct Hgen as [Hx Hgen]. cbn [existsb].
    now rewrite (space_not_star x Hx), IH. }
  assert (Hargs : forallb not_newline (join ", " names) = true).
  { apply join_forallb; [reflexivity..|].
    apply Forall_forall. intros n Hn. rewrite Forall_forall in Hid.
    destruct (identifier_chars n (Hid n Hn)) as [_ Hc].
    apply forallb_forall. intros x Hx. apply id_char_not_newline.
    now apply (forallb_In id_char n). }
  assert (Hl : lstrip (join ", " names) = join ", " names).
  { destruct names as [|n names]; [now elim Hne|].
    apply lstrip_join_identifier. now inversion Hid. }
  assert (Hgn : is_generator name = false).
  { destruct Hname as (c & cs & -> & Hc & _). cbn [is_generator].
    destruct c as [[] [] [] [] [] [] [] []]; try reflexivity;
      discriminate Hc. }
  destruct (formatFunction_identifier_args Javascript st nameOverride name
              names Hne Hid Hmap Hgn) as (ret & Hf & Hlen).
  exists ret. split; [|exact Hlen].
  unfold parse, parse_try. rewrite Hsm.
  rewrite (parseFunction_plain indent gen name w (join ", " names) rest)
    by assumption.
  rewrite Hstar, Hl. cbn [app]. rewrite Hf. reflexivity.
Qed.

Lemma parse_declaration_witness :
  exists ret,
    parse Javascript test_settings false None "function foo(bar, baz) {"
    = Some ("${1:[foo description]}"
            :: "@param {${1:[type]}} bar ${1:[description]}"
            :: "@param {${1:[type]}} baz ${1:[description]}"
            :: ret ++ [])
    /\ length ret <= 1.
Proof.
  apply (parse_declaration test_settings false None [] " " "foo" []
           ["bar"; "baz"] " {"); try reflexivity.
  - discriminate.
  - exists "f"%char, "oo". repeat split.
  - discriminate.
  - repeat constructor; eexists; eexists; (split; [reflexivity|]);
      split; reflexivity.
  - cbn. intuition discriminate.
Defined.

(** ** Lines that are no function *)

(** The engine only goes forward: from a text without [c] the continuation
    is only tried on texts without [c]. *)
Lemma rmatch_forward c r : forall m k,
  ~ In c (Re.rest m) ->
  (forall m', ~ In c (Re.rest m') -> k m' = None) ->
  Re.rmatch r m k = None.
Proof.
  induction r as [|p|r1 IH1 r2 IH2|r1 IH1 r2 IH2|g r1 IH1|name r1 IH1| | |];
    intros m k Hm Hk; cbn [Re.rmatch].
  - now apply Hk.
  - destruct (Re.rest m) as [|x t] eqn:E; [reflexivity|].
    destruct (p x); [|reflexivity]. apply Hk. cbn [Re.rest].
    intros H. apply Hm. now right.
  - apply IH1; [assumption|]. intros m' Hm'. now apply IH2.
  - now rewrite IH1, IH2.
  - generalize (S (length (Re.rest m))). intros n. revert m Hm.
    induction n as [|n IHn]; intros m Hm; cbn [Re.star_loop];
      [now apply Hk|].
    rewrite (Hk m Hm).
    rewrite IH1; [now destruct g|assumption|].
    intros m' Hm'. destruct (Re.pos m <? Re.pos m'); [|reflexivity].
    now apply IHn.
  - apply IH1; [assumption|]. intros m' Hm'. now apply Hk.
  - pose proof (Hk m Hm) as H0.
    destruct (Re.before m); [exact H0|reflexivity].
  - pose proof (Hk m Hm) as H0.
    destruct (Re.rest m) as [|x [|y t]]; [exact H0| |reflexivity].
    destruct (Ascii.eqb x newline); [exact H0|reflexivity].
  - pose proof (Hk m Hm) as H0.
    destruct (xorb _ _); [exact H0|reflexivity].
Qed.

Lemma needs_lit c p : In c p -> needs c (Re.lit p).
Proof.
  intros Hc m k Hm. rewrite rmatch_lit.
  destruct (startswith p (Re.rest m)) eqn:E; [|reflexivity].
  apply startswith_spec in E. destruct E as [r E].
  exfalso. apply Hm. rewrite E. apply in_or_app. now left.
Qed.

Lemma needs_seq_l c r1 r2 : needs c r1 -> needs c (Re.Seq r1 r2).
Proof. intros H m k Hm. rewrite rmatch_seq. now apply H. Qed.

Lemma needs_seq_r c r1 r2 : needs c r2 -> needs c (Re.Seq r1 r2).
Proof.
  intros H m k Hm. rewrite rmatch_seq.
  apply (rmatch_forward c); [assumption|]. intros m' Hm'. now apply H.
Qed.

Lemma needs_grp c name r : needs c r -> needs c (Re.Grp name r).
Proof. intros H m k Hm. rewrite rmatch_grp. now apply H. Qed.

Lemma needs_search c r (s : str) :
  needs c r -> ~ In c s -> Re.search r s = None.
Proof.
  intros H Hs. unfold Re.search, Re.start. apply search_from_none.
  cbn [Re.rest Re.before Re.caps]. intros a1 a2 E.
  apply match_here_none_rmatch. apply H. cbn [Re.rest].
  intros Hc. apply Hs. rewrite E. apply in_or_app. now right.
Qed.

Lemma function_needs : needs "(" function_re.
Proof.
  unfold function_re. cbn [Re.seq].
  do 5 apply needs_seq_r. apply needs_seq_l. apply needs_lit. now left.
Qed.

Lemma arrow_needs : needs ">" arrow_re.
Proof.
  unfold arrow_re. cbn [Re.seq].
  do 2 apply needs_seq_r. apply needs_lit. right. now left.
Qed.

Lemma method_needs : needs "(" method_re.
Proof.
  unfold method_re. cbn [Re.seq].
  do 2 apply needs_seq_r. apply needs_seq_l. apply needs_lit. now left.
Qed.

Lemma coffee_function_needs : needs ">" coffee_function_re.
Proof.
  unfold coffee_function_re. cbn [Re.seq].
  do 3 apply needs_seq_r. apply needs_grp. apply needs_seq_r.
  apply needs_lit. now left.
Qed.

Lemma parseFunction_none (d : dialect) (line : str) :
  ~ In "("%char line -> ~ In ">"%char line -> parseFunction d line = None.
Proof.
  intros Hp Ha. unfold parseFunction. destruct d.
  - rewrite (needs_search "(" function_re), (needs_search ">" arrow_re),
      (needs_search "(" method_re);
      [reflexivity|apply method_needs|assumption|apply arrow_needs|assumption
      |apply function_needs|assumption].
  - now rewrite (needs_search ">" coffee_function_re)
      by (apply coffee_function_needs || assumption).
Qed.

(** A line with no opening parenthesis and no [>] is no function
    declaration for either parser: all three JavaScript patterns ask for an
    opening parenthesis or for the arrow, and the CoffeeScript pattern for
    the arrow. *)
Theorem parseFunction_needs_parenthesis (d : dialect) (line : str) :
  ~ In "("%char line -> ~ In ">"%char line -> parseFunction d line = None.
Proof. apply parseFunction_none. Qed.

Lemma parseFunction_needs_parenthesis_witness :
  parseFunction Javascript "var foo = function;" = None.
Proof.
  apply parseFunction_needs_parenthesis; cbn; intuition discriminate.
Defined.

(** ** parse, from the assignment to the lines of the comment *)

Lemma guessTypeFromValue_ok d st (val : str) :
  val <> [] -> exists v, guessTypeFromValue d st val = Ok v.
Proof.
  intros Hne. unfold guessTypeFromValue.
  destruct (is_numeric val); [now eexists|].
  destruct val as [|c rest]; [now elim Hne|]. cbn [first_char bind].
  repeat match goal with
  | |- context [if ?b then _ else _] => destruct b
  | |- context [match ?x with Javascript => _ | Coffee => _ end] => destruct x
  end; now eexists.
Qed.

(** [parse] on a line that holds an assignment (as for [parseVar]) and no
    opening parenthesis or [>], with no notation rule configured and outside
    the simple mode: the comment is the description of the variable and its
    type line, or the type line alone in the inline form.  The type is
    [[type]] for an empty value, and the type the value suggests whenever it
    suggests one. *)
Theorem parse_variable (d : dialect) (st : pluginSettings) (inline : bool)
  (nameOverride : option str) (before name w1 w2 val tail : str)
  (op : ascii) :
  simple_mode st = false -> notation_map st = [] ->
  ~ In "("%char (before ++ name ++ w1 ++ op :: w2 ++ val ++ tail) ->
  ~ In ">"%char (before ++ name ++ w1 ++ op :: w2 ++ val ++ tail) ->
  forallb (fun c => negb (is_assign c)) before = true ->
  (forall p x, before = p ++ [x] -> id_char x = false) ->
  is_identifier name ->
  forallb is_space w1 = true -> is_assign op = true ->
  forallb is_space w2 = true ->
  forallb (fun c => negb (ends_value c)) val = true ->
  (tail = [] \/ exists c t, tail = c :: t /\ (c = ";" \/ c = ",")%char) ->
  exists T,
    parse d st inline nameOverride
      (before ++ name ++ w1 ++ op :: w2 ++ val ++ tail)
    = Some (if inline
            then ["@" ++ typeTag st ++ " " ++ open_curly d ++ "${1:" ++ T
                  ++ "}" ++ close_curly d ++ " ${1:[description]}"]
            else ["${1:[" ++ escape name ++ " description]}";
                  "@" ++ typeTag st ++ " " ++ open_curly d ++ "${1:" ++ T
                  ++ "}" ++ close_curly d])
    /\ (strip val = [] -> T = "[type]")
    /\ (forall s, s <> [] ->
        guessTypeFromValue d st (strip val) = Ok (PStr s) -> T = s).
Proof.
  intros Hsm Hmap Hp Ha Hb Hlast Hname H1 Hop H2 Hval Htail.
  unfold parse, parse_try. rewrite Hsm.
  rewrite parseFunction_none by assumption.
  rewrite (parseVar_found before name w1 w2 val tail op) by assumption.
  unfold formatVar.
  destruct (strip val) as [|c v] eqn:Ev.
  - cbn [nonempty negb bind]. exists "[type]".
    split; [now destruct inline|]. split; [reflexivity|].
    intros s _ H. unfold guessTypeFromValue in H.
    change (is_numeric []) with false in H. discriminate H.
  - cbn [nonempty negb].
    destruct (guessTypeFromValue_ok d st (c :: v)) as (t & Ht);
      [discriminate|].
    rewrite Ht. cbn [bind]. unfold por.
    destruct (truthy t) eqn:Et.
    + cbn [bind]. exists (fmt (or_unknown t)).
      split; [now destruct inline|]. split; [discriminate|].
      intros s Hs H. injection H as ->. unfold or_unknown.
      now rewrite Et.
    + rewrite guessTypeFromName_plain
        by (assumption || now apply identifier_no_generator).
      cbn [bind]. exists (fmt (or_unknown (name_heuristics d st name))).
      split; [now destruct inline|]. split; [discriminate|].
      intros s Hs H. injection H as ->. cbn [truthy] in Et.
      destruct (str_eqb_spec s []); [contradiction|discriminate].
Qed.

Lemma parse_variable_witness :
  exists T,
    parse Javascript test_settings false None "var foo = 1;"
    = Some ["${1:[foo description]}"; "@type {${1:" ++ T ++ "}}"]
    /\ (strip "1" = [] -> T = "[type]")
    /\ (forall s, s <> [] ->
        guessTypeFromValue Javascript test_settings (strip "1")
        = Ok (PStr s) -> T = s).
Proof.
  apply (parse_variable Javascript test_settings false None
           "var " "foo" " " " " "1" ";" "="%char); try reflexivity.
  - cbn. intuition discriminate.
  - cbn. intuition discriminate.
  - intros p x E. change "var " with ("var" ++ [" "%char]) in E.
    apply app_inj_tail in E. destruct E as [_ <-]. reflexivity.
  - exists "f"%char, "oo". repeat split.
  - right. exists ";"%char, []. split; [reflexivity | now left].
Defined.

(** ** What getDefinition strips from a line *)























